(** * generate-common.py: scanning, promotion and rewriting of Rust type declarations

    A shallow embedding of [generate-common.py].  Python [str] values are
    lists of characters ([text]); the offsets returned by [match.start()]
    and [match.end()] index characters of the decoded text.  The regular
    expressions of the script are written as abstract syntax and run by a
    backtracking matcher with ordered alternation and greedy or lazy
    repetition, which is the strategy of Python's [re] module.  The
    directory is a list of named files in the order [os.listdir] returns
    them; it holds the decoded text that [f.read()] yields.  A function
    that reads or writes files is a computation on the directory that may
    raise.

    Characters are 8-bit [ascii]; the classes [\w], [\s] and
    [str.isupper] are those of Python on code points below 128.  Left
    out: the parsing of the command line ([main] takes the value of
    [int(args.typecount)]), what is only printed (but for the list of
    violations in [print_summary]), and failures of the file system (the
    directory holds files that can be read and written). *)

From Stdlib Require Import Ascii String.
From Stdlib Require Import List Arith ZArith Lia Bool.
From Stdlib Require Import Sorting.Permutation.
Import ListNotations.

Set Implicit Arguments.

(** ** Text *)

Definition text := list ascii.

Definition T (s : string) : text := list_ascii_of_string s.

Definition nl : ascii := "010"%char.
Definition tab : ascii := "009"%char.
Definition dquote : ascii := "034"%char.

Definition between (lo hi : nat) (c : ascii) : bool :=
  (lo <=? nat_of_ascii c) && (nat_of_ascii c <=? hi).

(** [\w] (and [[\w\d]], since [\d] is included in [\w]). *)
Definition is_word (c : ascii) : bool :=
  between 97 122 c || between 65 90 c || between 48 57 c || Ascii.eqb c "_".

(** [\s]: the characters for which [str.isspace] holds. *)
Definition is_space (c : ascii) : bool :=
  between 9 13 c || between 28 32 c.

(** [str.isupper] on a one-character string. *)
Definition is_upper (c : ascii) : bool := between 65 90 c.

Definition any_char (c : ascii) : bool := true.
Definition not_slash (c : ascii) : bool := negb (Ascii.eqb c "/").
Definition is_gt (c : ascii) : bool := Ascii.eqb c ">".

Fixpoint text_eqb (a b : text) : bool :=
  match a, b with
  | [], [] => true
  | x :: a', y :: b' => Ascii.eqb x y && text_eqb a' b'
  | _, _ => false
  end.

(** [str.rstrip('\n')] *)
Fixpoint rstrip_nl (s : text) : text :=
  match s with
  | [] => []
  | c :: s' =>
      match rstrip_nl s' with
      | [] => if Ascii.eqb c nl then [] else [c]
      | r => c :: r
      end
  end.

(** [sep.join(parts)] *)
Fixpoint join (sep : text) (parts : list text) : text :=
  match parts with
  | [] => []
  | [p] => p
  | p :: ps => p ++ sep ++ join sep ps
  end.

(** [s[:i] + s[j:]] for non-negative [i] and [j]; slices clamp at the end
    of the string as [firstn] and [skipn] do. *)
Definition splice (s : text) (i j : nat) : text := firstn i s ++ skipn j s.

(** ** Regular expressions *)

Inductive regex : Type :=
| Eps
| Lit (s : text)
| Rep (greedy : bool) (least : nat) (cls : ascii -> bool)
| Seq (a b : regex)
| Alt (a b : regex)
| Grp (n : nat) (r : regex)
| Bol
| Eol.

Declare Scope regex_scope.
Delimit Scope regex_scope with re.
Bind Scope regex_scope with regex.
Infix "@@" := Seq (at level 60, right associativity) : regex_scope.

(** Matcher state: the character before the cursor, the text from the
    cursor on, the number of characters consumed by this attempt, the
    groups that are open (each with what it has consumed, last character
    first) and the groups already closed. *)
Record mstate : Type := MState {
  prev : option ascii;
  rest : text;
  used : nat;
  opened : list (nat * text);
  caps : list (nat * text)
}.

Definition advance (c : ascii) (l : text) (st : mstate) : mstate :=
  {| prev := Some c; rest := l; used := S (used st);
     opened := map (fun g => (fst g, c :: snd g)) (opened st);
     caps := caps st |}.

Definition open_group (n : nat) (st : mstate) : mstate :=
  {| prev := prev st; rest := rest st; used := used st;
     opened := (n, []) :: opened st; caps := caps st |}.

Definition close_group (st : mstate) : mstate :=
  match opened st with
  | [] => st
  | (n, acc) :: os =>
      {| prev := prev st; rest := rest st; used := used st;
         opened := os; caps := (n, rev acc) :: caps st |}
  end.

Fixpoint lit (s : text) (l : text) (st : mstate) : option mstate :=
  match s with
  | [] => Some st
  | c :: s' =>
      match l with
      | d :: l' => if Ascii.eqb c d then lit s' l' (advance d l' st) else None
      | [] => None
      end
  end.

Section Matcher.
Variable A : Type.

(** [cls{least,}], greedy (longest first) or lazy (shortest first),
    followed by the continuation [k]. *)
Fixpoint rep (greedy : bool) (cls : ascii -> bool) (k : mstate -> option A)
         (least : nat) (l : text) (st : mstate) {struct l} : option A :=
  let stop (_ : unit) := match least with 0 => k st | S _ => None end in
  match l with
  | [] => stop tt
  | c :: l' =>
      if cls c then
        if greedy then
          match rep greedy cls k (pred least) l' (advance c l' st) with
          | Some a => Some a
          | None => stop tt
          end
        else
          match stop tt with
          | Some a => Some a
          | None => rep greedy cls k (pred least) l' (advance c l' st)
          end
      else stop tt
  end.

Fixpoint run (r : regex) (st : mstate) (k : mstate -> option A) : option A :=
  match r with
  | Eps => k st
  | Lit s => match lit s (rest st) st with Some st' => k st' | None => None end
  | Rep g least cls => rep g cls k least (rest st) st
  | Seq a b => run a st (fun st' => run b st' k)
  | Alt a b => match run a st k with Some x => Some x | None => run b st k end
  | Grp n r' => run r' (open_group n st) (fun st' => k (close_group st'))
  | Bol =>
      match prev st with
      | None => k st
      | Some c => if Ascii.eqb c nl then k st else None
      end
  | Eol =>
      match rest st with
      | [] => k st
      | [c] => if Ascii.eqb c nl then k st else None
      | _ => None
      end
  end.
End Matcher.

(** A match object: [start()], [end()] and the captured groups. *)
Record re_match : Type := ReMatch {
  m_start : nat;
  m_end : nat;
  m_groups : list (nat * text)
}.

Fixpoint group_lookup (n : nat) (gs : list (nat * text)) : option text :=
  match gs with
  | [] => None
  | (m, s) :: gs' => if Nat.eqb n m then Some s else group_lookup n gs'
  end.

(** [match.group(n)]; a group that did not take part gives [None]. *)
Definition group (n : nat) (m : re_match) : option text :=
  group_lookup n (m_groups m).

Definition init_state (p : option ascii) (s : text) : mstate :=
  {| prev := p; rest := s; used := 0; opened := []; caps := [] |}.

(** One attempt at the cursor: the length matched and the groups. *)
Definition match_at (r : regex) (p : option ascii) (s : text)
  : option (nat * list (nat * text)) :=
  run r (init_state p s) (fun st => Some (used st, caps st)).

(** [pattern.finditer]: leftmost matches, each search resuming where the
    previous match ended.  [skip] counts the characters of the last match
    still to be passed.  None of the script's patterns matches the empty
    string, so the treatment of empty matches is immaterial here. *)
Fixpoint finditer_from (r : regex) (p : option ascii) (pos skip : nat)
         (s : text) {struct s} : list re_match :=
  match skip with
  | S skip' =>
      match s with
      | [] => []
      | c :: s' => finditer_from r (Some c) (S pos) skip' s'
      end
  | 0 =>
      match match_at r p s with
      | Some (len, gs) =>
          ReMatch pos (pos + len) gs ::
          match s with
          | [] => []
          | c :: s' => finditer_from r (Some c) (S pos) (pred len) s'
          end
      | None =>
          match s with
          | [] => []
          | c :: s' => finditer_from r (Some c) (S pos) 0 s'
          end
      end
  end.

Definition finditer (r : regex) (s : text) : list re_match :=
  finditer_from r None 0 0 s.

(** [re.search]: the first match. *)
Definition search (r : regex) (s : text) : option re_match :=
  match finditer r s with
  | [] => None
  | m :: _ => Some m
  end.

(** ** The patterns of the script *)

Definition cfg_attr (feature derive : string) : text :=
  T "#[cfg_attr(feature = " ++ [dquote] ++ T feature ++ [dquote]
    ++ T ", derive(" ++ T derive ++ T "))]" ++ [nl].

(** The five annotation lines, in the order the pattern fixes. *)
Definition header : text :=
  cfg_attr "derive_debug" "Debug"
  ++ cfg_attr "derive_default" "Default"
  ++ cfg_attr "derive_serde" "Serialize, Deserialize"
  ++ cfg_attr "derive_clone" "Clone"
  ++ cfg_attr "derive_partial_eq" "PartialEq".

(** [\t\tOk(())\n\t}\n}\n] *)
Definition footer : text :=
  [tab; tab] ++ T "Ok(())" ++ [nl; tab] ++ T "}" ++ [nl] ++ T "}" ++ [nl].

(** [type_pattern], compiled with [re.DOTALL]. *)
Definition type_pattern : regex :=
  Grp 1
    (Lit ([nl; nl] ++ T "// ") @@ Grp 2 (Rep true 1 is_word)
     @@ Lit (T " ..." ++ [nl]) @@ Lit header
     @@ Alt (Lit (T "pub struct")) (Lit (T "pub enum"))
     @@ Rep true 1 is_space @@ Rep true 1 is_word
     @@ Rep false 0 any_char @@ Lit footer)%re.

(** The type alternatives of [base_usage_pattern]. *)
Definition usage_type : regex :=
  Alt (Rep true 1 is_word)
   (Alt (Lit (T "Option<") @@ Rep true 1 is_word @@ Lit (T ">"))
    (Alt (Lit (T "Vec<") @@ Rep true 1 is_word @@ Lit (T ">"))
         (Lit (T "Option<Vec<") @@ Rep true 1 is_word @@ Lit (T ">>"))))%re.

(** [type_usage_patterns], the second assignment of [base_usage_pattern]. *)
Definition type_usage_patterns : regex :=
  (Bol @@ Rep false 0 not_slash @@ Lit (T ":") @@ Rep true 0 is_space
   @@ Grp 1 usage_type @@ Rep true 0 is_space @@ Lit (T ","))%re.

(** [(\w+)(?:>)*,?$] of [extract_type]. *)
Definition base_type_pattern : regex :=
  (Grp 1 (Rep true 1 is_word) @@ Rep true 0 is_gt
   @@ Alt (Lit (T ",")) Eps @@ Eol)%re.

(** [// (\w+) \.\.\.\n] of [read_existing_common]. *)
Definition existing_pattern : regex :=
  (Lit (T "// ") @@ Grp 1 (Rep true 1 is_word) @@ Lit (T " ..." ++ [nl]))%re.

(** ** Dictionaries

    A Python [dict] keeps its keys in insertion order; it is an
    association list without repeated keys. *)

Section Dict.
Variables (K V : Type) (keq : K -> K -> bool).

Fixpoint dict_get (k : K) (d : list (K * V)) : option V :=
  match d with
  | [] => None
  | (k', v) :: d' => if keq k k' then Some v else dict_get k d'
  end.

(** [d[k] = v] *)
Fixpoint dict_set (k : K) (v : V) (d : list (K * V)) : list (K * V) :=
  match d with
  | [] => [(k, v)]
  | (k', v') :: d' =>
      if keq k k' then (k', v) :: d' else (k', v') :: dict_set k v d'
  end.

Definition dict_values (d : list (K * V)) : list V := map snd d.
End Dict.

(** [d[k].append(v)] on a [defaultdict(list)]. *)
Fixpoint dict_append (K E : Type) (keq : K -> K -> bool) (k : K) (v : E)
         (d : list (K * list E)) : list (K * list E) :=
  match d with
  | [] => [(k, [v])]
  | (k', vs) :: d' =>
      if keq k k' then (k', vs ++ [v]) :: d'
      else (k', vs) :: dict_append keq k v d'
  end.

(** ** The scan *)

Record StructMatch : Type := {
  filename : string;
  content : text;
  start_pos : nat;
  end_pos : nat;
  usage_count : nat
}.

Definition with_usage (n : nat) (m : StructMatch) : StructMatch :=
  {| filename := filename m; content := content m;
     start_pos := start_pos m; end_pos := end_pos m; usage_count := n |}.

(** The files of the directory, as [os.listdir] lists them. *)
Definition directory := list (string * text).

Definition type_index := list (text * list StructMatch).
Definition contents_index := list (string * text).

(** [f.endswith('.rs')] *)
Definition is_rust_file (f : string) : bool :=
  let n := String.length f in
  (3 <=? n) && String.eqb (String.substring (n - 3) 3 f) ".rs".

(** [extract_type] *)
Definition extract_type (type_str : text) : option text :=
  match search base_type_pattern type_str with
  | Some m => group 1 m
  | None => None
  end.

(** The list [type_usages] of one file. *)
Definition usages_of (file_text : text) : list text :=
  flat_map
    (fun m =>
       match group 1 m with
       | Some type_str =>
           match extract_type type_str with
           | Some base_type => [base_type]
           | None => []
           end
       | None => []
       end)
    (finditer type_usage_patterns file_text).

(** [type_usages.count(type_name)] *)
Definition count_name (name : text) (l : list text) : nat :=
  List.length (filter (text_eqb name) l).

(** [type_name[0].isupper()]; the name is a match of [\w+] and has a first
    character. *)
Definition starts_upper (name : text) : bool :=
  match name with
  | c :: _ => is_upper c
  | [] => false
  end.

Definition group_text (n : nat) (m : re_match) : text :=
  match group n m with Some s => s | None => [] end.

(** The body of the loop over [type_matches]. *)
Definition classify (fname : string) (type_usages : list text)
           (acc : type_index * list StructMatch) (m : re_match)
  : type_index * list StructMatch :=
  let type_name := group_text 2 m in
  let struct_match :=
    {| filename := fname; content := group_text 1 m;
       start_pos := m_start m; end_pos := m_end m; usage_count := 0 |} in
  if starts_upper type_name then
    (dict_append text_eqb type_name
       (with_usage (count_name type_name type_usages) struct_match) (fst acc),
     snd acc)
  else (fst acc, snd acc ++ [struct_match]).

Record scan_result : Type := {
  type_locations : type_index;
  file_contents : contents_index;
  lowercase_matches : list StructMatch
}.

(** The body of the loop over [rust_files]. *)
Definition scan_file (acc : scan_result) (file : string * text) : scan_result :=
  let (fname, file_text) := file in
  let type_matches := finditer type_pattern file_text in
  let type_usages := usages_of file_text in
  let r := fold_left (classify fname type_usages) type_matches
             (type_locations acc, lowercase_matches acc) in
  {| type_locations := fst r;
     file_contents := dict_set String.eqb fname file_text (file_contents acc);
     lowercase_matches := snd r |}.

Definition rust_files (dir : directory) : directory :=
  filter (fun f => is_rust_file (fst f)) dir.

Definition scan_rust_files (dir : directory) : scan_result :=
  fold_left scan_file (rust_files dir)
    {| type_locations := []; file_contents := []; lowercase_matches := [] |}.

(** ** The summary and the threshold *)

Definition total_usage (matches : list StructMatch) : nat :=
  fold_right (fun m n => usage_count m + n) 0 matches.

(** [sum(match.usage_count for match in matches) >= typecount] *)
Definition qualifies (typecount : Z) (matches : list StructMatch) : bool :=
  (typecount <=? Z.of_nat (total_usage matches))%Z.

(** [print_summary] without its printing: the dictionary [frequent_types],
    or [None] after the bare [return] taken when it is empty. *)
Definition print_summary (locs : type_index) (typecount : Z) : option type_index :=
  match filter (fun e => qualifies typecount (snd e)) locs with
  | [] => None
  | frequent_types => Some frequent_types
  end.

(** ** Files and exceptions

    A computation reads and writes the directory and either returns a
    value or raises; what was written before an exception stays
    written. *)

Definition io (A : Type) : Type := directory -> option A * directory.

Definition ret (A : Type) (a : A) : io A := fun fs => (Some a, fs).
Definition raise (A : Type) : io A := fun fs => (None, fs).
Definition bind (A B : Type) (c : io A) (f : A -> io B) : io B :=
  fun fs =>
    match c fs with
    | (Some a, fs') => f a fs'
    | (None, fs') => (None, fs')
    end.

Notation "x <- c ;; f" := (bind c (fun x => f))
  (at level 61, c at next level, right associativity).
Notation "c ;;; f" := (bind c (fun _ => f))
  (at level 61, right associativity).

(** [open(name, 'w').write(s)]; a file that did not exist is listed
    last. *)
Definition write_file (name : string) (s : text) : io unit :=
  fun fs => (Some tt, dict_set String.eqb name s fs).

(** [open(name, 'r').read()], [None] for [FileNotFoundError] *)
Definition read_file (name : string) : io (option text) :=
  fun fs => (Some (dict_get String.eqb name fs), fs).

Fixpoint for_each (A : Type) (l : list A) (body : A -> io unit) : io unit :=
  match l with
  | [] => ret tt
  | a :: l' => body a ;;; for_each l' body
  end.

(** ** The shared module *)

Definition mem_text (n : text) (l : list text) : bool := existsb (text_eqb n) l.

(** [re.findall(r'// (\w+) \.\.\.\n', content)] *)
Definition declared_names (s : text) : list text :=
  map (group_text 1) (finditer existing_pattern s).

(** [read_existing_common] *)
Definition read_existing_common (output_file : string) : io (list text * text) :=
  c <- read_file output_file ;;
  match c with
  | Some s => ret (declared_names s, s)
  | None => ret ([], [])
  end.

(** Lexicographic order on strings by code point. *)
Fixpoint text_leb (a b : text) : bool :=
  match a, b with
  | [], _ => true
  | _ :: _, [] => false
  | x :: a', y :: b' =>
      if nat_of_ascii x <? nat_of_ascii y then true
      else if nat_of_ascii y <? nat_of_ascii x then false
      else text_leb a' b'
  end.

Section Sorting.
Variables (X : Type) (leb : X -> X -> bool).

Fixpoint insert_sorted (x : X) (l : list X) : list X :=
  match l with
  | [] => [x]
  | y :: l' => if leb x y then x :: l else y :: insert_sorted x l'
  end.

Definition sort_by (l : list X) : list X := fold_right insert_sorted [] l.
End Sorting.

(** [sorted(duplicate_types.items())]: the keys are distinct, so the
    order of the pairs is that of the keys. *)
Definition sorted_items (d : type_index) : type_index :=
  sort_by (fun a b => text_leb (fst a) (fst b)) d.

(** The blocks appended by [generate_common_file]: for each promoted name
    not yet declared, [matches[0].content.rstrip('\n')]; [matches[0]] on
    an empty list raises [IndexError]. *)
Fixpoint new_blocks (existing_types : list text) (items : type_index)
  : option (list text) :=
  match items with
  | [] => Some []
  | (type_name, matches) :: items' =>
      if mem_text type_name existing_types then new_blocks existing_types items'
      else
        match matches, new_blocks existing_types items' with
        | m0 :: _, Some bs => Some (rstrip_nl (content m0) :: bs)
        | _, _ => None
        end
  end.

(** [generate_common_file] *)
Definition generate_common_file (duplicate_types : type_index)
           (output_file : string) : io unit :=
  e <- read_existing_common output_file ;;
  let (existing_types, existing_content) := e in
  match new_blocks existing_types (sorted_items duplicate_types) with
  | None => raise unit
  | Some blocks =>
      let new_content := [rstrip_nl existing_content] ++ blocks ++ [[nl]] in
      write_file output_file (join [nl] new_content)
  end.

(** ** The rewrite *)

Definition span := (nat * nat)%type.

(** Tuples compare lexicographically; [sort(reverse=True)] puts the
    largest first. *)
Definition span_geb (a b : span) : bool :=
  if fst b <? fst a then true
  else if fst a <? fst b then false
  else snd b <=? snd a.

Definition sort_reverse (positions : list span) : list span :=
  sort_by span_geb positions.

Definition delete_span (s : text) (p : span) : text := splice s (fst p) (snd p).

(** The loop [for start, end in positions] on the sorted list. *)
Definition delete_spans (s : text) (positions : list span) : text :=
  fold_left delete_span (sort_reverse positions) s.

Definition span_of (m : StructMatch) : span := (start_pos m, end_pos m).

Definition add_position (fp : list (string * list span)) (m : StructMatch)
  : list (string * list span) :=
  dict_append String.eqb (filename m) (span_of m) fp.

(** [file_positions] as built by the first two loops of
    [remove_duplicates]. *)
Definition file_positions (duplicate_structs : type_index)
           (lowercase : list StructMatch) : list (string * list span) :=
  fold_left add_position lowercase
    (fold_left (fun fp matches => fold_left add_position matches fp)
       (dict_values duplicate_structs) []).

(** The body of the loop over [file_positions.items()]. *)
Definition rewrite_file (contents : contents_index)
           (entry : string * list span) : io unit :=
  let (fname, positions) := entry in
  match positions with
  | [] => ret tt
  | _ :: _ =>
      match dict_get String.eqb fname contents with
      | None => raise unit
      | Some old =>
          let new_content := delete_spans old positions in
          if text_eqb new_content old then ret tt
          else write_file fname new_content
      end
  end.

(** [remove_duplicates]; [duplicate_structs] is what [print_summary]
    returned, and [None.values()] raises [AttributeError]. *)
Definition remove_duplicates (contents : contents_index)
           (duplicate_structs : option type_index)
           (lowercase : list StructMatch) : io unit :=
  match duplicate_structs with
  | None => raise unit
  | Some ds => for_each (file_positions ds lowercase) (rewrite_file contents)
  end.

(** ** The run *)

Definition common_rs : string := "common.rs".

Definition nonempty (A : Type) (l : list A) : bool :=
  match l with [] => false | _ :: _ => true end.

Definition truthy (frequent_types : option type_index) : bool :=
  match frequent_types with
  | Some ft => nonempty ft
  | None => false
  end.

(** The [try] block of [main], with [typecount] the value of
    [int(args.typecount)].  The call of [read_existing_common] that only
    feeds the printed counts is left out. *)
Definition main_body (typecount : Z) : io unit :=
  fun fs =>
    let sc := scan_rust_files fs in
    let frequent_types := print_summary (type_locations sc) typecount in
    (if truthy frequent_types || nonempty (lowercase_matches sc) then
       (match frequent_types with
        | Some ft =>
            if nonempty ft then generate_common_file ft common_rs else ret tt
        | None => ret tt
        end) ;;;
       remove_duplicates (file_contents sc) frequent_types (lowercase_matches sc)
     else ret tt) fs.

(** [main]: the exit status and the directory it leaves. *)
Definition main (typecount : Z) (fs : directory) : Z * directory :=
  match main_body typecount fs with
  | (Some _, fs') => (0%Z, fs')
  | (None, fs') => (1%Z, fs')
  end.


(** ** Notions used to state the properties *)

(** The strings a pattern can consume, anchors and groups aside. *)
Fixpoint lang (r : regex) (c : text) : Prop :=
  match r with
  | Eps | Bol | Eol => c = []
  | Lit s => c = s
  | Rep _ least cls => least <= length c /\ Forall (fun x => cls x = true) c
  | Seq a b => exists c1 c2, c = c1 ++ c2 /\ lang a c1 /\ lang b c2
  | Alt a b => lang a c \/ lang b c
  | Grp _ r' => lang r' c
  end.

(** An open group after the characters [c] have been consumed. *)
Definition push (c : text) (g : nat * text) : nat * text :=
  (fst g, rev c ++ snd g).

(** From [st] the matcher reaches [st'] by consuming [c]: the cursor
    moves over [c], every open group takes [c] in, and closed groups are
    only added. *)
Definition steps (st st' : mstate) (c : text) : Prop :=
  rest st = c ++ rest st'
  /\ used st' = used st + length c
  /\ opened st' = map (push c) (opened st)
  /\ exists new, caps st' = new ++ caps st.

Definition span_of_match (m : re_match) : span := (m_start m, m_end m).

(** The spans of the declarations matched in one file. *)
Definition type_spans (file_text : text) : list span :=
  map span_of_match (finditer type_pattern file_text).

(** Spans that follow one another between [lo] and [hi]. *)
Fixpoint ascending (lo hi : nat) (ps : list span) : Prop :=
  match ps with
  | [] => True
  | p :: ps' =>
      lo <= fst p /\ fst p < snd p /\ snd p <= hi /\ ascending (snd p) hi ps'
  end.

(** Spans listed from the last to the first, below [hi]. *)
Fixpoint descending (hi : nat) (ps : list span) : Prop :=
  match ps with
  | [] => True
  | p :: ps' => fst p < snd p /\ snd p <= hi /\ descending (fst p) ps'
  end.

(** A list in the order of [leb]: each element before all later ones. *)
Inductive sorted (X : Type) (leb : X -> X -> bool) : list X -> Prop :=
| sorted_nil : sorted leb []
| sorted_cons a l :
    Forall (fun b => leb a b = true) l -> sorted leb l -> sorted leb (a :: l).

Definition disjoint (p q : span) : Prop := snd p <= fst q \/ snd q <= fst p.

Definition pairwise_disjoint (ps : list span) : Prop :=
  forall p q, In p ps -> In q ps -> p = q \/ disjoint p q.

Definition span_len (p : span) : nat := snd p - fst p.

Definition total_len (ps : list span) : nat :=
  fold_right (fun p n => span_len p + n) 0 ps.

Definition inside (i : nat) (p : span) : bool := (fst p <=? i) && (i <? snd p).

(** The characters of [s], numbered from [i], that lie in no span. *)
Fixpoint keep_outside_from (i : nat) (s : text) (ps : list span) : text :=
  match s with
  | [] => []
  | c :: s' =>
      if existsb (inside i) ps then keep_outside_from (S i) s' ps
      else c :: keep_outside_from (S i) s' ps
  end.

Definition keep_outside (s : text) (ps : list span) : text :=
  keep_outside_from 0 s ps.

(** The occurrence built for a match, with the usage count it ends with,
    paired with the declared name. *)
Definition occurrence (fname : string) (type_usages : list text) (m : re_match)
  : text * StructMatch :=
  let type_name := group_text 2 m in
  (type_name,
   {| filename := fname; content := group_text 1 m;
      start_pos := m_start m; end_pos := m_end m;
      usage_count :=
        if starts_upper type_name then count_name type_name type_usages else 0 |}).

(** Every declaration matched in a file, and in a directory. *)
Definition occurrences_of_file (file : string * text) : list (text * StructMatch) :=
  map (occurrence (fst file) (usages_of (snd file)))
      (finditer type_pattern (snd file)).

Definition all_occurrences (dir : directory) : list (text * StructMatch) :=
  flat_map occurrences_of_file (rust_files dir).

Definition named_upper (o : text * StructMatch) : bool := starts_upper (fst o).
Definition named_lower (o : text * StructMatch) : bool := negb (starts_upper (fst o)).

(** [d[k].append(v)] for a pair [(k, v)]. *)
Definition pair_add (K E : Type) (keq : K -> K -> bool)
           (d : list (K * list E)) (o : K * E) : list (K * list E) :=
  dict_append keq (fst o) (snd o) d.

(** [type_locations[type_name].append(struct_match)] *)
Definition index_add (d : type_index) (o : text * StructMatch) : type_index :=
  pair_add text_eqb d o.

(** [a] is a prefix of [b]. *)
Definition prefix (a b : text) : Prop := exists c, b = a ++ c.

(** The part of [type_usage_patterns] from the colon on. *)
Definition usage_tail : regex :=
  (Lit (T ":") @@ Rep true 0 is_space @@ Grp 1 usage_type
   @@ Rep true 0 is_space @@ Lit (T ","))%re.

(** What an attempt reports: the length matched and the groups. *)
Definition report (st : mstate) : option (nat * list (nat * text)) :=
  Some (used st, caps st).

(** The field line of the usage property. *)
Definition field_line : text := T "foo: Bar,".

(** A character that is neither a slash, a colon nor a comma. *)
Definition plain (c : ascii) : bool :=
  negb (Ascii.eqb c "/" || Ascii.eqb c ":" || Ascii.eqb c ",").

(** The text [pre] ends a line: what follows it starts a line. *)
Definition ends_line (pre : text) : Prop :=
  pre = [] \/ exists pre', pre = pre' ++ [nl].

(** A character a type reference is made of, blanks included. *)
Definition token (c : ascii) : bool :=
  is_space c || is_word c || Ascii.eqb c "<" || Ascii.eqb c ">".

(** After the character [p] and then the text [u], a line starts. *)
Fixpoint starts_line (p : option ascii) (u : text) : Prop :=
  match u with
  | [] => p = None \/ p = Some nl
  | c :: u' => starts_line (Some c) u'
  end.

(** The pair [(n, ms)] is an item of [frequent_types]. *)
Definition promoted (locs : type_index) (typecount : Z) (n : text)
           (ms : list StructMatch) : Prop :=
  match print_summary locs typecount with
  | Some frequent_types => In (n, ms) frequent_types
  | None => False
  end.

(** The names [generate_common_file] appends, in the order it meets
    them. *)
Definition new_names (existing_types : list text) (items : type_index) : list text :=
  filter (fun n => negb (mem_text n existing_types)) (map fst items).

(** Closes a goal [Forall _ l] for a literal list [l] or a concatenation
    of literal lists. *)
Ltac token_list :=
  repeat first
    [ apply Forall_nil
    | apply Forall_cons; [reflexivity|]
    | apply Forall_app; split ].

(** ** Sample inputs *)

(** A declaration block in the layout of the generated sources: the two
    newlines, the comment, the annotation header, the declaration and
    its [validate] block. *)
Definition block (kw name body : string) : text :=
  T "// " ++ T name ++ T " ..." ++ [nl] ++ header
  ++ T kw ++ T " " ++ T name ++ T " {" ++ [nl] ++ T body ++ T "}" ++ [nl; nl]
  ++ T "impl " ++ T name ++ T " {" ++ [nl; tab]
  ++ T "pub fn validate(&self) -> Result<(), ValidationError> {" ++ [nl]
  ++ footer.

Definition decl (kw name body : string) : text := [nl; nl] ++ block kw name body.

(** One line of a body, indented by a tab. *)
Definition fld (s : string) : string := String tab (s ++ String nl "").

(** [Foo] uses [Bar], [Bar] uses [Baz]. *)
Definition chain_rs : text :=
  T "use crate::validationerror::*;"
  ++ decl "pub struct" "Foo" (fld "pub bar: Bar,")
  ++ decl "pub struct" "Bar" (fld "pub baz: Option<Baz>,")
  ++ decl "pub enum" "Baz" (fld "CodeA,").

Definition chain_dir : directory := [("a.rs"%string, chain_rs)].

(** A lower-case declaration alone in its file. *)
Definition helper_rs : text := decl "pub struct" "helper" (fld "pub id: String,").

Definition helper_dir : directory := [("a.rs"%string, helper_rs)].

(** The same unused declaration in two files. *)
Definition widget_rs : text := decl "pub struct" "Widget" (fld "pub id: String,").

Definition widget_dir : directory :=
  [("a.rs"%string, widget_rs); ("b.rs"%string, widget_rs)].

(** A file with the field line [foo: Bar,] and a declaration of [Bar]. *)
Definition field_pre : text :=
  decl "pub enum" "Bar" (fld "CodeA,")
  ++ [nl; nl] ++ T "// Foo ..." ++ [nl] ++ header ++ T "pub struct Foo {".

Definition field_post : text :=
  [nl] ++ T "}" ++ [nl; nl] ++ T "impl Foo {" ++ [nl; tab]
  ++ T "pub fn validate(&self) -> Result<(), ValidationError> {" ++ [nl]
  ++ footer.

Definition field_rs : text :=
  (field_pre ++ [nl]) ++ [tab] ++ field_line ++ field_post.

Definition field_dir : directory := [("a.rs"%string, field_rs)].

Definition content_of (name : string) (fs : directory) : text :=
  match dict_get String.eqb name fs with Some s => s | None => [] end.

Definition first_match (ms : list StructMatch) : StructMatch :=
  hd {| filename := ""; content := []; start_pos := 0; end_pos := 0;
        usage_count := 0 |} ms.

Definition matches_of (name : string) (locs : type_index) : list StructMatch :=
  match dict_get text_eqb (T name) locs with Some ms => ms | None => [] end.

(** A declaration [A] with the header but without a [validate] block,
    followed after a single newline by a complete declaration of [B]. *)
Definition open_pre : text :=
  [nl; nl] ++ T "// A ..." ++ [nl] ++ header ++ T "pub struct A {" ++ [nl]
  ++ T "}" ++ [nl].

Definition open_rs : text := open_pre ++ block "pub struct" "B" "".

Definition open_dir : directory := [("a.rs"%string, open_rs)].

(** The same file next to one that declares [B] on its own. *)
Definition open_pair_dir : directory :=
  [("a.rs"%string, open_rs); ("b.rs"%string, decl "pub struct" "B" "")].

(** A shared module that ends in four newlines. *)
Definition padded_common : text := T "pub mod x;" ++ [nl; nl; nl; nl].

Definition padded_dir : directory :=
  [("a.rs"%string, widget_rs); ("common.rs"%string, padded_common)].

(** A comment in front of a declaration: the comment starts the file. *)
Definition comment_first_rs : text := T "// Old ..." ++ decl "pub enum" "Baz" "".

(** ** The results of a pattern

    The states a pattern can end in from a given state, in the order in
    which the matcher tries them: the matcher hands them to its
    continuation one after the other and stops at the first that
    succeeds. *)

Fixpoint first_some (X Y : Type) (k : X -> option Y) (l : list X) : option Y :=
  match l with
  | [] => None
  | x :: l' =>
      match k x with
      | Some y => Some y
      | None => first_some k l'
      end
  end.

Fixpoint rep_results (greedy : bool) (cls : ascii -> bool) (least : nat)
         (l : text) (st : mstate) {struct l} : list mstate :=
  let stop := match least with 0 => [st] | S _ => [] end in
  match l with
  | [] => stop
  | c :: l' =>
      if cls c then
        if greedy then rep_results greedy cls (pred least) l' (advance c l' st) ++ stop
        else stop ++ rep_results greedy cls (pred least) l' (advance c l' st)
      else stop
  end.

Fixpoint results (r : regex) (st : mstate) : list mstate :=
  match r with
  | Eps => [st]
  | Lit s => match lit s (rest st) st with Some st' => [st'] | None => [] end
  | Rep g least cls => rep_results g cls least (rest st) st
  | Seq a b => flat_map (results b) (results a st)
  | Alt a b => results a st ++ results b st
  | Grp n r' => map close_group (results r' (open_group n st))
  | Bol =>
      match prev st with
      | None => [st]
      | Some c => if Ascii.eqb c nl then [st] else []
      end
  | Eol =>
      match rest st with
      | [] => [st]
      | [c] => if Ascii.eqb c nl then [st] else []
      | _ => []
      end
  end.

(** The state after the characters [c], which are followed by [l]. *)
Fixpoint advance_all (c l : text) (st : mstate) : mstate :=
  match c with
  | [] => st
  | x :: c' => advance_all c' l (advance x (c' ++ l) st)
  end.

(** The group [n] of the pattern [r] can capture [c]. *)
Fixpoint captures (r : regex) (n : nat) (c : text) : Prop :=
  match r with
  | Grp m r' => (n = m /\ lang r' c) \/ captures r' n c
  | Seq a b | Alt a b => captures a n c \/ captures b n c
  | _ => False
  end.

(** Every match of [r] closes a group [n]. *)
Fixpoint has_group (r : regex) (n : nat) : bool :=
  match r with
  | Grp m r' => Nat.eqb n m || has_group r' n
  | Seq a b => has_group a n || has_group b n
  | Alt a b => has_group a n && has_group b n
  | _ => false
  end.

(** From [st] the pattern [r] ends in [st'] after consuming [c] and
    closing the groups [new]. *)
Definition reaches (r : regex) (st st' : mstate) (c : text)
           (new : list (nat * text)) : Prop :=
  rest st = c ++ rest st'
  /\ used st' = used st + length c
  /\ opened st' = map (push c) (opened st)
  /\ caps st' = new ++ caps st
  /\ lang r c
  /\ Forall (fun g => captures r (fst g) (snd g)) new
  /\ (forall n, has_group r n = true -> exists c', In (n, c') new).

(** The character before the cursor after the text [a] has been passed. *)
Definition prev_after (p : option ascii) (a : text) : option ascii :=
  fold_left (fun _ c => Some c) a p.

(** [sub] occurs in [s] at offset [i]. *)
Definition occurs_at (sub s : text) (i : nat) : Prop := prefix sub (skipn i s).

(** A name: a non-empty run of word characters. *)
Definition name_text (w : text) : Prop :=
  w <> [] /\ Forall (fun x => is_word x = true) w.

(** [t] is the name [w], bare or inside [Option<>], [Vec<>] or
    [Option<Vec<>>]. *)
Definition wrapped (w t : text) : Prop :=
  t = w \/ t = T "Option<" ++ w ++ T ">" \/ t = T "Vec<" ++ w ++ T ">"
  \/ t = T "Option<Vec<" ++ w ++ T ">>".

(** The comment line that names a declaration: [// name ...] and a
    newline. *)
Definition marker (n : text) : text := T "// " ++ n ++ (T " ..." ++ [nl]).

(** The pattern has no anchor. *)
Fixpoint no_anchor (r : regex) : bool :=
  match r with
  | Bol | Eol => false
  | Seq a b | Alt a b => no_anchor a && no_anchor b
  | Grp _ r' => no_anchor r'
  | _ => true
  end.

(** [type_pattern] after the name of its comment line. *)
Definition type_tail : regex :=
  (Lit (T " ..." ++ [nl]) @@ Lit header
   @@ Alt (Lit (T "pub struct")) (Lit (T "pub enum"))
   @@ Rep true 1 is_space @@ Rep true 1 is_word
   @@ Rep false 0 any_char @@ Lit footer)%re.

(** [type_pattern] up to the first name after the keyword. *)
Definition type_head : regex :=
  (Lit ([nl; nl] ++ T "// ") @@ Grp 2 (Rep true 1 is_word)
   @@ Lit (T " ..." ++ [nl]) @@ Lit header
   @@ Alt (Lit (T "pub struct")) (Lit (T "pub enum"))
   @@ Rep true 1 is_space @@ Rep true 1 is_word)%re.

(** ** The printed summary of the violations *)

(** [// (\w+) \.\.\.] of [print_summary]. *)
Definition summary_pattern : regex :=
  (Lit (T "// ") @@ Grp 1 (Rep true 1 is_word) @@ Lit (T " ..."))%re.

(** [re.search(r'// (\w+) \.\.\.', match.content).group(1)]; [None]
    stands for the [AttributeError] of [None.group(1)]. *)
Definition printed_name (m : StructMatch) : option text :=
  match search summary_pattern (content m) with
  | Some r => group 1 r
  | None => None
  end.

(** The dictionary [by_file] after the loop over [lowercase_matches]. *)
Fixpoint by_file (lowercase : list StructMatch) (acc : list (string * list text))
  : option (list (string * list text)) :=
  match lowercase with
  | [] => Some acc
  | m :: ms =>
      match printed_name m with
      | Some type_name =>
          by_file ms (dict_append String.eqb (filename m) type_name acc)
      | None => None
      end
  end.

(** File names compare as strings do, by code point. *)
Definition string_leb (a b : string) : bool := text_leb (T a) (T b).

(** ["-" * 40] *)
Definition rule : text := repeat "-"%char 40.

(** The lines printed by the loop over [sorted(by_file.items())]; the
    keys are distinct, so the items are ordered by file name. *)
Definition violation_lines (bf : list (string * list text)) : list text :=
  flat_map
    (fun e => (T (fst e) ++ T ":")
              :: map (fun type_name => T "  - " ++ type_name)
                   (sort_by text_leb (snd e)))
    (sort_by (fun a b => string_leb (fst a) (fst b)) bf).

(** What the first part of [print_summary] prints, line by line; [None]
    when it raises. *)
Definition lowercase_report (lowercase : list StructMatch) : option (list text) :=
  match lowercase with
  | [] => Some []
  | _ :: _ =>
      match by_file lowercase [] with
      | Some bf =>
          Some ([[]; T "Lowercase types to be removed:"; rule]
                ++ violation_lines bf ++ [[]])
      | None => None
      end
  end.

(** What [generate_common_file] reads of an index entry: the name and the
    stored text of the first occurrence. *)
Definition first_content (e : text * list StructMatch) : text * option text :=
  (fst e, option_map content (hd_error (snd e))).




(** The field line [foo: Bar,] and a declaration of [Bar] under the
    comment line of [Qux]. *)
Definition qux_rs : text :=
  T "pub struct S {" ++ [nl; tab] ++ field_line ++ [nl] ++ T "}"
  ++ [nl; nl] ++ T "// Qux ..." ++ [nl] ++ header
  ++ T "pub enum Bar {" ++ [nl] ++ T "}" ++ [nl; nl]
  ++ T "impl Bar {" ++ [nl; tab]
  ++ T "pub fn validate(&self) -> Result<(), ValidationError> {" ++ [nl]
  ++ footer.

Definition qux_dir : directory := [("a.rs"%string, qux_rs)].

(** Two declarations with a single newline between the closing idiom of
    the first and the comment line of the second. *)
Definition adjacent_rs : text :=
  decl "pub struct" "Foo" "" ++ [nl] ++ block "pub struct" "Bar" "".

(** * Properties *)

Unset Implicit Arguments.

(** ** The matcher *)

Lemma steps_refl (st : mstate) : steps st st [].
Proof.
  unfold steps. simpl. repeat split; try lia.
  - rewrite <- (map_id (opened st)) at 1. apply map_ext.
    intros [n acc]. reflexivity.
  - exists []. reflexivity.
Qed.

Lemma steps_advance (c : ascii) (l : text) (st st' : mstate) (c0 : text) :
  rest st = c :: l -> steps (advance c l st) st' c0 -> steps st st' (c :: c0).
Proof.
  intros Hl (E1 & E2 & E3 & E4). simpl in *. unfold steps.
  split; [rewrite Hl, E1; reflexivity|]. split; [simpl; lia|].
  split; [|exact E4].
  rewrite E3, map_map. apply map_ext. intros [n acc]. unfold push. simpl.
  rewrite <- app_assoc. reflexivity.
Qed.

Lemma steps_trans (st st1 st2 : mstate) (c1 c2 : text) :
  steps st st1 c1 -> steps st1 st2 c2 -> steps st st2 (c1 ++ c2).
Proof.
  intros (E1 & E2 & E3 & new1 & E4) (F1 & F2 & F3 & new2 & F4). unfold steps.
  split; [rewrite <- app_assoc; congruence|].
  split; [rewrite length_app; lia|]. split.
  - rewrite F3, E3, map_map. apply map_ext. intros [n acc]. unfold push. simpl.
    rewrite rev_app_distr, <- app_assoc. reflexivity.
  - exists (new2 ++ new1). rewrite F4, E4, app_assoc. reflexivity.
Qed.

(** A group that was opened before [c] and is closed after it has
    captured [c]. *)
Lemma steps_open_close (n : nat) (st st' : mstate) (c : text) :
  steps (open_group n st) st' c ->
  steps st (close_group st') c
  /\ exists new, caps (close_group st') = (n, c) :: new ++ caps st.
Proof.
  intros (E1 & E2 & E3 & new & E4). simpl in *.
  unfold close_group, steps. rewrite E3. simpl.
  rewrite app_nil_r, rev_involutive.
  split; [|exists new; rewrite E4; reflexivity].
  split; [assumption|]. split; [assumption|]. split; [reflexivity|].
  exists ((n, c) :: new). rewrite E4. reflexivity.
Qed.

Lemma lit_trace (s l : text) (st st' : mstate) :
  lit s l st = Some st' -> rest st = l -> steps st st' s.
Proof.
  revert l st. induction s as [|c s IH]; intros l st H Hl; simpl in H.
  - inversion H; subst. apply steps_refl.
  - destruct l as [|d l']; [discriminate|].
    destruct (Ascii.eqb c d) eqn:E; [|discriminate].
    apply Ascii.eqb_eq in E; subst d.
    apply IH in H; [|reflexivity].
    eapply steps_advance; eassumption.
Qed.

Lemma rep_stop_trace (A : Type) (cls : ascii -> bool) (k : mstate -> option A)
      (least : nat) (st : mstate) (a : A) :
  match least with 0 => k st | S _ => None end = Some a ->
  exists c st',
    steps st st' c /\ least <= length c
    /\ Forall (fun x => cls x = true) c /\ k st' = Some a.
Proof.
  intros H. destruct least; [|discriminate].
  exists [], st. split; [apply steps_refl|]. simpl. repeat split; auto.
Qed.

Lemma rep_trace (A : Type) (g : bool) (cls : ascii -> bool)
      (k : mstate -> option A) (l : text) :
  forall (least : nat) (st : mstate) (a : A),
    rep g cls k least l st = Some a -> rest st = l ->
    exists c st',
      steps st st' c /\ least <= length c
      /\ Forall (fun x => cls x = true) c /\ k st' = Some a.
Proof.
  induction l as [|c l IH]; intros least st a H Hl.
  - simpl in H. eapply rep_stop_trace; eassumption.
  - assert (Hmore : rep g cls k (pred least) l (advance c l st) = Some a ->
                    cls c = true ->
                    exists c0 st',
                      steps st st' c0 /\ least <= length c0
                      /\ Forall (fun x => cls x = true) c0 /\ k st' = Some a).
    { intros Hr Hc. apply IH in Hr; [|reflexivity].
      destruct Hr as (c0 & st' & E1 & E2 & E3 & E4).
      exists (c :: c0), st'. split; [eapply steps_advance; eassumption|].
      simpl. repeat split; auto. lia. }
    simpl in H. destruct (cls c) eqn:Hc; [|eapply rep_stop_trace; eassumption].
    destruct g.
    + destruct (rep true cls k (pred least) l (advance c l st)) eqn:Hr.
      * inversion H; subst. auto.
      * eapply rep_stop_trace; eassumption.
    + destruct (match least with 0 => k st | S _ => None end) eqn:Hs.
      * inversion H; subst. eapply rep_stop_trace; eassumption.
      * auto.
Qed.

(** A successful run has consumed a string of the pattern's language and
    handed the state it reached to the continuation. *)
Lemma run_trace (A : Type) (r : regex) :
  forall (st : mstate) (k : mstate -> option A) (a : A),
    run r st k = Some a ->
    exists c st', steps st st' c /\ lang r c /\ k st' = Some a.
Proof.
  induction r as [|s|g least cls|r1 IH1 r2 IH2|r1 IH1 r2 IH2|n r IH| |];
    intros st k a H; simpl in H.
  - exists [], st. split; [apply steps_refl|]. simpl. auto.
  - destruct (lit s (rest st) st) as [st'|] eqn:E; [|discriminate].
    apply lit_trace in E; [|reflexivity].
    exists s, st'. simpl. auto.
  - apply rep_trace in H; [|reflexivity].
    destruct H as (c & st' & E1 & E2 & E3 & E4).
    exists c, st'. simpl. auto.
  - apply IH1 in H. destruct H as (c1 & st1 & E1 & E2 & H).
    apply IH2 in H. destruct H as (c2 & st2 & F1 & F2 & H).
    exists (c1 ++ c2), st2. split; [eapply steps_trans; eassumption|].
    split; [|assumption]. simpl. exists c1, c2. auto.
  - destruct (run r1 st k) eqn:E.
    + inversion H; subst. apply IH1 in E.
      destruct E as (c & st' & E1 & E2 & E3).
      exists c, st'. simpl. auto.
    + apply IH2 in H. destruct H as (c & st' & E1 & E2 & E3).
      exists c, st'. simpl. auto.
  - apply IH in H. destruct H as (c & st' & E1 & E2 & E3).
    exists c, (close_group st'). apply steps_open_close in E1.
    simpl. tauto.
  - exists [], st. split; [apply steps_refl|]. simpl. split; auto.
    destruct (prev st); auto. destruct (Ascii.eqb a0 nl); [auto|discriminate].
  - exists [], st. split; [apply steps_refl|]. simpl. split; auto.
    destruct (rest st) as [|c [|d l]]; auto; [|discriminate].
    destruct (Ascii.eqb c nl); [auto|discriminate].
Qed.

Lemma run_sound (A : Type) (r : regex) :
  forall (st : mstate) (k : mstate -> option A) (a : A),
    run r st k = Some a ->
    exists c st',
      rest st = c ++ rest st' /\ used st' = used st + length c /\
      lang r c /\ k st' = Some a.
Proof.
  intros st k a H. apply run_trace in H.
  destruct H as (c & st' & (E1 & E2 & _) & E3 & E4).
  exists c, st'. auto.
Qed.

(** An attempt with a pattern that is one group reports the text it
    matched as that group. *)
Lemma match_at_group (n : nat) (r : regex) (p : option ascii) (s : text)
      (len : nat) (gs : list (nat * text)) :
  match_at (Grp n r) p s = Some (len, gs) ->
  exists c b,
    s = c ++ b /\ len = length c /\ lang r c /\ group_lookup n gs = Some c.
Proof.
  unfold match_at. cbn [run]. intros H. apply run_trace in H.
  destruct H as (c & st' & Hs & Hl & Hk).
  apply steps_open_close in Hs. destruct Hs as [(E1 & E2 & _) (new & Ec)].
  simpl in E1, E2. inversion Hk; subst len gs.
  exists c, (rest (close_group st')). repeat split; auto.
  rewrite Ec. simpl. rewrite Nat.eqb_refl. reflexivity.
Qed.

Lemma match_at_sound (r : regex) (p : option ascii) (s : text) (len : nat)
      (gs : list (nat * text)) :
  match_at r p s = Some (len, gs) ->
  exists c b, s = c ++ b /\ len = length c /\ lang r c.
Proof.
  unfold match_at. intros H. apply run_sound in H.
  destruct H as (c & st' & E1 & E2 & E3 & E4). simpl in *.
  inversion E4; subst. exists c, (rest st'). auto.
Qed.

(** Every match of [finditer] is a successful attempt at its offset, at
    or after the point the search resumed from. *)
Lemma finditer_from_attempt (r : regex) (s : text) :
  forall (p : option ascii) (pos skip : nat) (m : re_match),
    In m (finditer_from r p pos skip s) ->
    exists a b q len,
      s = a ++ b /\ skip <= length a
      /\ m_start m = pos + length a /\ m_end m = m_start m + len
      /\ match_at r q b = Some (len, m_groups m).
Proof.
  induction s as [|x s IH]; intros p pos skip m H.
  - destruct skip; simpl in H; [|contradiction].
    destruct (match_at r p []) as [[len gs]|] eqn:E; [|contradiction].
    destruct H as [H|[]]. subst m. simpl.
    exists [], [], p, len. simpl. repeat split; auto; lia.
  - assert (Hnext : forall q k, In m (finditer_from r q (S pos) k s) ->
                exists a b q' len,
                  x :: s = a ++ b /\ S k <= length a
                  /\ m_start m = pos + length a /\ m_end m = m_start m + len
                  /\ match_at r q' b = Some (len, m_groups m)).
    { intros q k Hin. apply IH in Hin.
      destruct Hin as (a & b & q' & len & E1 & E2 & E3 & E4 & E5).
      exists (x :: a), b, q', len. simpl. repeat split; auto; try lia.
      congruence. }
    destruct skip as [|skip']; simpl in H.
    + destruct (match_at r p (x :: s)) as [[len gs]|] eqn:E.
      * destruct H as [H|H].
        -- subst m. simpl.
           exists [], (x :: s), p, len. simpl. repeat split; auto; lia.
        -- apply Hnext in H.
           destruct H as (a & b & q' & len' & E1 & E2 & E3 & E4 & E5).
           exists a, b, q', len'. repeat split; auto; lia.
      * apply Hnext in H.
        destruct H as (a & b & q' & len' & E1 & E2 & E3 & E4 & E5).
        exists a, b, q', len'. repeat split; auto; lia.
    + apply Hnext in H.
      destruct H as (a & b & q' & len' & E1 & E2 & E3 & E4 & E5).
      exists a, b, q', len'. repeat split; auto; lia.
Qed.

(** Every match of [finditer] is a string of the pattern's language found
    at its offsets, at or after the point the search resumed from. *)
Lemma finditer_from_sound (r : regex) (s : text) :
  forall (p : option ascii) (pos skip : nat) (m : re_match),
    In m (finditer_from r p pos skip s) ->
    exists a c b,
      s = a ++ c ++ b /\ skip <= length a /\
      m_start m = pos + length a /\ m_end m = m_start m + length c /\ lang r c.
Proof.
  intros p pos skip m H. apply finditer_from_attempt in H.
  destruct H as (a & b & q & len & E1 & E2 & E3 & E4 & E5).
  apply match_at_sound in E5. destruct E5 as (c & b' & F1 & F2 & F3).
  exists a, c, b'. subst. auto.
Qed.

Lemma finditer_sound (r : regex) (s : text) (m : re_match) :
  In m (finditer r s) ->
  exists a c b,
    s = a ++ c ++ b /\ m_start m = length a /\
    m_end m = length a + length c /\ lang r c.
Proof.
  intros H. apply finditer_from_sound in H.
  destruct H as (a & c & b & E1 & _ & E3 & E4 & E5).
  exists a, c, b. simpl in *. repeat split; auto; lia.
Qed.

(** Matches of a pattern whose language has no empty string follow one
    another without overlap. *)
Lemma finditer_from_ascending (r : regex) (s : text) :
  (forall c, lang r c -> 0 < length c) ->
  forall (p : option ascii) (pos skip : nat),
    ascending (pos + skip) (pos + length s)
      (map span_of_match (finditer_from r p pos skip s)).
Proof.
  intros Hne. induction s as [|x s IH]; intros p pos skip.
  - destruct skip; simpl; auto.
    destruct (match_at r p []) as [[len gs]|] eqn:E; simpl; auto.
    apply match_at_sound in E. destruct E as (c & b & E1 & E2 & E3).
    apply Hne in E3. destruct c; [simpl in E3; lia | discriminate].
  - assert (Hmono : forall lo lo' hi ps, lo' <= lo -> ascending lo hi ps ->
                                    ascending lo' hi ps).
    { intros lo lo' hi ps Hl Ha. destruct ps; simpl in *; auto.
      destruct Ha as (A1 & A2 & A3 & A4). repeat split; auto; lia. }
    destruct skip as [|skip']; simpl.
    + destruct (match_at r p (x :: s)) as [[len gs]|] eqn:E; simpl.
      * apply match_at_sound in E. destruct E as (c & b & E1 & E2 & E3).
        pose proof (Hne _ E3) as Hpos.
        assert (Hlen : len <= S (length s)).
        { apply (f_equal (@length ascii)) in E1. rewrite length_app in E1.
          simpl in E1. lia. }
        repeat split; try lia.
        eapply Hmono; [|replace (pos + S (length s)) with (S pos + length s) by lia; apply IH].
        lia.
      * eapply Hmono; [|replace (pos + S (length s)) with (S pos + length s) by lia; apply IH].
        lia.
    + eapply Hmono; [|replace (pos + S (length s)) with (S pos + length s) by lia; apply IH].
      lia.
Qed.

(** ** The declaration pattern *)

Lemma type_pattern_lang (c : text) :
  lang type_pattern c -> exists t, c = [nl; nl] ++ T "// " ++ t.
Proof.
  simpl. intros (c1 & c2 & E & E1 & _). subst c c1. exists c2. reflexivity.
Qed.

Lemma type_pattern_nonempty (c : text) : lang type_pattern c -> 0 < length c.
Proof.
  intros H. apply type_pattern_lang in H. destruct H as [t E]. subst c.
  simpl. lia.
Qed.

Lemma type_spans_ascending (s : text) : ascending 0 (length s) (type_spans s).
Proof.
  unfold type_spans, finditer.
  apply (finditer_from_ascending type_pattern s type_pattern_nonempty None 0 0).
Qed.

(** ** Lists of spans *)

Lemma ascending_weaken (lo lo' hi : nat) (ps : list span) :
  lo' <= lo -> ascending lo hi ps -> ascending lo' hi ps.
Proof.
  intros Hl Ha. destruct ps; simpl in *; auto.
  destruct Ha as (A1 & A2 & A3 & A4). repeat split; auto; lia.
Qed.

Lemma ascending_bounds (lo hi : nat) (ps : list span) :
  ascending lo hi ps ->
  forall p, In p ps -> lo <= fst p /\ fst p < snd p /\ snd p <= hi.
Proof.
  revert lo. induction ps as [|q ps IH]; intros lo Ha p Hin; [contradiction|].
  destruct Ha as (A1 & A2 & A3 & A4). destruct Hin as [->|Hin]; [lia|].
  destruct (IH _ A4 _ Hin) as (B1 & B2 & B3). lia.
Qed.

Lemma ascending_pairwise (lo hi : nat) (ps : list span) :
  ascending lo hi ps -> pairwise_disjoint ps.
Proof.
  revert lo. induction ps as [|a ps IH]; intros lo Ha p q Hp Hq; [contradiction|].
  destruct Ha as (A1 & A2 & A3 & A4).
  pose proof (ascending_bounds _ _ _ A4) as Hb.
  destruct Hp as [->|Hp], Hq as [->|Hq].
  - left; reflexivity.
  - right; left. destruct (Hb _ Hq); lia.
  - right; right. destruct (Hb _ Hp); lia.
  - eapply IH; eassumption.
Qed.

Lemma ascending_NoDup (lo hi : nat) (ps : list span) :
  ascending lo hi ps -> NoDup ps.
Proof.
  revert lo. induction ps as [|a ps IH]; intros lo Ha; constructor.
  - destruct Ha as (A1 & A2 & A3 & A4). intros Hin.
    destruct (ascending_bounds _ _ _ A4 _ Hin). lia.
  - destruct Ha as (A1 & A2 & A3 & A4). eapply IH; eassumption.
Qed.

Lemma descending_bounds (hi : nat) (ps : list span) :
  descending hi ps -> forall p, In p ps -> fst p < snd p /\ snd p <= hi.
Proof.
  revert hi. induction ps as [|q ps IH]; intros hi Hd p Hin; [contradiction|].
  destruct Hd as (D1 & D2 & D3). destruct Hin as [->|Hin]; [lia|].
  destruct (IH _ D3 _ Hin). lia.
Qed.

(** ** Sorting *)

Section SortFacts.
Variables (X : Type) (leb : X -> X -> bool).
Hypothesis leb_total : forall a b, leb a b = false -> leb b a = true.
Hypothesis leb_trans : forall a b c, leb a b = true -> leb b c = true -> leb a c = true.
Hypothesis leb_antisym : forall a b, leb a b = true -> leb b a = true -> a = b.

Lemma insert_sorted_perm (x : X) (l : list X) :
  Permutation (insert_sorted leb x l) (x :: l).
Proof.
  induction l as [|y l IH]; simpl; auto.
  destruct (leb x y); auto.
  rewrite IH. apply perm_swap.
Qed.

Lemma sort_by_perm (l : list X) : Permutation (sort_by leb l) l.
Proof.
  induction l as [|x l IH]; simpl; auto.
  rewrite insert_sorted_perm. auto.
Qed.

Lemma insert_sorted_sorted (x : X) (l : list X) :
  sorted leb l -> sorted leb (insert_sorted leb x l).
Proof.
  induction 1 as [|y l Hy Hs IH]; simpl.
  - repeat constructor.
  - destruct (leb x y) eqn:E.
    + constructor; [|constructor; auto].
      constructor; auto.
      eapply Forall_impl; [|exact Hy]. intros b Hb. eapply leb_trans; eauto.
    + constructor; auto.
      eapply Permutation_Forall; [symmetry; apply insert_sorted_perm|].
      constructor; auto.
Qed.

Lemma sort_by_sorted (l : list X) : sorted leb (sort_by leb l).
Proof.
  induction l as [|x l IH]; simpl; [constructor|].
  apply insert_sorted_sorted; assumption.
Qed.

Lemma sorted_perm_eq (l l' : list X) :
  sorted leb l -> sorted leb l' -> Permutation l l' -> l = l'.
Proof.
  intros Hs. revert l'. induction Hs as [|a l Ha Hs IH]; intros l' Hs' Hp.
  - apply Permutation_nil in Hp. auto.
  - destruct Hs' as [|b l' Hb Hs'].
    + symmetry in Hp. apply Permutation_nil in Hp. discriminate.
    + assert (a = b).
      { assert (Hin : In a (b :: l')) by (eapply Permutation_in; [exact Hp|left; auto]).
        assert (Hin' : In b (a :: l)) by (eapply Permutation_in; [symmetry; exact Hp|left; auto]).
        destruct Hin as [|Hin]; [auto|]. destruct Hin' as [|Hin']; [auto|].
        rewrite Forall_forall in Ha, Hb. apply leb_antisym; auto. }
      subst b. f_equal. apply IH; auto.
      eapply Permutation_cons_inv; eassumption.
Qed.

(** The sorted list does not depend on the order of the input. *)
Lemma sort_by_canonical (l l' : list X) :
  Permutation l l' -> sort_by leb l = sort_by leb l'.
Proof.
  intros Hp. apply sorted_perm_eq; try apply sort_by_sorted.
  rewrite !sort_by_perm. assumption.
Qed.
End SortFacts.

Lemma span_geb_total (a b : span) : span_geb a b = false -> span_geb b a = true.
Proof.
  unfold span_geb. destruct a as [a1 a2], b as [b1 b2]; simpl.
  destruct (b1 <? a1) eqn:E1; [discriminate|].
  destruct (a1 <? b1) eqn:E2; [reflexivity|].
  rewrite Nat.leb_gt, Nat.leb_le. lia.
Qed.

Lemma span_geb_spec (a b : span) :
  span_geb a b = true <-> fst b < fst a \/ (fst a = fst b /\ snd b <= snd a).
Proof.
  unfold span_geb. destruct (fst b <? fst a) eqn:E1.
  - apply Nat.ltb_lt in E1. intuition.
  - apply Nat.ltb_ge in E1. destruct (fst a <? fst b) eqn:E2.
    + apply Nat.ltb_lt in E2. split; [discriminate|lia].
    + apply Nat.ltb_ge in E2. rewrite Nat.leb_le. lia.
Qed.

Lemma span_geb_trans (a b c : span) :
  span_geb a b = true -> span_geb b c = true -> span_geb a c = true.
Proof. rewrite !span_geb_spec. lia. Qed.

Lemma span_geb_antisym (a b : span) :
  span_geb a b = true -> span_geb b a = true -> a = b.
Proof.
  rewrite !span_geb_spec. destruct a, b; simpl. intros H1 H2.
  f_equal; lia.
Qed.

Lemma sort_reverse_perm (ps : list span) : Permutation (sort_reverse ps) ps.
Proof. apply sort_by_perm. Qed.

Lemma sort_reverse_canonical (ps ps' : list span) :
  Permutation ps ps' -> sort_reverse ps = sort_reverse ps'.
Proof.
  apply sort_by_canonical.
  - apply span_geb_total.
  - apply span_geb_trans.
  - apply span_geb_antisym.
Qed.

Lemma sorted_descending (hi : nat) (l : list span) :
  sorted span_geb l -> NoDup l ->
  (forall p, In p l -> fst p < snd p /\ snd p <= hi) ->
  pairwise_disjoint l -> descending hi l.
Proof.
  intros Hs. revert hi. induction Hs as [|a l Ha Hs IH]; intros hi Hn Hb Hd; simpl; auto.
  inversion Hn as [|? ? Hnotin Hn']; subst.
  destruct (Hb a (or_introl eq_refl)) as [B1 B2].
  repeat split; auto.
  apply IH; auto.
  - intros p Hp. destruct (Hb p (or_intror Hp)) as [C1 C2]. split; auto.
    rewrite Forall_forall in Ha. specialize (Ha p Hp).
    apply span_geb_spec in Ha.
    destruct (Hd a p (or_introl eq_refl) (or_intror Hp)) as [E|[E|E]].
    + subst p. contradiction.
    + lia.
    + lia.
  - intros p q Hp Hq. apply Hd; right; assumption.
Qed.

(** A selection of matched spans, without repetition and in any order,
    is in descending order once sorted. *)
Lemma selection_descending (lo hi : nat) (spans ps : list span) :
  ascending lo hi spans -> NoDup ps -> incl ps spans ->
  descending hi (sort_reverse ps).
Proof.
  intros Ha Hn Hi.
  pose proof (sort_reverse_perm ps) as Hp.
  apply sorted_descending.
  - apply sort_by_sorted; [apply span_geb_total | apply span_geb_trans].
  - eapply Permutation_NoDup; [symmetry; exact Hp | exact Hn].
  - intros p Hin. apply (Permutation_in _ Hp) in Hin. apply Hi in Hin.
    destruct (ascending_bounds _ _ _ Ha _ Hin). lia.
  - intros p q Hp' Hq'. apply (ascending_pairwise _ _ _ Ha).
    + apply Hi. eapply Permutation_in; eassumption.
    + apply Hi. eapply Permutation_in; eassumption.
Qed.

(** ** Deleting spans *)

Lemma delete_span_app (x y : text) (p : span) :
  fst p <= snd p -> snd p <= length x ->
  delete_span (x ++ y) p = delete_span x p ++ y.
Proof.
  intros H1 H2. unfold delete_span, splice.
  rewrite firstn_app, skipn_app.
  replace (fst p - length x) with 0 by lia.
  replace (snd p - length x) with 0 by lia.
  simpl. rewrite app_nil_r, app_assoc. reflexivity.
Qed.

Lemma delete_span_length (x : text) (p : span) :
  fst p <= snd p -> snd p <= length x ->
  length (delete_span x p) + span_len p = length x.
Proof.
  intros H1 H2. unfold delete_span, splice, span_len.
  rewrite length_app, length_firstn, length_skipn. lia.
Qed.

Lemma fold_delete_app (ps : list span) :
  forall (hi : nat) (x y : text),
    descending hi ps -> hi <= length x ->
    fold_left delete_span ps (x ++ y) = fold_left delete_span ps x ++ y.
Proof.
  induction ps as [|p ps IH]; intros hi x y Hd Hh; simpl; auto.
  destruct Hd as (D1 & D2 & D3).
  rewrite delete_span_app by lia.
  apply (IH (fst p)); auto.
  pose proof (delete_span_length x p). unfold span_len in *. lia.
Qed.

Lemma fold_delete_prefix (ps : list span) (x : text) (p : span) :
  fst p < snd p -> snd p <= length x -> descending (fst p) ps ->
  fold_left delete_span ps (delete_span x p)
  = fold_left delete_span ps (firstn (fst p) x) ++ skipn (snd p) x.
Proof.
  intros H1 H2 Hd. unfold delete_span at 2. unfold splice.
  apply fold_delete_app with (hi := fst p); auto.
  rewrite length_firstn. lia.
Qed.

(** Deleting non-overlapping spans from the last to the first shortens
    the text by their total length. *)
Lemma fold_delete_length (ps : list span) :
  forall (hi : nat) (x : text),
    descending hi ps -> hi <= length x ->
    length (fold_left delete_span ps x) + total_len ps = length x.
Proof.
  induction ps as [|p ps IH]; intros hi x Hd Hh; simpl; [lia|].
  destruct Hd as (D1 & D2 & D3).
  rewrite fold_delete_prefix by (auto; lia).
  rewrite length_app, length_skipn.
  assert (Hf : length (firstn (fst p) x) = fst p) by (rewrite length_firstn; lia).
  pose proof (IH (fst p) (firstn (fst p) x) D3) as H.
  rewrite Hf in H. specialize (H (le_n _)).
  unfold span_len. lia.
Qed.

Lemma keep_outside_from_app (ps : list span) (a b : text) :
  forall i, keep_outside_from i (a ++ b) ps
       = keep_outside_from i a ps ++ keep_outside_from (i + length a) b ps.
Proof.
  induction a as [|c a IH]; intros i; simpl.
  - f_equal. lia.
  - rewrite IH. replace (S i + length a) with (i + S (length a)) by lia.
    destruct (existsb (inside i) ps); reflexivity.
Qed.

Lemma keep_outside_from_ext (ps ps' : list span) (a : text) :
  forall i,
    (forall j, i <= j < i + length a ->
          existsb (inside j) ps = existsb (inside j) ps') ->
    keep_outside_from i a ps = keep_outside_from i a ps'.
Proof.
  induction a as [|c a IH]; intros i H; simpl; auto.
  rewrite (H i) by (simpl; lia).
  rewrite (IH (S i)); auto.
  intros j Hj. apply H. simpl. lia.
Qed.

Lemma keep_outside_from_all (ps : list span) (a : text) :
  forall i,
    (forall j, i <= j < i + length a -> existsb (inside j) ps = true) ->
    keep_outside_from i a ps = [].
Proof.
  induction a as [|c a IH]; intros i H; simpl; auto.
  rewrite (H i) by (simpl; lia).
  apply IH. intros j Hj. apply H. simpl. lia.
Qed.

Lemma keep_outside_from_none (ps : list span) (a : text) :
  forall i,
    (forall j, i <= j < i + length a -> existsb (inside j) ps = false) ->
    keep_outside_from i a ps = a.
Proof.
  induction a as [|c a IH]; intros i H; simpl; auto.
  rewrite (H i) by (simpl; lia).
  f_equal. apply IH. intros j Hj. apply H. simpl. lia.
Qed.

Lemma existsb_inside_false (j : nat) (ps : list span) :
  (forall q, In q ps -> snd q <= j) -> existsb (inside j) ps = false.
Proof.
  intros H. apply not_true_is_false. intros E.
  apply existsb_exists in E. destruct E as (q & Hq & E).
  unfold inside in E. apply andb_prop in E. destruct E as [_ E].
  apply Nat.ltb_lt in E. specialize (H q Hq). lia.
Qed.

(** Deleting non-overlapping spans from the last to the first leaves
    exactly the characters outside the spans. *)
Lemma fold_delete_keep (ps : list span) :
  forall (hi : nat) (x : text),
    descending hi ps -> hi <= length x ->
    fold_left delete_span ps x = keep_outside x ps.
Proof.
  induction ps as [|p ps IH]; intros hi x Hd Hh.
  - simpl. unfold keep_outside. symmetry. apply keep_outside_from_none.
    reflexivity.
  - destruct Hd as (D1 & D2 & D3). simpl.
    rewrite fold_delete_prefix by (auto; lia).
    assert (Hf : length (firstn (fst p) x) = fst p) by (rewrite length_firstn; lia).
    rewrite (IH (fst p)) by (auto; lia).
    unfold keep_outside.
    assert (Hx : x = firstn (fst p) x
                     ++ firstn (snd p - fst p) (skipn (fst p) x) ++ skipn (snd p) x).
    { rewrite <- (firstn_skipn (fst p) x) at 1. f_equal.
      rewrite <- (firstn_skipn (snd p - fst p) (skipn (fst p) x)) at 1. f_equal.
      rewrite skipn_skipn. f_equal. lia. }
    rewrite Hx at 3.
    rewrite !keep_outside_from_app. simpl. rewrite Hf.
    pose proof (descending_bounds _ _ D3) as Hb.
    f_equal.
    + apply keep_outside_from_ext. intros j Hj. rewrite Hf in Hj. simpl.
      assert (E : inside j p = false).
      { unfold inside. apply andb_false_iff. left. apply Nat.leb_gt. lia. }
      rewrite E. reflexivity.
    + rewrite keep_outside_from_all.
      * simpl. symmetry. apply keep_outside_from_none. intros j Hj. simpl.
        rewrite length_firstn, length_skipn in Hj.
        assert (E : inside j p = false).
        { unfold inside. apply andb_false_iff. right. apply Nat.ltb_ge. lia. }
        rewrite E. simpl. apply existsb_inside_false.
        intros q Hq. destruct (Hb q Hq). lia.
      * intros j Hj. rewrite length_firstn, length_skipn in Hj. simpl.
        assert (E : inside j p = true).
        { unfold inside. apply andb_true_iff. split;
            [apply Nat.leb_le | apply Nat.ltb_lt]; lia. }
        rewrite E. reflexivity.
Qed.

Lemma keep_outside_perm (x : text) (ps ps' : list span) :
  Permutation ps ps' -> keep_outside x ps = keep_outside x ps'.
Proof.
  intros Hp. unfold keep_outside. apply keep_outside_from_ext. intros j _.
  apply eq_true_iff_eq. rewrite !existsb_exists.
  split; intros (q & Hq & E); exists q; split; auto;
    eapply Permutation_in; try eassumption. symmetry; assumption.
Qed.

Lemma total_len_perm (ps ps' : list span) :
  Permutation ps ps' -> total_len ps = total_len ps'.
Proof.
  induction 1; simpl; lia.
Qed.

(** ** Strings *)

Lemma text_eqb_eq (a b : text) : text_eqb a b = true <-> a = b.
Proof.
  revert b. induction a as [|x a IH]; destruct b as [|y b]; simpl;
    try (split; [discriminate | discriminate]); try tauto.
  rewrite andb_true_iff, Ascii.eqb_eq, IH. split.
  - intros [-> ->]; reflexivity.
  - intros E; inversion E; auto.
Qed.

Lemma text_eqb_refl (a : text) : text_eqb a a = true.
Proof. apply text_eqb_eq. reflexivity. Qed.

Lemma text_eqb_neq (a b : text) : text_eqb a b = false <-> a <> b.
Proof.
  rewrite <- text_eqb_eq. destruct (text_eqb a b); split; congruence.
Qed.

Lemma text_eqb_length (a b : text) : length a <> length b -> text_eqb a b = false.
Proof.
  intros H. apply text_eqb_neq. intros ->. apply H. reflexivity.
Qed.

(** ** The catalog *)

Section DictAppend.
Variables (K E : Type) (keq : K -> K -> bool).
Hypothesis keq_eq : forall a b, keq a b = true <-> a = b.

Lemma dict_append_values (k : K) (v : E) (d : list (K * list E)) :
  Permutation (flat_map snd (dict_append keq k v d)) (flat_map snd d ++ [v]).
Proof.
  induction d as [|[k' vs] d IH]; simpl; auto.
  destruct (keq k k'); simpl.
  - rewrite <- !app_assoc. apply Permutation_app_head.
    apply Permutation_app_comm.
  - rewrite IH. rewrite app_assoc. reflexivity.
Qed.

Lemma dict_append_keys (k : K) (v : E) (d : list (K * list E)) :
  map fst (dict_append keq k v d)
  = if existsb (keq k) (map fst d) then map fst d else map fst d ++ [k].
Proof.
  induction d as [|[k' vs] d IH]; simpl; auto.
  destruct (keq k k'); simpl; auto.
  rewrite IH. destruct (existsb (keq k) (map fst d)); reflexivity.
Qed.

Lemma dict_append_get (k : K) (v : E) (d : list (K * list E)) (j : K) :
  dict_get keq j (dict_append keq k v d)
  = if keq j k then
      Some (match dict_get keq j d with Some vs => vs ++ [v] | None => [v] end)
    else dict_get keq j d.
Proof.
  induction d as [|[k' vs] d IH]; simpl.
  - destruct (keq j k); reflexivity.
  - destruct (keq k k') eqn:Ek; simpl.
    + apply keq_eq in Ek. subst k'. destruct (keq j k); reflexivity.
    + rewrite IH. destruct (keq j k') eqn:E'; auto.
      destruct (keq j k) eqn:E''; auto.
      apply keq_eq in E', E''. subst. rewrite (proj2 (keq_eq k' k')) in Ek by reflexivity.
      discriminate.
Qed.

Lemma dict_append_NoDup (k : K) (v : E) (d : list (K * list E)) :
  NoDup (map fst d) -> NoDup (map fst (dict_append keq k v d)).
Proof.
  intros Hn. rewrite dict_append_keys.
  destruct (existsb (keq k) (map fst d)) eqn:Ex; auto.
  apply NoDup_app; auto.
  - repeat constructor. intros [].
  - intros x Hx [Hk|[]]. subst x.
    assert (existsb (keq k) (map fst d) = true); [|congruence].
    apply existsb_exists. exists k. split; auto. apply keq_eq. reflexivity.
Qed.

Lemma dict_append_In (k : K) (v : E) (d : list (K * list E)) (j : K) (vs : list E) :
  In (j, vs) (dict_append keq k v d) ->
  In (j, vs) d \/ (j = k /\ exists vs', vs = vs' ++ [v] /\ (vs' = [] \/ In (k, vs') d)).
Proof.
  induction d as [|[k' ws] d IH]; simpl.
  - intros [H|[]]. inversion H; subst. right. split; auto. exists []. auto.
  - destruct (keq k k') eqn:Ek; simpl.
    + apply keq_eq in Ek. subst k'. intros [H|H]; auto.
      inversion H; subst. right. split; auto. exists ws. auto.
    + intros [H|H]; auto. apply IH in H.
      destruct H as [H|(-> & vs' & -> & [->|H])]; auto.
      * right. split; auto. exists []. auto.
      * right. split; auto. exists vs'. auto.
Qed.

Lemma fold_add_values (os : list (K * E)) :
  forall d, Permutation (flat_map snd (fold_left (pair_add keq) os d))
                   (flat_map snd d ++ map snd os).
Proof.
  induction os as [|o os IH]; intros d; simpl.
  - rewrite app_nil_r. reflexivity.
  - rewrite IH. unfold pair_add at 1. rewrite dict_append_values.
    rewrite <- app_assoc. reflexivity.
Qed.

Lemma fold_add_NoDup (os : list (K * E)) :
  forall d, NoDup (map fst d) -> NoDup (map fst (fold_left (pair_add keq) os d)).
Proof.
  induction os as [|o os IH]; intros d Hd; simpl; auto.
  apply IH. apply dict_append_NoDup. assumption.
Qed.

Lemma fold_add_get (os : list (K * E)) (j : K) :
  forall d,
    dict_get keq j (fold_left (pair_add keq) os d)
    = match dict_get keq j d, map snd (filter (fun o => keq j (fst o)) os) with
      | None, [] => None
      | None, vs => Some vs
      | Some ws, vs => Some (ws ++ vs)
      end.
Proof.
  induction os as [|o os IH]; intros d; simpl.
  - destruct (dict_get keq j d); [rewrite app_nil_r|]; reflexivity.
  - rewrite IH. unfold pair_add at 1. rewrite dict_append_get.
    destruct (keq j (fst o)) eqn:Ej; simpl.
    + destruct (dict_get keq j d); simpl.
      * rewrite <- app_assoc. reflexivity.
      * reflexivity.
    + reflexivity.
Qed.

Lemma fold_add_In (os : list (K * E)) :
  forall d j vs v,
    In (j, vs) (fold_left (pair_add keq) os d) -> In v vs ->
    In (j, v) os \/ exists ws, In (j, ws) d /\ In v ws.
Proof.
  induction os as [|o os IH]; intros d j vs v Hin Hv; simpl in *.
  - right. exists vs. auto.
  - destruct (IH _ _ _ _ Hin Hv) as [H|(ws & Hw & Hv')]; auto.
    unfold pair_add in Hw. apply dict_append_In in Hw.
    destruct Hw as [Hw|(-> & vs' & -> & Hvs')].
    + right. exists ws. auto.
    + apply in_app_or in Hv'. destruct Hv' as [Hv'|[<-|[]]].
      * destruct Hvs' as [->|Hvs']; [contradiction|].
        right. exists vs'. auto.
      * left. left. destruct o; reflexivity.
Qed.

Lemma fold_add_nonempty (os : list (K * E)) :
  forall d,
    (forall j vs, In (j, vs) d -> vs <> []) ->
    forall j vs, In (j, vs) (fold_left (pair_add keq) os d) -> vs <> [].
Proof.
  induction os as [|o os IH]; intros d Hd j vs Hin; simpl in *.
  - eapply Hd; eassumption.
  - eapply IH; [|exact Hin].
    intros j' vs' Hin'. unfold pair_add in Hin'. apply dict_append_In in Hin'.
    destruct Hin' as [H|(_ & ws & -> & _)].
    + eapply Hd; eassumption.
    + destruct ws; discriminate.
Qed.
End DictAppend.

Lemma classify_step (fname : string) (usages : list text) (m : re_match)
      (locs : type_index) (lows : list StructMatch) :
  classify fname usages (locs, lows) m
  = if named_upper (occurrence fname usages m)
    then (index_add locs (occurrence fname usages m), lows)
    else (locs, lows ++ [snd (occurrence fname usages m)]).
Proof.
  unfold classify, named_upper, index_add, occurrence, with_usage. simpl.
  destruct (starts_upper (group_text 2 m)); reflexivity.
Qed.

Lemma classify_fold (fname : string) (usages : list text) (ms : list re_match) :
  forall (locs : type_index) (lows : list StructMatch),
    fold_left (classify fname usages) ms (locs, lows)
    = (fold_left index_add (filter named_upper (map (occurrence fname usages) ms)) locs,
       lows ++ map snd (filter named_lower (map (occurrence fname usages) ms))).
Proof.
  induction ms as [|m ms IH]; intros locs lows.
  - simpl. rewrite app_nil_r. reflexivity.
  - cbn [fold_left map filter]. rewrite classify_step.
    unfold named_lower at 1. fold (named_upper (occurrence fname usages m)).
    destruct (named_upper (occurrence fname usages m)); cbn [negb].
    + rewrite IH. reflexivity.
    + rewrite IH. cbn [map]. rewrite <- app_assoc. reflexivity.
Qed.

Lemma scan_file_eq (acc : scan_result) (file : string * text) :
  scan_file acc file
  = {| type_locations :=
         fold_left index_add (filter named_upper (occurrences_of_file file))
           (type_locations acc);
       file_contents := dict_set String.eqb (fst file) (snd file) (file_contents acc);
       lowercase_matches :=
         lowercase_matches acc
         ++ map snd (filter named_lower (occurrences_of_file file)) |}.
Proof.
  destruct file as [fname file_text]. unfold scan_file.
  rewrite classify_fold. reflexivity.
Qed.

Lemma scan_fold (files : list (string * text)) :
  forall acc,
    fold_left scan_file files acc
    = {| type_locations :=
           fold_left index_add
             (filter named_upper (flat_map occurrences_of_file files))
             (type_locations acc);
         file_contents :=
           fold_left (fun c f => dict_set String.eqb (fst f) (snd f) c) files
             (file_contents acc);
         lowercase_matches :=
           lowercase_matches acc
           ++ map snd (filter named_lower (flat_map occurrences_of_file files)) |}.
Proof.
  induction files as [|file files IH]; intros acc.
  - simpl. rewrite app_nil_r. destruct acc; reflexivity.
  - cbn [fold_left flat_map]. rewrite IH, scan_file_eq. cbn [type_locations file_contents lowercase_matches].
    rewrite !filter_app, !map_app, fold_left_app, <- app_assoc. reflexivity.
Qed.

Lemma scan_type_locations (dir : directory) :
  type_locations (scan_rust_files dir)
  = fold_left index_add (filter named_upper (all_occurrences dir)) [].
Proof. unfold scan_rust_files. rewrite scan_fold. reflexivity. Qed.

Lemma scan_lowercase (dir : directory) :
  lowercase_matches (scan_rust_files dir)
  = map snd (filter named_lower (all_occurrences dir)).
Proof. unfold scan_rust_files. rewrite scan_fold. reflexivity. Qed.

Lemma scan_file_contents (dir : directory) :
  file_contents (scan_rust_files dir)
  = fold_left (fun c f => dict_set String.eqb (fst f) (snd f) c) (rust_files dir) [].
Proof. unfold scan_rust_files. rewrite scan_fold. reflexivity. Qed.

Lemma filter_partition_perm (X : Type) (f : X -> bool) (l : list X) :
  Permutation (filter f l ++ filter (fun x => negb (f x)) l) l.
Proof.
  induction l as [|x l IH]; simpl; auto.
  destruct (f x); simpl.
  - constructor. assumption.
  - rewrite <- Permutation_middle. constructor. assumption.
Qed.

(** ** The usage pattern *)

Lemma type_usage_patterns_eq :
  type_usage_patterns = (Bol @@ Rep false 0 not_slash @@ usage_tail)%re.
Proof. reflexivity. Qed.

Lemma usage_tail_field (pv : option ascii) (n : nat) (post : text) :
  run usage_tail (MState pv (T ": Bar," ++ post) n [] []) report
  = Some (6 + n, [(1, T "Bar")]).
Proof. reflexivity. Qed.

Lemma rep_cons (A : Type) (g : bool) (cls : ascii -> bool)
      (k : mstate -> option A) (least : nat) (c : ascii) (l : text) (st : mstate) :
  rep g cls k least (c :: l) st
  = if cls c then
      if g then
        match rep g cls k (pred least) l (advance c l st) with
        | Some a => Some a
        | None => match least with 0 => k st | S _ => None end
        end
      else
        match match least with 0 => k st | S _ => None end with
        | Some a => Some a
        | None => rep g cls k (pred least) l (advance c l st)
        end
    else match least with 0 => k st | S _ => None end.
Proof. reflexivity. Qed.

Lemma plain_not_slash (c : ascii) : plain c = true -> not_slash c = true.
Proof.
  unfold plain, not_slash. destruct (Ascii.eqb c "/"); simpl; auto.
Qed.

Lemma plain_not_colon (c : ascii) : plain c = true -> Ascii.eqb ":" c = false.
Proof.
  unfold plain. rewrite (Ascii.eqb_sym ":" c).
  destruct (Ascii.eqb c ":"); auto. rewrite orb_true_r. simpl. discriminate.
Qed.

Lemma usage_tail_not_colon (c : ascii) (l : text) (pv : option ascii) (n : nat)
      (os cs : list (nat * text)) :
  Ascii.eqb ":" c = false ->
  run usage_tail (MState pv (c :: l) n os cs) report = None.
Proof.
  intros H. unfold usage_tail.
  cbn [run lit rest T list_ascii_of_string]. rewrite H. reflexivity.
Qed.

(** From the start of a line made of plain characters up to the field's
    colon, the lazy scan stops at that colon and captures [Bar]. *)
Lemma lazy_scan_field (J : text) (post : text) :
  Forall (fun c => plain c = true) J ->
  forall (pv : option ascii) (n : nat),
    rep false not_slash (fun st' => run usage_tail st' report) 0
        (J ++ T ": Bar," ++ post) (MState pv (J ++ T ": Bar," ++ post) n [] [])
    = Some (6 + (length J + n), [(1, T "Bar")]).
Proof.
  induction 1 as [|c J Hc HJ IH]; intros pv n.
  - reflexivity.
  - cbn [app]. rewrite rep_cons. rewrite (plain_not_slash _ Hc).
    rewrite usage_tail_not_colon by (apply plain_not_colon; assumption).
    cbn [pred]. unfold advance. cbn [map opened caps used].
    rewrite IH. do 2 f_equal. cbn [length]. lia.
Qed.

Lemma is_space_token (l : text) :
  Forall (fun x => is_space x = true) l -> Forall (fun x => token x = true) l.
Proof.
  apply Forall_impl. intros a H. unfold token. rewrite H. reflexivity.
Qed.

Lemma is_word_token (l : text) :
  Forall (fun x => is_word x = true) l -> Forall (fun x => token x = true) l.
Proof.
  apply Forall_impl. intros a H. unfold token. rewrite H.
  rewrite orb_true_r. reflexivity.
Qed.

Lemma lang_usage_type (t : text) :
  lang usage_type t -> Forall (fun x => token x = true) t.
Proof.
  simpl. intros [H|[H|[H|H]]].
  - apply is_word_token. tauto.
  - destruct H as (c1 & c2 & -> & -> & c3 & c4 & -> & [_ Hw] & ->).
    apply Forall_app; split; [token_list|].
    apply Forall_app; split; [apply is_word_token; assumption | token_list].
  - destruct H as (c1 & c2 & -> & -> & c3 & c4 & -> & [_ Hw] & ->).
    apply Forall_app; split; [token_list|].
    apply Forall_app; split; [apply is_word_token; assumption | token_list].
  - destruct H as (c1 & c2 & -> & -> & c3 & c4 & -> & [_ Hw] & ->).
    apply Forall_app; split; [token_list|].
    apply Forall_app; split; [apply is_word_token; assumption | token_list].
Qed.

Lemma lang_usage_tail (c : text) :
  lang usage_tail c ->
  exists mid, c = ":"%char :: mid ++ [","%char] /\ Forall (fun x => token x = true) mid.
Proof.
  intros H. unfold usage_tail in H. cbn [lang] in H.
  destruct H as (c1 & c2 & -> & -> & ws & c3 & -> & [_ Hws] & t & c4 & -> & Ht
                 & ws' & c5 & -> & [_ Hws'] & ->).
  exists (ws ++ t ++ ws'). split.
  - simpl. rewrite <- !app_assoc. reflexivity.
  - apply Forall_app; split; [apply is_space_token; assumption|].
    apply Forall_app; split; [|apply is_space_token; assumption].
    apply lang_usage_type. exact Ht.
Qed.

(** A reference that starts at a colon before the field line ends before
    the line: it cannot run across the field's own colon, and no comma
    stands between the start of the line and that colon. *)
Lemma reference_ends_before (u J post mid rest' : text) :
  u <> [] ->
  Forall (fun c => plain c = true) J ->
  Forall (fun x => token x = true) mid ->
  u ++ J ++ T ": Bar," ++ post = (":"%char :: mid ++ [","%char]) ++ rest' ->
  length (":"%char :: mid ++ [","%char]) <= length u.
Proof.
  intros Hu HJ Hmid E.
  destruct (le_lt_dec (length (":"%char :: mid ++ [","%char])) (length u)) as [|Hlt]; auto.
  exfalso. cbn [length] in Hlt. rewrite length_app in Hlt. cbn [length] in Hlt.
  assert (Hu' : 0 < length u) by (destruct u; [congruence | simpl; lia]).
  remember (length u + length J) as q eqn:Hqdef.
  assert (Hq : nth_error (u ++ J ++ T ": Bar," ++ post) q = Some ":"%char).
  { subst q. rewrite nth_error_app2 by lia.
    replace (length u + length J - length u) with (length J) by lia.
    rewrite nth_error_app2 by lia. rewrite Nat.sub_diag. reflexivity. }
  assert (Hc : forall i, nth_error ((":"%char :: mid ++ [","%char]) ++ rest') (S i)
                    = nth_error ((mid ++ [","%char]) ++ rest') i) by reflexivity.
  destruct (lt_eq_lt_dec q (S (length mid))) as [[Hlt'|Heq]|Hgt].
  - (* the field's colon would be one of the reference's characters *)
    rewrite E in Hq. destruct q as [|q']; [lia|].
    rewrite Hc in Hq. rewrite <- app_assoc in Hq.
    rewrite nth_error_app1 in Hq by lia.
    apply nth_error_In in Hq. rewrite Forall_forall in Hmid.
    apply Hmid in Hq. discriminate.
  - (* the field's colon would be the reference's comma *)
    rewrite E in Hq. rewrite Heq in Hq. rewrite Hc in Hq.
    rewrite <- app_assoc in Hq. rewrite nth_error_app2 in Hq by lia.
    rewrite Nat.sub_diag in Hq. discriminate.
  - (* the reference's comma would stand before the field's colon *)
    assert (Hcomma : nth_error (u ++ J ++ T ": Bar," ++ post) (S (length mid))
                     = Some ","%char).
    { rewrite E, Hc. rewrite <- app_assoc. rewrite nth_error_app2 by lia.
      rewrite Nat.sub_diag. reflexivity. }
    rewrite nth_error_app2 in Hcomma by lia.
    rewrite nth_error_app1 in Hcomma by lia.
    apply nth_error_In in Hcomma. rewrite Forall_forall in HJ.
    apply HJ in Hcomma. discriminate.
Qed.

Lemma usage_tail_before_field (u J post : text) (pv : option ascii) (n len : nat)
      (gs : list (nat * text)) :
  u <> [] ->
  Forall (fun c => plain c = true) J ->
  run usage_tail (MState pv (u ++ J ++ T ": Bar," ++ post) n [] []) report
  = Some (len, gs) ->
  len <= n + length u.
Proof.
  intros Hu HJ H. apply run_sound in H.
  destruct H as (c & st' & E1 & E2 & E3 & E4). cbn [rest used] in E1, E2.
  unfold report in E4. inversion E4; subst len gs.
  apply lang_usage_tail in E3. destruct E3 as (mid & -> & Hmid).
  pose proof (reference_ends_before u J post mid (rest st') Hu HJ Hmid E1). lia.
Qed.

(** An attempt that starts before the field line either ends before it
    or is the reference to [Bar]. *)
Lemma lazy_scan_cases (J post : text) :
  Forall (fun c => plain c = true) J ->
  forall (u : text) (pv : option ascii) (n len : nat) (gs : list (nat * text)),
    rep false not_slash (fun st' => run usage_tail st' report) 0
        (u ++ J ++ T ": Bar," ++ post)
        (MState pv (u ++ J ++ T ": Bar," ++ post) n [] [])
    = Some (len, gs) ->
    len <= n + length u \/ gs = [(1, T "Bar")].
Proof.
  intros HJ. induction u as [|x u IH]; intros pv n len gs H.
  - cbn [app] in H. rewrite lazy_scan_field in H by assumption.
    inversion H. auto.
  - cbn [app] in H. rewrite rep_cons in H.
    change (x :: u ++ J ++ T ": Bar," ++ post)
      with ((x :: u) ++ J ++ T ": Bar," ++ post) in H.
    destruct (run usage_tail
                (MState pv ((x :: u) ++ J ++ T ": Bar," ++ post) n [] []) report)
      as [[len' gs']|] eqn:Ek.
    + apply usage_tail_before_field in Ek; [|discriminate|assumption].
      destruct (not_slash x); inversion H; subst; auto.
    + destruct (not_slash x); [|discriminate].
      cbn [pred] in H. unfold advance in H. cbn [map opened caps used] in H.
      apply IH in H. cbn [length]. destruct H; [left; lia | auto].
Qed.

Lemma match_at_usage (p : option ascii) (s : text) :
  match_at type_usage_patterns p s
  = match p with
    | None =>
        rep false not_slash (fun st' => run usage_tail st' report) 0 s
            (MState p s 0 [] [])
    | Some c =>
        if Ascii.eqb c nl then
          rep false not_slash (fun st' => run usage_tail st' report) 0 s
              (MState p s 0 [] [])
        else None
    end.
Proof. destruct p; reflexivity. Qed.

Lemma finditer_from_0 (r : regex) (p : option ascii) (pos : nat) (s : text) :
  finditer_from r p pos 0 s
  = match match_at r p s with
    | Some (len, gs) =>
        ReMatch pos (pos + len) gs ::
        match s with
        | [] => []
        | c :: s' => finditer_from r (Some c) (S pos) (pred len) s'
        end
    | None =>
        match s with
        | [] => []
        | c :: s' => finditer_from r (Some c) (S pos) 0 s'
        end
    end.
Proof. destruct s; reflexivity. Qed.

(** The search over a file finds the reference of the field line. *)
Lemma finditer_finds_field (J post : text) :
  Forall (fun c => plain c = true) J ->
  forall (u : text) (p : option ascii) (pos skip : nat),
    skip <= length u -> starts_line p u ->
    exists m,
      In m (finditer_from type_usage_patterns p pos skip
              (u ++ J ++ T ": Bar," ++ post))
      /\ group 1 m = Some (T "Bar").
Proof.
  intros HJ. induction u as [|x u IH]; intros p pos skip Hs Hl.
  - assert (skip = 0) by (simpl in Hs; lia). subst skip.
    rewrite finditer_from_0, match_at_usage. cbn [app].
    assert (E : rep false not_slash (fun st' => run usage_tail st' report) 0
                    (J ++ T ": Bar," ++ post)
                    (MState p (J ++ T ": Bar," ++ post) 0 [] [])
                = Some (6 + (length J + 0), [(1, T "Bar")]))
      by (apply lazy_scan_field; assumption).
    simpl in Hl. destruct Hl as [->| ->].
    + rewrite E. eexists. split; [left; reflexivity|reflexivity].
    + replace (Ascii.eqb nl nl) with true by reflexivity.
      rewrite E. eexists. split; [left; reflexivity|reflexivity].
  - destruct skip as [|skip'].
    + rewrite finditer_from_0.
      destruct (match_at type_usage_patterns p ((x :: u) ++ J ++ T ": Bar," ++ post))
        as [[len gs]|] eqn:Em.
      * assert (Hc : len <= length (x :: u) \/ gs = [(1, T "Bar")]).
        { rewrite match_at_usage in Em.
          assert (Hrep : rep false not_slash (fun st' => run usage_tail st' report) 0
                           ((x :: u) ++ J ++ T ": Bar," ++ post)
                           (MState p ((x :: u) ++ J ++ T ": Bar," ++ post) 0 [] [])
                         = Some (len, gs)).
          { destruct p as [c|]; [|assumption].
            destruct (Ascii.eqb c nl); [assumption|discriminate]. }
          apply (lazy_scan_cases J post HJ) in Hrep. simpl in *. tauto. }
        destruct Hc as [Hc| ->].
        -- cbn [app]. destruct (IH (Some x) (S pos) (pred len)) as (m & Hm & Hg).
           ++ cbn [length] in Hc. lia.
           ++ exact Hl.
           ++ exists m. split; [right; exact Hm | exact Hg].
        -- eexists. split; [left; reflexivity|reflexivity].
      * cbn [app]. destruct (IH (Some x) (S pos) 0) as (m & Hm & Hg).
        -- lia.
        -- exact Hl.
        -- exists m. split; [exact Hm | exact Hg].
    + cbn [app finditer_from].
      destruct (IH (Some x) (S pos) skip') as (m & Hm & Hg).
      * cbn [length] in Hs. lia.
      * exact Hl.
      * exists m. split; [exact Hm | exact Hg].
Qed.

Lemma ends_line_starts_line (pre : text) : ends_line pre -> starts_line None pre.
Proof.
  intros [->|[pre' ->]]; [left; reflexivity|].
  generalize (@None ascii). induction pre' as [|c pre' IH]; intros p; simpl.
  - right. reflexivity.
  - apply IH.
Qed.

Lemma count_name_In (n : text) (l : list text) : In n l -> 1 <= count_name n l.
Proof.
  unfold count_name. induction l as [|x l IH]; [contradiction|].
  intros [->|H]; simpl.
  - rewrite text_eqb_refl. simpl. lia.
  - specialize (IH H). destruct (text_eqb n x); simpl; lia.
Qed.

(** A file with the field line has [Bar] among its usages. *)
Lemma usages_of_field (pre ind post : text) :
  ends_line pre -> Forall (fun c => plain c = true) ind ->
  In (T "Bar") (usages_of (pre ++ ind ++ field_line ++ post)).
Proof.
  intros Hpre Hind.
  assert (HJ : Forall (fun c => plain c = true) (ind ++ T "foo")).
  { apply Forall_app. split; [assumption|]. repeat constructor. }
  destruct (finditer_finds_field (ind ++ T "foo") post HJ pre None 0 0) as (m & Hm & Hg).
  - lia.
  - apply ends_line_starts_line. assumption.
  - unfold usages_of. apply in_flat_map. exists m. split.
    + unfold finditer.
      replace (pre ++ ind ++ field_line ++ post)
        with (pre ++ (ind ++ T "foo") ++ T ": Bar," ++ post); [exact Hm|].
      unfold field_line. rewrite <- !app_assoc. reflexivity.
    + rewrite Hg. left. reflexivity.
Qed.

(** ** Occurrences and their files *)

Lemma all_occurrences_In (dir : directory) (n : text) (o : StructMatch) :
  In (n, o) (all_occurrences dir) ->
  exists file,
    In file dir /\ is_rust_file (fst file) = true
    /\ In (n, o) (occurrences_of_file file).
Proof.
  unfold all_occurrences, rust_files. intros H. apply in_flat_map in H.
  destruct H as (file & Hf & Ho). apply filter_In in Hf.
  exists file. tauto.
Qed.

Lemma occurrences_of_file_In (file : string * text) (n : text) (o : StructMatch) :
  In (n, o) (occurrences_of_file file) ->
  filename o = fst file
  /\ In (span_of o) (type_spans (snd file))
  /\ usage_count o
     = (if starts_upper n then count_name n (usages_of (snd file)) else 0)
  /\ exists m, In m (finditer type_pattern (snd file))
          /\ start_pos o = m_start m /\ end_pos o = m_end m.
Proof.
  unfold occurrences_of_file. intros H. apply in_map_iff in H.
  destruct H as (m & E & Hm). unfold occurrence in E. inversion E; subst.
  simpl. repeat split; auto.
  - unfold type_spans. apply in_map_iff. exists m. auto.
  - exists m. auto.
Qed.

Lemma NoDup_fst_unique (X Y : Type) (l : list (X * Y)) (x : X) (y1 y2 : Y) :
  NoDup (map fst l) -> In (x, y1) l -> In (x, y2) l -> y1 = y2.
Proof.
  induction l as [|[a b] l IH]; simpl; intros Hn H1 H2; [contradiction|].
  inversion Hn as [|? ? Hnotin Hn']; subst.
  destruct H1 as [H1|H1], H2 as [H2|H2].
  - congruence.
  - inversion H1; subst. exfalso. apply Hnotin.
    apply in_map_iff. exists (x, y2). auto.
  - inversion H2; subst. exfalso. apply Hnotin.
    apply in_map_iff. exists (x, y1). auto.
  - auto.
Qed.

Lemma type_locations_In (dir : directory) (n : text) (ms : list StructMatch)
      (o : StructMatch) :
  In (n, ms) (type_locations (scan_rust_files dir)) -> In o ms ->
  In (n, o) (all_occurrences dir) /\ starts_upper n = true.
Proof.
  rewrite scan_type_locations. intros H Ho.
  pose proof (fold_add_In _ _ text_eqb text_eqb_eq
                (filter named_upper (all_occurrences dir)) [] n ms o H Ho) as H'.
  destruct H' as [H'|(ws & [] & _)]. rename H' into H0. clear H. rename H0 into H.
  apply filter_In in H. tauto.
Qed.

Lemma lowercase_In (dir : directory) (o : StructMatch) :
  In o (lowercase_matches (scan_rust_files dir)) ->
  exists n, In (n, o) (all_occurrences dir) /\ starts_upper n = false.
Proof.
  rewrite scan_lowercase. intros H. apply in_map_iff in H.
  destruct H as ([n o'] & E & H). simpl in E. subst o'.
  apply filter_In in H. destruct H as [H1 H2]. exists n. split; auto.
  unfold named_lower in H2. simpl in H2. apply negb_true_iff. assumption.
Qed.

(** ** The claims on spans and deletion *)

(** C5. In every file the spans of the matched declarations are pairwise
    disjoint.  Whatever the order in which matched spans are listed for
    deletion, the rewrite (which sorts them by descending start offset
    before splicing them out) gives the same text, namely the characters
    of the file that lie outside the spans; once sorted, every span ends
    where the one deleted before it starts or earlier, so no deletion
    moves a span still to be deleted. *)
Theorem span_deletion_order_invariant (file_text : text) (ps ps' : list span) :
  NoDup ps -> incl ps (type_spans file_text) -> Permutation ps ps' ->
  pairwise_disjoint (type_spans file_text)
  /\ descending (length file_text) (sort_reverse ps)
  /\ delete_spans file_text ps = keep_outside file_text ps
  /\ delete_spans file_text ps' = delete_spans file_text ps
  /\ keep_outside file_text ps' = keep_outside file_text ps.
Proof.
  intros Hn Hi Hp.
  pose proof (type_spans_ascending file_text) as Ha.
  assert (Hd : descending (length file_text) (sort_reverse ps))
    by (eapply selection_descending; eassumption).
  split; [eapply ascending_pairwise; eassumption|].
  split; [assumption|].
  split; [|split].
  - unfold delete_spans.
    rewrite (fold_delete_keep _ (length file_text) file_text Hd (le_n _)).
    apply keep_outside_perm. apply sort_reverse_perm.
  - unfold delete_spans. rewrite (sort_reverse_canonical ps ps' Hp). reflexivity.
  - symmetry. apply keep_outside_perm. assumption.
Qed.

Lemma span_deletion_order_invariant_witness :
  delete_spans chain_rs [(455, 888); (30, 455)]
  = delete_spans chain_rs [(30, 455); (455, 888)].
Proof.
  apply (span_deletion_order_invariant chain_rs [(30, 455); (455, 888)]
           [(455, 888); (30, 455)]).
  - repeat constructor; simpl; intuition discriminate.
  - vm_compute. intros a [H|[H|[]]]; subst a; auto.
  - apply perm_swap.
Defined.

(** Without the sort the splices would depend on the order: deleting the
    first span moves the second. *)
Remark unsorted_splices_depend_on_order :
  fold_left delete_span [(0, 2); (3, 5)] (T "abcdef") = T "cde"
  /\ fold_left delete_span [(3, 5); (0, 2)] (T "abcdef") = T "cf"
  /\ delete_spans (T "abcdef") [(0, 2); (3, 5)] = T "cf".
Proof. repeat split; reflexivity. Qed.

Lemma total_len_positive (lo hi : nat) (spans ps : list span) :
  ascending lo hi spans -> incl ps spans -> ps <> [] -> 0 < total_len ps.
Proof.
  intros Ha Hi Hne. destruct ps as [|p ps]; [congruence|]. simpl.
  destruct (ascending_bounds _ _ _ Ha p (Hi p (or_introl eq_refl))) as (_ & H & _).
  unfold span_len. lia.
Qed.

(** The new text of a file whose listed spans are matched spans without
    repetition. *)
Lemma delete_spans_length (file_text : text) (ps : list span) :
  NoDup ps -> incl ps (type_spans file_text) ->
  length (delete_spans file_text ps) + total_len ps = length file_text.
Proof.
  intros Hn Hi. unfold delete_spans.
  rewrite (total_len_perm ps (sort_reverse ps))
    by (symmetry; apply sort_reverse_perm).
  apply fold_delete_length with (hi := length file_text); auto.
  eapply selection_descending; eauto using type_spans_ascending.
Qed.

(** C6. For a file whose matched declarations are exactly the violation
    spans [V] and the promoted spans [D], the rewrite succeeds and the
    text it writes is shorter than the scanned text by the total length
    of the spans of [V] and [D] (with no span at all the file is left
    alone). *)
Theorem length_conservation (contents : contents_index) (fs : directory)
        (fname : string) (old : text) (V D : list span) :
  dict_get String.eqb fname contents = Some old ->
  Permutation (V ++ D) (type_spans old) ->
  exists new_content,
    new_content = delete_spans old (D ++ V)
    /\ length new_content + total_len (V ++ D) = length old
    /\ rewrite_file contents (fname, D ++ V) fs
       = (Some tt,
          if nonempty (D ++ V) then dict_set String.eqb fname new_content fs
          else fs).
Proof.
  intros Hget Hp.
  assert (Hp' : Permutation (D ++ V) (type_spans old)).
  { rewrite <- Hp. apply Permutation_app_comm. }
  pose proof (type_spans_ascending old) as Ha.
  assert (Hn : NoDup (D ++ V)).
  { eapply Permutation_NoDup; [symmetry; exact Hp'|].
    eapply ascending_NoDup; eassumption. }
  assert (Hi : incl (D ++ V) (type_spans old)).
  { intros p Hin. eapply Permutation_in; eassumption. }
  pose proof (delete_spans_length old (D ++ V) Hn Hi) as Hlen.
  exists (delete_spans old (D ++ V)). split; [reflexivity|]. split.
  - rewrite (total_len_perm (V ++ D) (D ++ V)); [assumption|].
    apply Permutation_app_comm.
  - unfold rewrite_file. destruct (D ++ V) as [|p ps] eqn:E; [reflexivity|].
    rewrite Hget.
    assert (Hpos : 0 < total_len (p :: ps)).
    { eapply total_len_positive; eauto. discriminate. }
    rewrite text_eqb_length by lia. reflexivity.
Qed.

Lemma length_conservation_witness :
  exists new_content,
    new_content = delete_spans chain_rs ([(455, 888); (888, 1304)] ++ [(30, 455)])
    /\ length new_content + total_len ([(30, 455)] ++ [(455, 888); (888, 1304)])
       = length chain_rs
    /\ rewrite_file [("a.rs"%string, chain_rs)]
         ("a.rs"%string, [(455, 888); (888, 1304)] ++ [(30, 455)]) chain_dir
       = (Some tt,
          if nonempty ([(455, 888); (888, 1304)] ++ [(30, 455)])
          then dict_set String.eqb "a.rs"%string new_content chain_dir
          else chain_dir).
Proof.
  apply (length_conservation [("a.rs"%string, chain_rs)] chain_dir "a.rs"%string
           chain_rs [(30, 455)] [(455, 888); (888, 1304)]).
  - reflexivity.
  - vm_compute. apply Permutation_refl.
Defined.

(** ** The claims on the catalog *)

Lemma promotable_perm (dir : directory) :
  Permutation (flat_map snd (type_locations (scan_rust_files dir)))
              (map snd (filter named_upper (all_occurrences dir))).
Proof.
  rewrite scan_type_locations.
  apply (fold_add_values _ _ text_eqb
           (filter named_upper (all_occurrences dir)) []).
Qed.

(** The catalog holds the matched declarations, each as often as it was
    matched. *)
Lemma catalog_perm (dir : directory) :
  Permutation (flat_map snd (type_locations (scan_rust_files dir))
               ++ lowercase_matches (scan_rust_files dir))
              (map snd (all_occurrences dir)).
Proof.
  rewrite promotable_perm, scan_lowercase, <- map_app.
  apply Permutation_map. apply filter_partition_perm.
Qed.

(** ** The threshold *)

Lemma print_summary_In (locs : type_index) (typecount : Z) (n : text)
      (ms : list StructMatch) :
  promoted locs typecount n ms
  <-> In (n, ms) locs /\ qualifies typecount ms = true.
Proof.
  unfold promoted, print_summary.
  destruct (filter (fun e => qualifies typecount (snd e)) locs) as [|e l] eqn:E.
  - split; [contradiction|]. intros [H1 H2].
    assert (H : In (n, ms) (filter (fun e => qualifies typecount (snd e)) locs))
      by (apply filter_In; auto).
    rewrite E in H. contradiction.
  - rewrite <- E. rewrite filter_In. simpl. tauto.
Qed.

(** C2, as amended.  A type of the catalog is promoted exactly when the
    sum of the usage counts recorded on its occurrences is at least the
    threshold.  A type with no recorded usage is not promoted at the
    default threshold 1; it is promoted exactly when the threshold is 0
    or negative. *)
Theorem promotion_threshold (locs : type_index) (typecount : Z) (n : text)
        (ms : list StructMatch) :
  In (n, ms) locs ->
  (promoted locs typecount n ms <-> (typecount <= Z.of_nat (total_usage ms))%Z)
  /\ (total_usage ms = 0 -> ~ promoted locs 1 n ms)
  /\ (total_usage ms = 0 -> (promoted locs typecount n ms <-> (typecount <= 0)%Z)).
Proof.
  intros Hin.
  assert (H : forall tc, promoted locs tc n ms <-> (tc <= Z.of_nat (total_usage ms))%Z).
  { intros tc. rewrite print_summary_In. unfold qualifies. rewrite Z.leb_le. tauto. }
  split; [apply H|]. split.
  - intros H0. rewrite H, H0. simpl. lia.
  - intros H0. rewrite H, H0. simpl. tauto.
Qed.

Lemma promotion_threshold_witness :
  promoted (type_locations (scan_rust_files chain_dir)) 1 (T "Bar")
           (matches_of "Bar" (type_locations (scan_rust_files chain_dir)))
  <-> (1 <= Z.of_nat (total_usage
                        (matches_of "Bar" (type_locations (scan_rust_files chain_dir)))))%Z.
Proof.
  assert (Hin : In (T "Bar",
                    matches_of "Bar" (type_locations (scan_rust_files chain_dir)))
                   (type_locations (scan_rust_files chain_dir))).
  { vm_compute. right. left. reflexivity. }
  exact (proj1 (promotion_threshold _ 1 _ _ Hin)).
Defined.

(** C2, the counterexample: [Widget] has no recorded usage and the
    threshold -1 is not 0, yet [Widget] is promoted and the run writes it
    to the shared module. *)
Lemma promotion_below_zero :
  let locs := type_locations (scan_rust_files widget_dir) in
  let ms := matches_of "Widget" locs in
  In (T "Widget", ms) locs
  /\ total_usage ms = 0
  /\ promoted locs (-1) (T "Widget") ms
  /\ (-1 <> 0)%Z
  /\ fst (main (-1) widget_dir) = 0%Z
  /\ declared_names (content_of common_rs (snd (main (-1) widget_dir)))
     = [T "Widget"].
Proof.
  vm_compute. repeat split; try reflexivity; try discriminate;
    left; reflexivity.
Qed.

(** ** Runs of the tool *)

Lemma main_raises (typecount : Z) (fs : directory) :
  print_summary (type_locations (scan_rust_files fs)) typecount = None ->
  nonempty (lowercase_matches (scan_rust_files fs)) = true ->
  main typecount fs = (1%Z, fs).
Proof.
  intros H1 H2. unfold main, main_body. rewrite H1, H2. reflexivity.
Qed.

(** C3, the run that misses it: when no upper-case type qualifies,
    [print_summary] returns [None], [remove_duplicates] raises on it and
    the run ends with status 1 before any file is rewritten; the
    lower-case declaration stays in its file, whatever the threshold. *)
Theorem violation_left_in_place (typecount : Z) :
  lowercase_matches (scan_rust_files helper_dir) <> []
  /\ main typecount helper_dir = (1%Z, helper_dir).
Proof.
  assert (E : type_locations (scan_rust_files helper_dir) = [])
    by (vm_compute; reflexivity).
  assert (El : nonempty (lowercase_matches (scan_rust_files helper_dir)) = true)
    by (vm_compute; reflexivity).
  split.
  - destruct (lowercase_matches (scan_rust_files helper_dir));
      [discriminate El | discriminate].
  - apply main_raises; [|exact El]. rewrite E. reflexivity.
Qed.

(** C1, the run that breaks it: the first run promotes [Bar] and [Baz]
    into the shared module; the second run, on the directory the first
    one left and with the same threshold, finds [Baz] used by [Bar]
    inside the shared module, plans the deletion of its span there and
    rewrites the shared module without [Baz]. *)
Theorem second_run_rewrites_shared_module :
  let fs1 := snd (main 1 chain_dir) in
  let fs2 := snd (main 1 fs1) in
  let sc := scan_rust_files fs1 in
  fst (main 1 chain_dir) = 0%Z
  /\ fst (main 1 fs1) = 0%Z
  /\ declared_names (content_of common_rs fs1) = [T "Bar"; T "Baz"]
  /\ map fst (file_positions
                (filter (fun e => qualifies 1 (snd e)) (type_locations sc))
                (lowercase_matches sc)) = [common_rs]
  /\ declared_names (content_of common_rs fs2) = [T "Bar"]
  /\ fs2 <> fs1.
Proof.
  assert (H : declared_names (content_of common_rs (snd (main 1 chain_dir)))
              = [T "Bar"; T "Baz"]
              /\ declared_names
                   (content_of common_rs (snd (main 1 (snd (main 1 chain_dir)))))
                 = [T "Bar"])
    by (vm_compute; split; reflexivity).
  destruct H as [H1 H2]. cbv zeta.
  split; [vm_compute; reflexivity|].
  split; [vm_compute; reflexivity|].
  split; [exact H1|].
  split; [vm_compute; reflexivity|].
  split; [exact H2|].
  congruence.
Qed.

(** ** The shared module writer *)

Lemma mem_text_In (n : text) (l : list text) : mem_text n l = true <-> In n l.
Proof.
  unfold mem_text. rewrite existsb_exists. split.
  - intros (x & Hx & E). apply text_eqb_eq in E. subst x. assumption.
  - intros H. exists n. split; [assumption | apply text_eqb_refl].
Qed.

Lemma join_blocks (a : text) (blocks : list text) :
  join [nl] ([a] ++ blocks ++ [[nl]]) = a ++ flat_map (cons nl) blocks ++ [nl; nl].
Proof.
  change ([a] ++ blocks ++ [[nl]]) with (a :: blocks ++ [[nl]]).
  revert a. induction blocks as [|b blocks IH]; intros a.
  - reflexivity.
  - change (join [nl] (a :: (b :: blocks) ++ [[nl]]))
      with (a ++ [nl] ++ join [nl] (b :: blocks ++ [[nl]])).
    rewrite IH. cbn [flat_map]. rewrite <- !app_assoc. reflexivity.
Qed.

Lemma rstrip_nl_app (x y : text) :
  rstrip_nl y <> [] -> rstrip_nl (x ++ y) = x ++ rstrip_nl y.
Proof.
  intros Hy. induction x as [|c x IH]; [reflexivity|].
  cbn [app rstrip_nl]. rewrite IH.
  destruct (x ++ rstrip_nl y) eqn:E; [|reflexivity].
  apply app_eq_nil in E. tauto.
Qed.

(** A text that ends with the closing idiom loses exactly its last
    newline to [rstrip]. *)
Lemma rstrip_nl_footer (c : text) : rstrip_nl (c ++ footer) ++ [nl] = c ++ footer.
Proof.
  rewrite rstrip_nl_app by (vm_compute; discriminate).
  rewrite <- app_assoc. reflexivity.
Qed.

Lemma new_blocks_spec (existing : list text) (items all : type_index) :
  (forall n ms, In (n, ms) items -> ms <> []) ->
  incl items all ->
  exists blocks,
    new_blocks existing items = Some blocks
    /\ Forall2 (fun n b => exists m0 ms,
                    In (n, m0 :: ms) all /\ b = rstrip_nl (content m0))
               (new_names existing items) blocks.
Proof.
  unfold new_names. induction items as [|[n ms] items IH]; intros Hne Hincl.
  - exists []. split; [reflexivity | constructor].
  - destruct IH as (blocks & E & F).
    + intros n' ms' H. apply (Hne n' ms'). right. assumption.
    + intros x Hx. apply Hincl. right. assumption.
    + cbn [new_blocks map filter fst].
      destruct (mem_text n existing); cbn [negb].
      * exists blocks. auto.
      * destruct ms as [|m0 ms'].
        -- exfalso. apply (Hne n []); [left; reflexivity | reflexivity].
        -- rewrite E. exists (rstrip_nl (content m0) :: blocks). split; [reflexivity|].
           constructor; [|assumption].
           exists m0, ms'. split; [|reflexivity]. apply Hincl. left. reflexivity.
Qed.

Lemma sorted_items_perm (d : type_index) : Permutation (sorted_items d) d.
Proof. apply sort_by_perm. Qed.

Lemma read_existing_common_eq (output_file : string) (fs : directory) :
  read_existing_common output_file fs
  = (Some (declared_names (content_of output_file fs), content_of output_file fs), fs).
Proof.
  unfold read_existing_common, bind, read_file, content_of.
  destruct (dict_get String.eqb output_file fs); reflexivity.
Qed.

(** What [generate_common_file] writes. *)
Lemma generate_common_file_eq (ft : type_index) (output_file : string)
      (fs : directory) :
  (forall n ms, In (n, ms) ft -> ms <> []) ->
  let prior := content_of output_file fs in
  let names := new_names (declared_names prior) (sorted_items ft) in
  exists blocks,
    generate_common_file ft output_file fs
    = (Some tt,
       dict_set String.eqb output_file
         (rstrip_nl prior ++ flat_map (cons nl) blocks ++ [nl; nl]) fs)
    /\ Forall2 (fun n b => exists m0 ms,
                    In (n, m0 :: ms) ft /\ b = rstrip_nl (content m0))
               names blocks.
Proof.
  intros Hne prior names.
  destruct (new_blocks_spec (declared_names prior) (sorted_items ft) ft)
    as (blocks & E & F).
  - intros n ms H. apply (Hne n ms).
    eapply Permutation_in; [apply sorted_items_perm | exact H].
  - intros x Hx. eapply Permutation_in; [apply sorted_items_perm | exact Hx].
  - exists blocks. split; [|exact F].
    unfold generate_common_file, bind. rewrite read_existing_common_eq.
    fold prior. rewrite E. unfold write_file. rewrite join_blocks. reflexivity.
Qed.

(** C4, as amended.  The writer replaces the shared module by its prior
    content without its trailing newlines, followed by one block per
    promoted name that the prior content does not declare (a newline and
    the first occurrence's text without its trailing newlines, names in
    sorted order) and by two newlines.  A name the prior content declares
    is never appended, no name is appended twice, and the prior content
    is kept as a prefix up to its trailing newlines.  A text that ends
    with the closing idiom is appended in full: the newline it loses is
    the one that follows it. *)
Theorem writer_appends_new_names (ft : type_index) (fs : directory) :
  NoDup (map fst ft) ->
  (forall n ms, In (n, ms) ft -> ms <> []) ->
  let prior := content_of common_rs fs in
  let names := new_names (declared_names prior) (sorted_items ft) in
  exists blocks,
    generate_common_file ft common_rs fs
    = (Some tt,
       dict_set String.eqb common_rs
         (rstrip_nl prior ++ flat_map (cons nl) blocks ++ [nl; nl]) fs)
    /\ Forall2 (fun n b => exists m0 ms,
                    In (n, m0 :: ms) ft /\ b = rstrip_nl (content m0))
               names blocks
    /\ NoDup names
    /\ (forall n, In n names <-> In n (map fst ft) /\ ~ In n (declared_names prior))
    /\ prefix (rstrip_nl prior)
              (rstrip_nl prior ++ flat_map (cons nl) blocks ++ [nl; nl])
    /\ (forall c, rstrip_nl (c ++ footer) ++ [nl] = c ++ footer).
Proof.
  intros Hn Hne prior names.
  destruct (generate_common_file_eq ft common_rs fs Hne) as (blocks & E & F).
  exists blocks. split; [exact E|]. split; [exact F|].
  assert (Hp : Permutation (map fst (sorted_items ft)) (map fst ft))
    by (apply Permutation_map, sorted_items_perm).
  split; [|split; [|split]].
  - unfold names, new_names. apply NoDup_filter.
    eapply Permutation_NoDup; [symmetry; exact Hp | exact Hn].
  - intros n. unfold names, new_names. rewrite filter_In, negb_true_iff.
    rewrite <- not_true_iff_false, mem_text_In. fold prior.
    split; intros [H1 H2]; split; auto.
    + eapply Permutation_in; eassumption.
    + eapply Permutation_in; [symmetry; exact Hp | exact H1].
  - eexists. reflexivity.
  - apply rstrip_nl_footer.
Qed.

Lemma writer_appends_new_names_witness :
  exists blocks,
    generate_common_file (type_locations (scan_rust_files widget_dir)) common_rs
      padded_dir
    = (Some tt,
       dict_set String.eqb common_rs
         (rstrip_nl (content_of common_rs padded_dir)
          ++ flat_map (cons nl) blocks ++ [nl; nl]) padded_dir).
Proof.
  assert (Hn : NoDup (map fst (type_locations (scan_rust_files widget_dir)))).
  { vm_compute. repeat constructor. intros []. }
  assert (Hne : forall n ms, In (n, ms) (type_locations (scan_rust_files widget_dir))
                             -> ms <> []).
  { intros n ms. vm_compute. intros [H|[]]. inversion H. discriminate. }
  destruct (writer_appends_new_names _ padded_dir Hn Hne) as (blocks & E & _).
  exists blocks. exact E.
Defined.

(** ** The deletion plan *)

Section DictSet.
Variables (K V : Type) (keq : K -> K -> bool).
Hypothesis keq_eq : forall a b, keq a b = true <-> a = b.

Lemma keq_refl (k : K) : keq k k = true.
Proof. apply keq_eq. reflexivity. Qed.

Lemma dict_get_set (k : K) (v : V) (d : list (K * V)) (j : K) :
  dict_get keq j (dict_set keq k v d)
  = if keq j k then Some v else dict_get keq j d.
Proof.
  induction d as [|[k' v'] d IH]; simpl.
  - reflexivity.
  - destruct (keq k k') eqn:Ek; simpl.
    + apply keq_eq in Ek. subst k'. destruct (keq j k); reflexivity.
    + rewrite IH. destruct (keq j k') eqn:Ej; [|reflexivity].
      destruct (keq j k) eqn:Ej'; [|reflexivity].
      apply keq_eq in Ej, Ej'. subst. rewrite keq_refl in Ek. discriminate.
Qed.

Lemma dict_get_None (k : K) (d : list (K * V)) :
  ~ In k (map fst d) -> dict_get keq k d = None.
Proof.
  induction d as [|[k' v'] d IH]; simpl; intros H; [reflexivity|].
  destruct (keq k k') eqn:E.
  - apply keq_eq in E. subst k'. tauto.
  - apply IH. tauto.
Qed.

Lemma dict_get_In (k : K) (v : V) (d : list (K * V)) :
  NoDup (map fst d) -> In (k, v) d -> dict_get keq k d = Some v.
Proof.
  induction d as [|[k' v'] d IH]; simpl; intros Hn H; [contradiction|].
  inversion Hn as [|? ? Hnotin Hn']; subst.
  destruct H as [H|H].
  - inversion H; subst. rewrite keq_refl. reflexivity.
  - destruct (keq k k') eqn:E.
    + apply keq_eq in E. subst k'. exfalso. apply Hnotin.
      apply in_map_iff. exists (k, v). auto.
    + apply IH; assumption.
Qed.

Lemma dict_get_Some_In (k : K) (v : V) (d : list (K * V)) :
  dict_get keq k d = Some v -> In (k, v) d.
Proof.
  induction d as [|[k' v'] d IH]; simpl; intros H; [discriminate|].
  destruct (keq k k') eqn:E.
  - apply keq_eq in E. inversion H; subst. left. reflexivity.
  - right. apply IH. assumption.
Qed.

Lemma fold_set_frame (files : list (K * V)) (k : K) :
  forall c,
    ~ In k (map fst files) ->
    dict_get keq k
      (fold_left (fun c f => dict_set keq (fst f) (snd f) c) files c)
    = dict_get keq k c.
Proof.
  induction files as [|[k1 v1] files IH]; intros c Hnotin; [reflexivity|].
  simpl in *. rewrite IH by tauto. rewrite dict_get_set.
  destruct (keq k k1) eqn:E; [|reflexivity].
  apply keq_eq in E. subst k1. tauto.
Qed.

Lemma fold_set_get (files : list (K * V)) (k : K) (v : V) :
  forall c,
    NoDup (map fst files) -> In (k, v) files ->
    dict_get keq k
      (fold_left (fun c f => dict_set keq (fst f) (snd f) c) files c)
    = Some v.
Proof.
  induction files as [|[k' v'] files IH]; intros c Hn H; [contradiction|].
  inversion Hn as [|? ? Hnotin Hn']; subst. simpl.
  destruct H as [H|H].
  - inversion H; subst. rewrite fold_set_frame by assumption.
    rewrite dict_get_set, keq_refl. reflexivity.
  - apply IH; assumption.
Qed.
End DictSet.

Lemma NoDup_map_filter (X Y : Type) (f : X -> Y) (p : X -> bool) (l : list X) :
  NoDup (map f l) -> NoDup (map f (filter p l)).
Proof.
  induction l as [|x l IH]; simpl; intros H; [constructor|].
  inversion H as [|? ? Hnotin Hn]; subst.
  destruct (p x); simpl; auto. constructor; auto.
  intros Hin. apply Hnotin. apply in_map_iff in Hin.
  destruct Hin as (y & E & Hy). apply filter_In in Hy.
  apply in_map_iff. exists y. tauto.
Qed.

(** The scan keeps the text of every Rust file under its name. *)
Lemma file_contents_get (dir : directory) (fname : string) (file_text : text) :
  NoDup (map fst dir) -> In (fname, file_text) dir -> is_rust_file fname = true ->
  dict_get String.eqb fname (file_contents (scan_rust_files dir)) = Some file_text.
Proof.
  intros Hn Hin Hr. rewrite scan_file_contents.
  apply (fold_set_get _ _ String.eqb String.eqb_eq).
  - unfold rust_files. apply NoDup_map_filter. assumption.
  - unfold rust_files. apply filter_In. auto.
Qed.

Lemma fold_left_concat (X Y : Type) (g : Y -> X -> Y) (lss : list (list X)) :
  forall acc,
    fold_left (fun a ms => fold_left g ms a) lss acc = fold_left g (concat lss) acc.
Proof.
  induction lss as [|ls lss IH]; intros acc; simpl; [reflexivity|].
  rewrite IH, fold_left_app. reflexivity.
Qed.

Lemma file_positions_eq (ds : type_index) (lows : list StructMatch) :
  file_positions ds lows
  = fold_left (pair_add String.eqb)
      (map (fun m => (filename m, span_of m)) (flat_map snd ds ++ lows)) [].
Proof.
  unfold file_positions, dict_values. rewrite fold_left_concat.
  rewrite <- fold_left_app. rewrite <- flat_map_concat_map.
  generalize (flat_map snd ds ++ lows). generalize (@nil (string * list span)).
  intros acc l. revert acc. induction l as [|m l IH]; intros acc; simpl; auto.
Qed.

Lemma file_positions_NoDup (ds : type_index) (lows : list StructMatch) :
  NoDup (map fst (file_positions ds lows)).
Proof.
  rewrite file_positions_eq.
  apply (fold_add_NoDup _ _ String.eqb String.eqb_eq). constructor.
Qed.

Lemma file_positions_nonempty (ds : type_index) (lows : list StructMatch)
      (fname : string) (ps : list span) :
  In (fname, ps) (file_positions ds lows) -> ps <> [].
Proof.
  rewrite file_positions_eq. intros H.
  eapply (fold_add_nonempty _ _ String.eqb String.eqb_eq); [|exact H].
  intros j vs [].
Qed.

(** Every span of the plan is the span of an occurrence of that file. *)
Lemma file_positions_In (ds : type_index) (lows : list StructMatch)
      (fname : string) (ps : list span) (p : span) :
  In (fname, ps) (file_positions ds lows) -> In p ps ->
  exists o, In o (flat_map snd ds ++ lows) /\ filename o = fname /\ span_of o = p.
Proof.
  rewrite file_positions_eq. intros H Hp.
  destruct (fold_add_In _ _ String.eqb String.eqb_eq _ _ _ _ _ H Hp)
    as [H'|(ws & [] & _)].
  apply in_map_iff in H'. destruct H' as (o & E & Ho). inversion E; subst.
  exists o. auto.
Qed.

Lemma filter_map_pair (l : list StructMatch) (fname : string) :
  map snd (filter (fun o : string * span => String.eqb fname (fst o))
             (map (fun m => (filename m, span_of m)) l))
  = map span_of (filter (fun m => String.eqb fname (filename m)) l).
Proof.
  induction l as [|m l IH]; simpl; [reflexivity|].
  destruct (String.eqb fname (filename m)); simpl; rewrite IH; reflexivity.
Qed.

(** The spans planned for a file are those of its occurrences, promoted
    ones first. *)
Lemma file_positions_get (ds : type_index) (lows : list StructMatch)
      (fname : string) :
  dict_get String.eqb fname (file_positions ds lows)
  = match map span_of (filter (fun m => String.eqb fname (filename m))
                         (flat_map snd ds ++ lows)) with
    | [] => None
    | ps => Some ps
    end.
Proof.
  rewrite file_positions_eq.
  rewrite (fold_add_get _ _ String.eqb String.eqb_eq). simpl.
  rewrite filter_map_pair. reflexivity.
Qed.

(** ** The rewrite loop *)

Lemma rewrite_file_result (contents : contents_index) (fname : string)
      (ps : list span) (old : text) (fs : directory) :
  dict_get String.eqb fname contents = Some old ->
  rewrite_file contents (fname, ps) fs
  = (Some tt,
     if nonempty ps && negb (text_eqb (delete_spans old ps) old)
     then dict_set String.eqb fname (delete_spans old ps) fs else fs).
Proof.
  intros H. unfold rewrite_file. destruct ps as [|p ps]; [reflexivity|].
  rewrite H. destruct (text_eqb (delete_spans old (p :: ps)) old); reflexivity.
Qed.

(** The loop over the plan succeeds when every planned file was read at
    scan time; it leaves alone the files that are not in the plan and
    gives each planned file whose text changes its scan-time text
    without the planned spans. *)
Lemma for_each_rewrite (contents : contents_index)
      (entries : list (string * list span)) :
  forall fs,
    (forall f ps, In (f, ps) entries ->
             exists old, dict_get String.eqb f contents = Some old) ->
    exists fs',
      for_each entries (rewrite_file contents) fs = (Some tt, fs')
      /\ (forall g, ~ In g (map fst entries) ->
               dict_get String.eqb g fs' = dict_get String.eqb g fs)
      /\ (NoDup (map fst entries) ->
          forall g ps old,
            In (g, ps) entries -> ps <> [] ->
            dict_get String.eqb g contents = Some old ->
            text_eqb (delete_spans old ps) old = false ->
            dict_get String.eqb g fs' = Some (delete_spans old ps)).
Proof.
  induction entries as [|[f ps] entries IH]; intros fs Hread.
  - exists fs. split; [reflexivity|]. split; [reflexivity|]. intros _ g ps old [].
  - destruct (Hread f ps (or_introl eq_refl)) as [old Hold].
    pose proof (rewrite_file_result contents f ps old fs Hold) as Hrw.
    set (fs1 := if nonempty ps && negb (text_eqb (delete_spans old ps) old)
                then dict_set String.eqb f (delete_spans old ps) fs else fs) in *.
    destruct (IH fs1) as (fs' & Hrun & Hframe & Hwrite).
    { intros f' ps' H. apply (Hread f' ps'). right. assumption. }
    assert (Hfs1 : forall g, g <> f ->
                        dict_get String.eqb g fs1 = dict_get String.eqb g fs).
    { intros g Hg. unfold fs1.
      destruct (nonempty ps && negb (text_eqb (delete_spans old ps) old));
        [|reflexivity].
      rewrite (dict_get_set _ _ String.eqb String.eqb_eq).
      destruct (String.eqb g f) eqn:E; [|reflexivity].
      apply String.eqb_eq in E. contradiction. }
    exists fs'. split; [|split].
    + cbn [for_each]. unfold bind. rewrite Hrw. exact Hrun.
    + intros g Hg. simpl in Hg. rewrite Hframe by tauto.
      apply Hfs1. intros ->. tauto.
    + intros Hn g ps' old' Hin Hne Hold' Hneq.
      inversion Hn as [|? ? Hnotin Hn']; subst.
      destruct Hin as [Hin|Hin].
      * inversion Hin; subst g ps'. rewrite Hold in Hold'. inversion Hold'; subst old'.
        rewrite Hframe by assumption. unfold fs1.
        destruct ps as [|p ps]; [congruence|]. cbn [nonempty andb].
        rewrite Hneq. cbn [negb].
        rewrite (dict_get_set _ _ String.eqb String.eqb_eq), String.eqb_refl.
        reflexivity.
      * eapply Hwrite; eassumption.
Qed.

(** ** The run *)

Lemma print_summary_Some (locs : type_index) (typecount : Z) (ft : type_index) :
  print_summary locs typecount = Some ft ->
  ft = filter (fun e => qualifies typecount (snd e)) locs /\ nonempty ft = true.
Proof.
  unfold print_summary.
  destruct (filter (fun e => qualifies typecount (snd e)) locs) eqn:E;
    [discriminate|].
  intros H. inversion H; subst. split; reflexivity.
Qed.

Lemma type_locations_nonempty (dir : directory) (n : text) (ms : list StructMatch) :
  In (n, ms) (type_locations (scan_rust_files dir)) -> ms <> [].
Proof.
  rewrite scan_type_locations. intros H.
  eapply (fold_add_nonempty _ _ text_eqb text_eqb_eq); [|exact H].
  intros j vs [].
Qed.

(** Every occurrence of the plan was matched in a Rust file of the
    directory, which has the occurrence's name. *)
Lemma planned_occurrence (dir : directory) (typecount : Z) (ft : type_index)
      (o : StructMatch) :
  print_summary (type_locations (scan_rust_files dir)) typecount = Some ft ->
  In o (flat_map snd ft ++ lowercase_matches (scan_rust_files dir)) ->
  exists n file_text,
    In (filename o, file_text) dir /\ is_rust_file (filename o) = true
    /\ In (n, o) (occurrences_of_file (filename o, file_text)).
Proof.
  intros Hps Ho. apply print_summary_Some in Hps. destruct Hps as [-> _].
  assert (H : exists n, In (n, o) (all_occurrences dir)).
  { apply in_app_or in Ho. destruct Ho as [Ho|Ho].
    - apply in_flat_map in Ho. destruct Ho as ([n ms] & Hin & Ho).
      apply filter_In in Hin. destruct Hin as [Hin _].
      exists n. eapply type_locations_In; eassumption.
    - apply lowercase_In in Ho. destruct Ho as (n & Ho & _). exists n. assumption. }
  destruct H as (n & H). apply all_occurrences_In in H.
  destruct H as ([f file_text] & Hin & Hr & Hocc).
  pose proof (occurrences_of_file_In _ _ _ Hocc) as (Hf & _). simpl in Hf, Hr.
  exists n, file_text. rewrite Hf. auto.
Qed.

Lemma Permutation_filter_map (X Y : Type) (f : X -> Y) (p : X -> bool)
      (l l' : list X) :
  Permutation l l' -> Permutation (map f (filter p l)) (map f (filter p l')).
Proof.
  induction 1 as [|x l l' H IH|x y l|l l' l'' H1 IH1 H2 IH2]; simpl.
  - constructor.
  - destruct (p x); simpl; auto.
  - destruct (p x), (p y); simpl; auto. apply perm_swap.
  - etransitivity; eassumption.
Qed.

Lemma filter_all (X : Type) (p : X -> bool) (l : list X) :
  (forall x, In x l -> p x = true) -> filter p l = l.
Proof.
  induction l as [|x l IH]; simpl; intros H; [reflexivity|].
  rewrite (H x) by auto. f_equal. apply IH. auto.
Qed.

Lemma filter_none (X : Type) (p : X -> bool) (l : list X) :
  (forall x, In x l -> p x = false) -> filter p l = [].
Proof.
  induction l as [|x l IH]; simpl; intros H; [reflexivity|].
  rewrite (H x) by auto. apply IH. auto.
Qed.

Lemma occurrences_of_file_spans (file : string * text) :
  map span_of (map snd (occurrences_of_file file)) = type_spans (snd file).
Proof.
  unfold occurrences_of_file, type_spans. rewrite !map_map. reflexivity.
Qed.

(** The occurrences of one file name have distinct spans. *)
Lemma spans_of_name_NoDup (files : list (string * text)) (g : string) :
  NoDup (map fst files) ->
  NoDup (map span_of
           (filter (fun m => String.eqb g (filename m))
              (map snd (flat_map occurrences_of_file files)))).
Proof.
  induction files as [|[f t] files IH]; intros Hn; [constructor|].
  inversion Hn as [|? ? Hnotin Hn']; subst.
  cbn [flat_map]. rewrite map_app, filter_app, map_app.
  destruct (String.eqb g f) eqn:E.
  - apply String.eqb_eq in E. subst f.
    rewrite filter_all, occurrences_of_file_spans.
    + rewrite (filter_none _ _ (map snd (flat_map occurrences_of_file files))).
      * rewrite app_nil_r. eapply ascending_NoDup. apply type_spans_ascending.
      * intros m Hm. apply in_map_iff in Hm. destruct Hm as ([n o] & <- & Ho).
        apply in_flat_map in Ho. destruct Ho as ([f' t'] & Hf' & Ho).
        apply occurrences_of_file_In in Ho. destruct Ho as (Ho & _). simpl in *.
        rewrite Ho. apply String.eqb_neq. intros ->. apply Hnotin.
        apply in_map_iff. exists (f', t'). auto.
    + intros m Hm. apply in_map_iff in Hm. destruct Hm as ([n o] & <- & Ho).
      apply occurrences_of_file_In in Ho. destruct Ho as (Ho & _). simpl in *.
      rewrite Ho. apply String.eqb_refl.
  - rewrite filter_none.
    + simpl. apply IH. assumption.
    + intros m Hm. apply in_map_iff in Hm. destruct Hm as ([n o] & <- & Ho).
      apply occurrences_of_file_In in Ho. destruct Ho as (Ho & _). simpl in *.
      rewrite Ho. assumption.
Qed.

Lemma flat_map_filter_perm (X Y : Type) (f : X -> list Y) (q : X -> bool)
      (l : list X) :
  Permutation (flat_map f (filter q l) ++ flat_map f (filter (fun x => negb (q x)) l))
              (flat_map f l).
Proof.
  induction l as [|x l IH]; simpl; [constructor|].
  destruct (q x); simpl.
  - rewrite <- app_assoc. apply Permutation_app_head. assumption.
  - rewrite app_assoc.
    rewrite (Permutation_app_comm (flat_map f (filter q l)) (f x)).
    rewrite <- app_assoc. apply Permutation_app_head. assumption.
Qed.

(** The spans planned for one file are matched spans of its scan-time
    text, each listed once. *)
Lemma planned_spans (dir : directory) (typecount : Z) (ft : type_index)
      (g : string) (old : text) :
  NoDup (map fst dir) -> In (g, old) dir ->
  print_summary (type_locations (scan_rust_files dir)) typecount = Some ft ->
  let positions :=
    map span_of
      (filter (fun m => String.eqb g (filename m))
         (flat_map snd ft ++ lowercase_matches (scan_rust_files dir))) in
  NoDup positions /\ incl positions (type_spans old).
Proof.
  intros Hn Hg Hps positions. split.
  - pose proof (print_summary_Some _ _ _ Hps) as [Hft _].
    pose proof (catalog_perm dir) as Hperm.
    set (locs := type_locations (scan_rust_files dir)) in *.
    set (lows := lowercase_matches (scan_rust_files dir)) in *.
    set (q := fun e : text * list StructMatch => qualifies typecount (snd e)) in *.
    assert (Hall : Permutation
                     ((flat_map snd ft ++ lows)
                      ++ flat_map snd (filter (fun x => negb (q x)) locs))
                     (map snd (all_occurrences dir))).
    { rewrite <- Hperm. rewrite <- (flat_map_filter_perm _ _ snd q locs).
      rewrite <- Hft. rewrite <- !app_assoc. apply Permutation_app_head.
      apply Permutation_app_comm. }
    apply (Permutation_filter_map _ _ span_of
             (fun m => String.eqb g (filename m))) in Hall.
    rewrite filter_app, map_app in Hall.
    assert (Hnd : NoDup (map span_of
                           (filter (fun m => String.eqb g (filename m))
                              (map snd (all_occurrences dir))))).
    { unfold all_occurrences. apply spans_of_name_NoDup.
      unfold rust_files. apply NoDup_map_filter. assumption. }
    apply (Permutation_NoDup (Permutation_sym Hall)) in Hnd.
    apply NoDup_app_remove_r in Hnd. exact Hnd.
  - intros p Hp. unfold positions in Hp. apply in_map_iff in Hp.
    destruct Hp as (o & <- & Ho). apply filter_In in Ho. destruct Ho as [Ho Hf].
    apply String.eqb_eq in Hf.
    destruct (planned_occurrence dir typecount ft o Hps Ho)
      as (n & file_text & Hin & _ & Hocc).
    rewrite <- Hf in Hin.
    assert (file_text = old) by (eapply NoDup_fst_unique; eassumption). subst.
    apply occurrences_of_file_In in Hocc. tauto.
Qed.

Lemma planned_files_read (dir : directory) (typecount : Z) (ft : type_index)
      (f : string) (ps : list span) :
  NoDup (map fst dir) ->
  print_summary (type_locations (scan_rust_files dir)) typecount = Some ft ->
  In (f, ps) (file_positions ft (lowercase_matches (scan_rust_files dir))) ->
  exists old,
    In (f, old) dir
    /\ dict_get String.eqb f (file_contents (scan_rust_files dir)) = Some old.
Proof.
  intros Hn Hps Hin.
  pose proof (file_positions_nonempty _ _ _ _ Hin) as Hne.
  destruct ps as [|p ps]; [congruence|].
  destruct (file_positions_In _ _ _ _ p Hin (or_introl eq_refl))
    as (o & Ho & Hf & _).
  destruct (planned_occurrence dir typecount ft o Hps Ho)
    as (n & file_text & Hd & Hr & _).
  rewrite Hf in Hd, Hr. exists file_text. split; [assumption|].
  apply file_contents_get; assumption.
Qed.

(** When some type qualifies, the run writes the shared module and then
    runs the rewrite loop over the plan. *)
Lemma main_promoting (typecount : Z) (fs : directory) (ft : type_index) :
  print_summary (type_locations (scan_rust_files fs)) typecount = Some ft ->
  main_body typecount fs
  = (generate_common_file ft common_rs ;;;
     for_each (file_positions ft (lowercase_matches (scan_rust_files fs)))
       (rewrite_file (file_contents (scan_rust_files fs)))) fs.
Proof.
  intros Hps. unfold main_body. rewrite Hps.
  apply print_summary_Some in Hps. destruct Hps as [_ Hne].
  unfold truthy. rewrite Hne. reflexivity.
Qed.

(** C9. In a run where the shared module, as scanned, holds an
    occurrence of a promoted name, [generate_common_file] first writes
    the merged content and the rewrite loop then replaces it: the run
    succeeds and leaves in [common.rs] the scan-time text without the
    spans planned for it, among them the span of that occurrence.  The
    text left is the part of the scan-time text outside those spans, and
    is shorter than it by their total length. *)
Theorem rewrite_overwrites_shared_module (typecount : Z) (fs : directory)
        (old : text) (ft : type_index) (n : text) (ms : list StructMatch)
        (occ : StructMatch) :
  NoDup (map fst fs) ->
  In (common_rs, old) fs ->
  print_summary (type_locations (scan_rust_files fs)) typecount = Some ft ->
  In (n, ms) ft -> In occ ms -> filename occ = common_rs ->
  exists merged positions fs',
    generate_common_file ft common_rs fs
    = (Some tt, dict_set String.eqb common_rs merged fs)
    /\ prefix (rstrip_nl old) merged
    /\ dict_get String.eqb common_rs
         (file_positions ft (lowercase_matches (scan_rust_files fs)))
       = Some positions
    /\ In (span_of occ) positions
    /\ main typecount fs = (0%Z, fs')
    /\ dict_get String.eqb common_rs fs' = Some (delete_spans old positions)
    /\ delete_spans old positions = keep_outside old positions
    /\ length (delete_spans old positions) + total_len positions = length old
    /\ 0 < total_len positions.
Proof.
  intros Hn Hold Hps Hin Hocc Hf.
  set (sc := scan_rust_files fs) in *.
  set (positions :=
         map span_of
           (filter (fun m => String.eqb common_rs (filename m))
              (flat_map snd ft ++ lowercase_matches sc))).
  destruct (planned_spans fs typecount ft common_rs old Hn Hold Hps)
    as [Hnd Hincl]. fold sc in Hnd, Hincl. fold positions in Hnd, Hincl.
  assert (Hspan : In (span_of occ) positions).
  { unfold positions. apply in_map. apply filter_In. split.
    - apply in_or_app. left. apply in_flat_map. exists (n, ms). auto.
    - rewrite Hf. apply String.eqb_refl. }
  assert (Hget : dict_get String.eqb common_rs (file_positions ft (lowercase_matches sc))
                 = Some positions).
  { rewrite file_positions_get. fold positions.
    destruct positions; [contradiction | reflexivity]. }
  assert (Hne : forall n' ms', In (n', ms') ft -> ms' <> []).
  { intros n' ms' H. pose proof (print_summary_Some _ _ _ Hps) as [E _].
    rewrite E in H. apply filter_In in H. destruct H as [H _].
    eapply type_locations_nonempty. exact H. }
  destruct (generate_common_file_eq ft common_rs fs Hne) as (blocks & Egen & _).
  assert (Eold : content_of common_rs fs = old).
  { unfold content_of.
    rewrite (dict_get_In _ _ String.eqb String.eqb_eq common_rs old fs Hn Hold).
    reflexivity. }
  rewrite Eold in Egen.
  set (merged := rstrip_nl old ++ flat_map (cons nl) blocks ++ [nl; nl]) in *.
  set (fs1 := dict_set String.eqb common_rs merged fs) in *.
  destruct (for_each_rewrite (file_contents sc)
              (file_positions ft (lowercase_matches sc)) fs1)
    as (fs' & Hrun & _ & Hwrite).
  { intros f ps H.
    destruct (planned_files_read fs typecount ft f ps Hn Hps H) as (o & _ & Ho).
    exists o. exact Ho. }
  pose proof (delete_spans_length old positions Hnd Hincl) as Hlen.
  assert (Hpos : 0 < total_len positions).
  { eapply total_len_positive; [apply type_spans_ascending | exact Hincl |].
    intros E. rewrite E in Hspan. contradiction. }
  exists merged, positions, fs'.
  split; [exact Egen|]. split; [eexists; reflexivity|].
  split; [exact Hget|]. split; [exact Hspan|].
  split; [|split; [|split; [|split]]].
  - unfold main. rewrite (main_promoting typecount fs ft Hps).
    unfold bind at 1. rewrite Egen. fold sc. fold fs1. rewrite Hrun. reflexivity.
  - apply (Hwrite (file_positions_NoDup _ _) common_rs positions old).
    + apply (dict_get_Some_In _ _ String.eqb String.eqb_eq). exact Hget.
    + intros E. rewrite E in Hspan. contradiction.
    + apply file_contents_get; [assumption|assumption|reflexivity].
    + apply text_eqb_length. lia.
  - unfold delete_spans.
    rewrite (fold_delete_keep _ (length old) old).
    + apply keep_outside_perm. apply sort_reverse_perm.
    + eapply selection_descending; eauto using type_spans_ascending.
    + apply le_n.
  - exact Hlen.
  - exact Hpos.
Qed.

(** C10, as amended.  Every match of the declaration pattern starts with
    two newlines followed by the comment; so a declaration comment that
    does not follow two newlines (at offset 0, or after a single newline)
    is the start of no match, no occurrence of the catalog starts there
    and no planned deletion begins there. *)
Theorem blank_line_required :
  (forall file_text m,
      In m (finditer type_pattern file_text) ->
      exists a t, file_text = a ++ [nl; nl] ++ T "// " ++ t /\ m_start m = length a)
  /\ (forall pre t m,
         (forall pre', pre <> pre' ++ [nl; nl]) ->
         In m (finditer type_pattern (pre ++ T "// " ++ t)) ->
         m_start m + 2 <> length pre)
  /\ (forall dir n o,
         In (n, o) (all_occurrences dir) ->
         exists file_text a t,
           In (filename o, file_text) dir
           /\ file_text = a ++ [nl; nl] ++ T "// " ++ t /\ start_pos o = length a)
  /\ (forall dir typecount ft fname ps p,
         print_summary (type_locations (scan_rust_files dir)) typecount = Some ft ->
         In (fname, ps)
            (file_positions ft (lowercase_matches (scan_rust_files dir))) ->
         In p ps ->
         exists file_text a t,
           In (fname, file_text) dir
           /\ file_text = a ++ [nl; nl] ++ T "// " ++ t /\ fst p = length a).
Proof.
  assert (H1 : forall file_text m,
             In m (finditer type_pattern file_text) ->
             exists a t, file_text = a ++ [nl; nl] ++ T "// " ++ t
                         /\ m_start m = length a).
  { intros file_text m Hm. apply finditer_sound in Hm.
    destruct Hm as (a & c & b & E & Hs & _ & Hl).
    apply type_pattern_lang in Hl. destruct Hl as [t ->].
    exists a, (t ++ b). split; [|assumption].
    rewrite E. rewrite <- !app_assoc. reflexivity. }
  assert (H3 : forall dir n o,
             In (n, o) (all_occurrences dir) ->
             exists file_text a t,
               In (filename o, file_text) dir
               /\ file_text = a ++ [nl; nl] ++ T "// " ++ t
               /\ start_pos o = length a).
  { intros dir n o Ho. apply all_occurrences_In in Ho.
    destruct Ho as ([f file_text] & Hin & _ & Ho).
    apply occurrences_of_file_In in Ho.
    destruct Ho as (Hf & _ & _ & m & Hm & Hs & _). simpl in Hf, Hm.
    destruct (H1 _ _ Hm) as (a & t & E & Ha).
    exists file_text, a, t. rewrite Hf, Hs. auto. }
  split; [exact H1|]. split; [|split; [exact H3|]].
  - intros pre t m Hpre Hm Hlen.
    destruct (H1 _ _ Hm) as (a & t' & E & Ha).
    apply (Hpre a).
    apply (f_equal (firstn (length pre))) in E.
    rewrite firstn_app, Nat.sub_diag, firstn_all in E. simpl in E.
    rewrite app_nil_r in E. rewrite E.
    rewrite <- Hlen, Ha. rewrite firstn_app_2. reflexivity.
  - intros dir typecount ft fname ps p Hps Hin Hp.
    destruct (file_positions_In _ _ _ _ p Hin Hp) as (o & Ho & Hf & Hsp).
    destruct (planned_occurrence dir typecount ft o Hps Ho)
      as (n & file_text & Hd & Hr & Hocc).
    assert (Hall : In (n, o) (all_occurrences dir)).
    { unfold all_occurrences. apply in_flat_map.
      exists (filename o, file_text). split; [|assumption].
      unfold rust_files. apply filter_In. auto. }
    destruct (H3 _ _ _ Hall) as (file_text' & a & t & Hd' & E & Ha).
    exists file_text', a, t. rewrite <- Hf, <- Hsp. auto.
Qed.

Lemma blank_line_required_witness :
  comment_first_rs = [] ++ T "// " ++ T "Old ..." ++ decl "pub enum" "Baz" ""
  /\ type_spans comment_first_rs = [(10, 418)]
  /\ m_start (hd (ReMatch 0 0 []) (finditer type_pattern comment_first_rs)) + 2
     <> length (@nil ascii).
Proof.
  split; [reflexivity|]. split; [vm_compute; reflexivity|].
  apply (proj1 (proj2 blank_line_required) []
           (T "Old ..." ++ decl "pub enum" "Baz" "")).
  - intros pre' E. destruct pre'; discriminate.
  - vm_compute. left. reflexivity.
Defined.

(** C10, the counterexample: the complete declaration of [B] follows a
    single newline, and the run at threshold 0 removes it from its file:
    it lies inside the span matched for [A], whose body runs up to the
    first closing idiom. *)
Lemma enclosed_declaration_removed :
  open_rs = open_pre ++ block "pub struct" "B" ""
  /\ (forall pre', open_pre <> pre' ++ [nl; nl])
  /\ type_spans open_rs = [(0, length open_rs)]
  /\ fst (main 0 open_dir) = 0%Z
  /\ content_of "a.rs" (snd (main 0 open_dir)) = []
  /\ content_of common_rs (snd (main 0 open_dir)) = [nl] ++ open_rs ++ [nl].
Proof.
  split; [reflexivity|]. split.
  - intros pre' E. apply (f_equal (@rev ascii)) in E.
    rewrite rev_app_distr in E. vm_compute in E. discriminate.
  - vm_compute. repeat split; reflexivity.
Qed.

(** C4, the counterexample: a prior module that ends in four newlines is
    not a prefix of what the writer leaves (one blank line is gone), and
    a promoted text that contains the comment line of another promoted
    name leaves that name declared twice. *)
Lemma writer_alters_and_repeats :
  content_of common_rs padded_dir = padded_common
  /\ fst (main 0 padded_dir) = 0%Z
  /\ ~ prefix padded_common (content_of common_rs (snd (main 0 padded_dir)))
  /\ content_of common_rs open_pair_dir = []
  /\ fst (main 0 open_pair_dir) = 0%Z
  /\ declared_names (content_of common_rs (snd (main 0 open_pair_dir)))
     = [T "A"; T "B"; T "B"]
  /\ ~ NoDup (declared_names (content_of common_rs (snd (main 0 open_pair_dir)))).
Proof.
  assert (H : declared_names (content_of common_rs (snd (main 0 open_pair_dir)))
              = [T "A"; T "B"; T "B"]) by (vm_compute; reflexivity).
  split; [reflexivity|]. split; [vm_compute; reflexivity|]. split.
  - intros [c E]. apply (f_equal (firstn 14)) in E.
    vm_compute in E. discriminate.
  - split; [reflexivity|]. split; [vm_compute; reflexivity|]. split; [exact H|].
    rewrite H. intros Hn. inversion Hn as [|? ? _ Hn']; subst.
    inversion Hn' as [|? ? Hnotin _]; subst. apply Hnotin. left. reflexivity.
Qed.

Lemma rewrite_overwrites_shared_module_witness :
  exists merged positions fs',
    generate_common_file
      (filter (fun e => qualifies 1 (snd e))
         (type_locations (scan_rust_files (snd (main 1 chain_dir)))))
      common_rs (snd (main 1 chain_dir))
    = (Some tt, dict_set String.eqb common_rs merged (snd (main 1 chain_dir)))
    /\ main 1 (snd (main 1 chain_dir)) = (0%Z, fs')
    /\ dict_get String.eqb common_rs fs'
       = Some (delete_spans (content_of common_rs (snd (main 1 chain_dir))) positions).
Proof.
  set (fs := snd (main 1 chain_dir)).
  set (ft := filter (fun e => qualifies 1 (snd e)) (type_locations (scan_rust_files fs))).
  assert (Hn : NoDup (map fst fs)).
  { vm_compute. repeat constructor; simpl; intuition discriminate. }
  assert (Hold : In (common_rs, content_of common_rs fs) fs).
  { vm_compute. right. left. reflexivity. }
  assert (Hps : print_summary (type_locations (scan_rust_files fs)) 1 = Some ft).
  { vm_compute. reflexivity. }
  assert (Hin : In (T "Baz", matches_of "Baz" ft) ft).
  { vm_compute. left. reflexivity. }
  assert (Hocc : In (first_match (matches_of "Baz" ft)) (matches_of "Baz" ft)).
  { vm_compute. left. reflexivity. }
  assert (Hf : filename (first_match (matches_of "Baz" ft)) = common_rs).
  { vm_compute. reflexivity. }
  destruct (rewrite_overwrites_shared_module 1 fs _ ft _ _ _ Hn Hold Hps Hin Hocc Hf)
    as (merged & positions & fs' & E1 & _ & _ & _ & E2 & E3 & _).
  exists merged, positions, fs'.
  split; [exact E1|]. split; [exact E2 | exact E3].
Defined.

(** ** The whole run *)

(** A run in which some type qualifies succeeds.  Every file of the plan
    ends as its scan-time text without its planned spans, that is, as the
    characters outside them, shorter by their total length; a file
    outside the plan is left as it was, except for the shared module,
    which then holds what [generate_common_file] wrote. *)
Theorem promoting_run_result (typecount : Z) (fs : directory) (ft : type_index) :
  NoDup (map fst fs) ->
  print_summary (type_locations (scan_rust_files fs)) typecount = Some ft ->
  let plan := file_positions ft (lowercase_matches (scan_rust_files fs)) in
  exists merged fs',
    generate_common_file ft common_rs fs
    = (Some tt, dict_set String.eqb common_rs merged fs)
    /\ main typecount fs = (0%Z, fs')
    /\ (forall g ps,
           In (g, ps) plan ->
           exists old,
             In (g, old) fs
             /\ dict_get String.eqb g fs' = Some (delete_spans old ps)
             /\ delete_spans old ps = keep_outside old ps
             /\ length (delete_spans old ps) + total_len ps = length old)
    /\ (forall g,
           ~ In g (map fst plan) ->
           dict_get String.eqb g fs'
           = if String.eqb g common_rs then Some merged
             else dict_get String.eqb g fs).
Proof.
  intros Hn Hps plan.
  set (sc := scan_rust_files fs) in *.
  assert (Hne : forall n' ms', In (n', ms') ft -> ms' <> []).
  { intros n' ms' H. pose proof (print_summary_Some _ _ _ Hps) as [E _].
    rewrite E in H. apply filter_In in H. destruct H as [H _].
    eapply type_locations_nonempty. exact H. }
  destruct (generate_common_file_eq ft common_rs fs Hne) as (blocks & Egen & _).
  set (merged := rstrip_nl (content_of common_rs fs)
                 ++ flat_map (cons nl) blocks ++ [nl; nl]) in *.
  set (fs1 := dict_set String.eqb common_rs merged fs) in *.
  destruct (for_each_rewrite (file_contents sc) plan fs1)
    as (fs' & Hrun & Hframe & Hwrite).
  { intros f ps H.
    destruct (planned_files_read fs typecount ft f ps Hn Hps H) as (o & _ & Ho).
    exists o. exact Ho. }
  exists merged, fs'.
  split; [exact Egen|]. split; [|split].
  - unfold main. rewrite (main_promoting typecount fs ft Hps).
    unfold bind at 1. rewrite Egen. fold sc. fold plan. fold fs1.
    rewrite Hrun. reflexivity.
  - intros g ps Hin.
    destruct (planned_files_read fs typecount ft g ps Hn Hps Hin)
      as (old & Hold & Hread).
    pose proof (file_positions_NoDup ft (lowercase_matches sc)) as Hkeys.
    pose proof (dict_get_In _ _ String.eqb String.eqb_eq g ps plan Hkeys Hin)
      as Hget.
    unfold plan in Hget. rewrite file_positions_get in Hget.
    destruct (planned_spans fs typecount ft g old Hn Hold Hps) as [Hnd Hincl].
    fold sc in Hnd, Hincl.
    assert (Eps : map span_of
                    (filter (fun m => String.eqb g (filename m))
                       (flat_map snd ft ++ lowercase_matches sc)) = ps).
    { destruct (map span_of
                  (filter (fun m => String.eqb g (filename m))
                     (flat_map snd ft ++ lowercase_matches sc)));
        [discriminate | congruence]. }
    rewrite Eps in Hnd, Hincl.
    pose proof (delete_spans_length old ps Hnd Hincl) as Hlen.
    pose proof (file_positions_nonempty _ _ _ _ Hin) as Hnonempty.
    assert (Hpos : 0 < total_len ps).
    { eapply total_len_positive; [apply type_spans_ascending | exact Hincl |].
      exact Hnonempty. }
    exists old. split; [exact Hold|]. split; [|split; [|exact Hlen]].
    + apply (Hwrite Hkeys g ps old Hin Hnonempty Hread).
      apply text_eqb_length. lia.
    + unfold delete_spans.
      rewrite (fold_delete_keep _ (length old) old).
      * apply keep_outside_perm. apply sort_reverse_perm.
      * eapply selection_descending; eauto using type_spans_ascending.
      * apply le_n.
  - intros g Hg. rewrite (Hframe g Hg). unfold fs1.
    apply (dict_get_set _ _ String.eqb String.eqb_eq).
Qed.

Lemma promoting_run_result_witness :
  exists merged fs',
    generate_common_file
      (filter (fun e => qualifies 1 (snd e))
         (type_locations (scan_rust_files chain_dir)))
      common_rs chain_dir
    = (Some tt, dict_set String.eqb common_rs merged chain_dir)
    /\ main 1 chain_dir = (0%Z, fs').
Proof.
  assert (Hn : NoDup (map fst chain_dir)).
  { repeat constructor. intros []. }
  assert (Hps : print_summary (type_locations (scan_rust_files chain_dir)) 1
                = Some (filter (fun e => qualifies 1 (snd e))
                          (type_locations (scan_rust_files chain_dir)))).
  { vm_compute. reflexivity. }
  destruct (promoting_run_result 1 chain_dir _ Hn Hps)
    as (merged & fs' & E1 & E2 & _).
  exists merged, fs'. split; [exact E1 | exact E2].
Defined.

(** A run in which no type qualifies writes nothing: it ends with status
    0 when nothing was matched outside the promotable index, and with
    status 1 when there are violations. *)
Theorem run_without_promotion (typecount : Z) (fs : directory) :
  print_summary (type_locations (scan_rust_files fs)) typecount = None ->
  main typecount fs
  = ((if nonempty (lowercase_matches (scan_rust_files fs)) then 1 else 0)%Z, fs).
Proof.
  intros H.
  destruct (nonempty (lowercase_matches (scan_rust_files fs))) eqn:E.
  - apply main_raises; assumption.
  - unfold main, main_body. rewrite H, E. reflexivity.
Qed.

Lemma run_without_promotion_witness :
  main 1 widget_dir = (0%Z, widget_dir).
Proof.
  assert (H : print_summary (type_locations (scan_rust_files widget_dir)) 1 = None)
    by (vm_compute; reflexivity).
  assert (E : nonempty (lowercase_matches (scan_rust_files widget_dir)) = false)
    by (vm_compute; reflexivity).
  pose proof (run_without_promotion 1 widget_dir H) as R.
  rewrite E in R. exact R.
Defined.

(** ** The occurrences *)

(** The shape of a matched declaration. *)
Lemma type_pattern_shape (c : text) :
  lang type_pattern c ->
  exists name kw blank word body,
    c = [nl; nl] ++ T "// " ++ name ++ T " ..." ++ [nl] ++ header
        ++ kw ++ blank ++ word ++ body ++ footer
    /\ name <> [] /\ Forall (fun x => is_word x = true) name
    /\ (kw = T "pub struct" \/ kw = T "pub enum")
    /\ blank <> [] /\ Forall (fun x => is_space x = true) blank
    /\ word <> [] /\ Forall (fun x => is_word x = true) word.
Proof.
  unfold type_pattern. cbn [lang].
  intros (c1 & r1 & -> & -> & name & r2 & -> & [Hn1 Hn2] & c3 & r3 & -> & ->
          & c4 & r4 & -> & -> & kw & r5 & -> & Hkw & blank & r6 & -> & [Hb1 Hb2]
          & word & r7 & -> & [Hw1 Hw2] & body & r8 & -> & _ & ->).
  exists name, kw, blank, word, body.
  split; [rewrite <- !app_assoc; reflexivity|].
  repeat split; auto.
  - intros ->. simpl in Hn1. lia.
  - intros ->. simpl in Hb1. lia.
  - intros ->. simpl in Hw1. lia.
Qed.

Lemma type_match_text (file_text : text) (m : re_match) :
  In m (finditer type_pattern file_text) ->
  exists a c b,
    file_text = a ++ c ++ b /\ m_start m = length a
    /\ m_end m = length a + length c
    /\ group 1 m = Some c /\ lang type_pattern c.
Proof.
  intros H. apply finditer_from_attempt in H.
  destruct H as (a & b & q & len & E1 & _ & E3 & E4 & E5).
  apply match_at_group in E5. destruct E5 as (c & b' & F1 & F2 & F3 & F4).
  exists a, c, b'. subst. simpl in *. repeat split; auto; lia.
Qed.

(** Every occurrence of the catalog lies in a file of the directory that
    has its name; its offsets delimit a non-empty span of that file's
    text, and its stored text is the text of that span: two newlines, the
    comment with the declared name, the annotation header, the
    declaration, and the closing idiom at the end. *)
Theorem occurrence_invariant (dir : directory) (o : StructMatch) :
  In o (flat_map snd (type_locations (scan_rust_files dir))
        ++ lowercase_matches (scan_rust_files dir)) ->
  exists file_text,
    In (filename o, file_text) dir
    /\ start_pos o < end_pos o /\ end_pos o <= length file_text
    /\ content o
       = firstn (end_pos o - start_pos o) (skipn (start_pos o) file_text)
    /\ exists t, content o = [nl; nl] ++ T "// " ++ t ++ footer.
Proof.
  intros H.
  apply (Permutation_in _ (catalog_perm dir)) in H.
  apply in_map_iff in H. destruct H as ([n o'] & E & H). simpl in E. subst o'.
  apply all_occurrences_In in H. destruct H as ([f file_text] & Hin & _ & Ho).
  unfold occurrences_of_file in Ho. apply in_map_iff in Ho.
  destruct Ho as (m & E & Hm). simpl in Hm, E.
  apply type_match_text in Hm.
  destruct Hm as (a & c & b & Et & Hs & He & Hg & Hl).
  unfold occurrence in E. inversion E; subst n o. simpl.
  unfold group_text. rewrite Hg.
  pose proof (type_pattern_nonempty _ Hl) as Hpos.
  exists file_text. split; [assumption|].
  split; [lia|]. split; [rewrite Et, !length_app; lia|]. split.
  - rewrite Hs, He, Et.
    rewrite skipn_app, skipn_all, Nat.sub_diag. simpl.
    replace (length a + length c - length a) with (length c) by lia.
    rewrite firstn_app, firstn_all, Nat.sub_diag. simpl.
    rewrite app_nil_r. reflexivity.
  - apply type_pattern_shape in Hl.
    destruct Hl as (name & kw & blank & word & body & -> & _).
    exists (name ++ T " ..." ++ [nl] ++ header ++ kw ++ blank ++ word ++ body).
    rewrite <- !app_assoc. reflexivity.
Qed.

Lemma occurrence_invariant_witness :
  exists file_text,
    In (filename (first_match (lowercase_matches (scan_rust_files helper_dir))),
        file_text) helper_dir
    /\ content (first_match (lowercase_matches (scan_rust_files helper_dir)))
       = firstn (end_pos (first_match (lowercase_matches (scan_rust_files helper_dir)))
                 - start_pos (first_match (lowercase_matches (scan_rust_files helper_dir))))
           (skipn (start_pos (first_match (lowercase_matches (scan_rust_files helper_dir))))
              file_text).
Proof.
  assert (H : In (first_match (lowercase_matches (scan_rust_files helper_dir)))
                 (flat_map snd (type_locations (scan_rust_files helper_dir))
                  ++ lowercase_matches (scan_rust_files helper_dir))).
  { vm_compute. left. reflexivity. }
  destruct (occurrence_invariant helper_dir _ H) as (file_text & H1 & _ & _ & H2 & _).
  exists file_text. split; [exact H1 | exact H2].
Defined.

(** ** The results of a pattern *)

Lemma first_some_app (X Y : Type) (k : X -> option Y) (l1 l2 : list X) :
  first_some k (l1 ++ l2)
  = match first_some k l1 with Some y => Some y | None => first_some k l2 end.
Proof.
  induction l1 as [|x l1 IH]; simpl; [reflexivity|].
  destruct (k x); [reflexivity | exact IH].
Qed.

Lemma first_some_ext (X Y : Type) (k k' : X -> option Y) (l : list X) :
  (forall x, k x = k' x) -> first_some k l = first_some k' l.
Proof.
  intros H. induction l as [|x l IH]; simpl; [reflexivity|].
  rewrite H, IH. reflexivity.
Qed.

Lemma first_some_flat_map (X Y Z : Type) (k : Y -> option Z) (f : X -> list Y)
      (l : list X) :
  first_some k (flat_map f l) = first_some (fun x => first_some k (f x)) l.
Proof.
  induction l as [|x l IH]; simpl; [reflexivity|].
  rewrite first_some_app, IH. reflexivity.
Qed.

Lemma first_some_map (X Y Z : Type) (k : Y -> option Z) (f : X -> Y) (l : list X) :
  first_some k (map f l) = first_some (fun x => k (f x)) l.
Proof.
  induction l as [|x l IH]; simpl; [reflexivity|].
  rewrite IH. reflexivity.
Qed.

Lemma rep_results_run (A : Type) (g : bool) (cls : ascii -> bool)
      (k : mstate -> option A) (l : text) :
  forall (least : nat) (st : mstate),
    rep g cls k least l st = first_some k (rep_results g cls least l st).
Proof.
  assert (Hstop : forall least st,
             match least with 0 => k st | S _ => None end
             = first_some k (match least with 0 => [st] | S _ => [] end)).
  { intros [|n] st; simpl; [destruct (k st)|]; reflexivity. }
  induction l as [|c l IH]; intros least st; simpl.
  - apply Hstop.
  - destruct (cls c); [|apply Hstop].
    destruct g; rewrite first_some_app, <- IH, <- Hstop; reflexivity.
Qed.

(** The matcher answers with the first result of the pattern that its
    continuation accepts. *)
Lemma run_results (A : Type) (r : regex) :
  forall (st : mstate) (k : mstate -> option A),
    run r st k = first_some k (results r st).
Proof.
  induction r as [|s|g least cls|r1 IH1 r2 IH2|r1 IH1 r2 IH2|n r IH| |];
    intros st k; simpl.
  - destruct (k st); reflexivity.
  - destruct (lit s (rest st) st); simpl; [destruct (k m)|]; reflexivity.
  - apply rep_results_run.
  - rewrite IH1, first_some_flat_map. apply first_some_ext. intros x. apply IH2.
  - rewrite first_some_app, IH1, IH2. reflexivity.
  - rewrite IH, first_some_map. reflexivity.
  - destruct (prev st) as [c|]; [destruct (Ascii.eqb c nl)|]; simpl;
      try destruct (k st); reflexivity.
  - destruct (rest st) as [|c [|d l]]; [|destruct (Ascii.eqb c nl)|]; simpl;
      try destruct (k st); reflexivity.
Qed.

(** ** The state after a text *)

Lemma advance_all_fields (c l : text) (st : mstate) :
  rest st = c ++ l ->
  rest (advance_all c l st) = l
  /\ used (advance_all c l st) = used st + length c
  /\ opened (advance_all c l st) = map (push c) (opened st)
  /\ caps (advance_all c l st) = caps st
  /\ prev (advance_all c l st) = prev_after (prev st) c.
Proof.
  revert st. induction c as [|x c IH]; intros st H; simpl.
  - repeat split; auto.
    rewrite <- (map_id (opened st)) at 1. apply map_ext. intros [n acc]. reflexivity.
  - destruct (IH (advance x (c ++ l) st) eq_refl) as (E1 & E2 & E3 & E4 & E5).
    rewrite E1, E2, E3, E4, E5. simpl.
    split; [reflexivity|]. split; [lia|]. split; [|split; reflexivity].
    rewrite map_map. apply map_ext. intros [n acc]. unfold push. simpl.
    rewrite <- app_assoc. reflexivity.
Qed.

Lemma lit_advance (s l : text) (st st' : mstate) :
  lit s l st = Some st' -> exists l', l = s ++ l' /\ st' = advance_all s l' st.
Proof.
  revert l st. induction s as [|c s IH]; intros l st H; simpl in H.
  - inversion H; subst. exists l. auto.
  - destruct l as [|d l]; [discriminate|].
    destruct (Ascii.eqb c d) eqn:E; [|discriminate].
    apply Ascii.eqb_eq in E. subst d.
    destruct (IH _ _ H) as (l' & -> & ->). exists l'. auto.
Qed.

Lemma lit_app (s l : text) (st : mstate) :
  lit s (s ++ l) st = Some (advance_all s l st).
Proof.
  revert st. induction s as [|c s IH]; intros st; simpl; [reflexivity|].
  rewrite Ascii.eqb_refl. apply IH.
Qed.

Lemma rep_results_In (g : bool) (cls : ascii -> bool) (l : text) :
  forall (least : nat) (st st' : mstate),
    In st' (rep_results g cls least l st) <->
    exists c l',
      l = c ++ l' /\ Forall (fun x => cls x = true) c /\ least <= length c
      /\ st' = advance_all c l' st.
Proof.
  assert (Hstop : forall least st st' l0,
             In st' (match least with 0 => [st] | S _ => [] end) <->
             least = 0 /\ st' = advance_all [] l0 st).
  { intros [|n] st st' l0; simpl; split.
    - intros [H|[]]. auto.
    - intros [_ H]. auto.
    - intros [].
    - intros [H _]. discriminate. }
  induction l as [|x l IH]; intros least st st'.
  - simpl. rewrite (Hstop _ _ _ []). split.
    + intros [-> ->]. exists [], []. repeat split; auto.
    + intros (c & l' & E & _ & Hle & ->).
      destruct c; [|discriminate]. simpl in *. split; [lia | reflexivity].
  - assert (Hnil : least = 0 /\ st' = st <->
                   exists c l', x :: l = c ++ l' /\ Forall (fun y => cls y = true) c
                           /\ least <= length c /\ st' = advance_all c l' st
                           /\ c = []).
    { split.
      - intros [-> ->]. exists [], (x :: l). repeat split; auto.
      - intros (c & l' & _ & _ & Hle & -> & ->). simpl in *. split; [lia | reflexivity]. }
    assert (Hcons : cls x = true ->
              (In st' (rep_results g cls (pred least) l (advance x l st)) <->
               exists c l', x :: l = c ++ l' /\ Forall (fun y => cls y = true) c
                       /\ least <= length c /\ st' = advance_all c l' st
                       /\ c <> [])).
    { intros Hx. rewrite IH. split.
      - intros (c & l' & -> & Hc & Hle & ->).
        exists (x :: c), l'. simpl. repeat split; auto; [lia | discriminate].
      - intros (c & l' & E & Hc & Hle & -> & Hne).
        destruct c as [|y c]; [congruence|]. simpl in E. inversion E; subst y l.
        exists c, l'. inversion Hc; subst. simpl in *. repeat split; auto. lia. }
    assert (Hsplit : (exists c l', x :: l = c ++ l' /\ Forall (fun y => cls y = true) c
                           /\ least <= length c /\ st' = advance_all c l' st) <->
                     (exists c l', x :: l = c ++ l' /\ Forall (fun y => cls y = true) c
                           /\ least <= length c /\ st' = advance_all c l' st
                           /\ c = [])
                     \/ (exists c l', x :: l = c ++ l' /\ Forall (fun y => cls y = true) c
                           /\ least <= length c /\ st' = advance_all c l' st
                           /\ c <> [])).
    { split.
      - intros (c & l' & H). destruct c as [|y c].
        + left. exists [], l'. tauto.
        + right. exists (y :: c), l'. repeat split; try tauto. discriminate.
      - intros [(c & l' & H)|(c & l' & H)]; exists c, l'; tauto. }
    simpl. destruct (cls x) eqn:Hx.
    + rewrite Hsplit, <- Hnil, <- (Hcons eq_refl).
      destruct g; rewrite in_app_iff, (Hstop _ _ _ []); simpl; tauto.
    + rewrite (Hstop _ _ _ []). simpl. rewrite Hnil. split.
      * intros (c & l' & H). exists c, l'. tauto.
      * intros (c & l' & E & Hc & Hle & ->). exists c, l'.
        repeat split; auto. destruct c as [|y c]; [reflexivity|].
        simpl in E. inversion E; subst y. inversion Hc; subst. congruence.
Qed.

(** ** What a result has consumed and captured *)

Lemma reaches_plain (r : regex) (st st' : mstate) (c : text) :
  rest st = c ++ rest st' -> used st' = used st + length c ->
  opened st' = map (push c) (opened st) -> caps st' = caps st ->
  lang r c -> (forall n, has_group r n = false) ->
  reaches r st st' c [].
Proof.
  intros E1 E2 E3 E4 Hl Hg. unfold reaches. repeat split; auto.
  intros n H. rewrite Hg in H. discriminate.
Qed.

Lemma reaches_advance (r : regex) (c l : text) (st : mstate) :
  rest st = c ++ l -> lang r c -> (forall n, has_group r n = false) ->
  reaches r st (advance_all c l st) c [].
Proof.
  intros E Hl Hg.
  destruct (advance_all_fields c l st E) as (E1 & E2 & E3 & E4 & _).
  apply reaches_plain; auto. congruence.
Qed.

Lemma results_reaches (r : regex) :
  forall (st st' : mstate),
    In st' (results r st) -> exists c new, reaches r st st' c new.
Proof.
  induction r as [|s|g least cls|r1 IH1 r2 IH2|r1 IH1 r2 IH2|n r IH| |];
    intros st st' H; simpl in H.
  - destruct H as [<-|[]]. exists [], [].
    replace st with (advance_all [] (rest st) st) at 2 by reflexivity.
    apply reaches_advance; auto. reflexivity.
  - destruct (lit s (rest st) st) as [st1|] eqn:E; [|contradiction].
    destruct H as [<-|[]]. apply lit_advance in E.
    destruct E as (l' & E & ->). exists s, [].
    apply reaches_advance; auto. reflexivity.
  - apply rep_results_In in H. destruct H as (c & l' & E & Hc & Hle & ->).
    exists c, []. apply reaches_advance; auto. simpl. auto.
  - apply in_flat_map in H. destruct H as (st1 & H1 & H2).
    destruct (IH1 _ _ H1) as (c1 & new1 & A1 & A2 & A3 & A4 & A5 & A6 & A7).
    destruct (IH2 _ _ H2) as (c2 & new2 & B1 & B2 & B3 & B4 & B5 & B6 & B7).
    exists (c1 ++ c2), (new2 ++ new1). unfold reaches.
    split; [rewrite <- app_assoc; congruence|].
    split; [rewrite length_app; lia|]. split; [|split; [|split; [|split]]].
    + rewrite B3, A3, map_map. apply map_ext. intros [m acc]. unfold push. simpl.
      rewrite rev_app_distr, <- app_assoc. reflexivity.
    + rewrite B4, A4, app_assoc. reflexivity.
    + simpl. exists c1, c2. auto.
    + apply Forall_app. split.
      * eapply Forall_impl; [|exact B6]. intros [m x] Hx. simpl in *. auto.
      * eapply Forall_impl; [|exact A6]. intros [m x] Hx. simpl in *. auto.
    + intros m Hm. simpl in Hm. apply orb_true_iff in Hm.
      destruct Hm as [Hm|Hm].
      * destruct (A7 _ Hm) as (c' & Hc'). exists c'. apply in_or_app. auto.
      * destruct (B7 _ Hm) as (c' & Hc'). exists c'. apply in_or_app. auto.
  - apply in_app_or in H. destruct H as [H|H].
    + destruct (IH1 _ _ H) as (c & new & A1 & A2 & A3 & A4 & A5 & A6 & A7).
      exists c, new. unfold reaches. repeat split; auto.
      * simpl. auto.
      * eapply Forall_impl; [|exact A6]. intros [m x] Hx. simpl in *. auto.
      * intros m Hm. simpl in Hm. apply andb_true_iff in Hm. apply A7. tauto.
    + destruct (IH2 _ _ H) as (c & new & A1 & A2 & A3 & A4 & A5 & A6 & A7).
      exists c, new. unfold reaches. repeat split; auto.
      * simpl. auto.
      * eapply Forall_impl; [|exact A6]. intros [m x] Hx. simpl in *. auto.
      * intros m Hm. simpl in Hm. apply andb_true_iff in Hm. apply A7. tauto.
  - apply in_map_iff in H. destruct H as (st1 & <- & H).
    destruct (IH _ _ H) as (c & new & A1 & A2 & A3 & A4 & A5 & A6 & A7).
    simpl in A1, A2, A3, A4.
    exists c, ((n, c) :: new). unfold reaches, close_group. rewrite A3. simpl.
    rewrite app_nil_r, rev_involutive, A4.
    repeat split; auto.
    + constructor; [simpl; auto|].
      eapply Forall_impl; [|exact A6]. intros [m x] Hx. simpl in *. auto.
    + intros m Hm. simpl in Hm. apply orb_true_iff in Hm.
      destruct Hm as [Hm|Hm].
      * apply Nat.eqb_eq in Hm. subst m. exists c. left. reflexivity.
      * destruct (A7 _ Hm) as (c' & Hc'). exists c'. right. exact Hc'.
  - assert (H' : st' = st).
    { destruct (prev st) as [c|]; [destruct (Ascii.eqb c nl)|];
        simpl in H; intuition. }
    subst st'. exists [], [].
    replace st with (advance_all [] (rest st) st) at 2 by reflexivity.
    apply reaches_advance; auto. reflexivity.
  - assert (H' : st' = st).
    { destruct (rest st) as [|c [|d l]]; [|destruct (Ascii.eqb c nl)|];
        simpl in H; intuition. }
    subst st'. exists [], [].
    replace st with (advance_all [] (rest st) st) at 2 by reflexivity.
    apply reaches_advance; auto. reflexivity.
Qed.

Lemma group_lookup_In (n : nat) (new old : list (nat * text)) (c : text) :
  In (n, c) new ->
  exists c', group_lookup n (new ++ old) = Some c' /\ In (n, c') new.
Proof.
  induction new as [|[m x] new IH]; simpl; [contradiction|].
  intros H. destruct (Nat.eqb n m) eqn:E.
  - apply Nat.eqb_eq in E. subst m. exists x. auto.
  - destruct H as [H|H].
    + inversion H; subst. rewrite Nat.eqb_refl in E. discriminate.
    + destruct (IH H) as (c' & E1 & E2). exists c'. auto.
Qed.

(** An attempt reports the first result of the pattern. *)
Lemma match_at_results (r : regex) (p : option ascii) (s : text) :
  match_at r p s
  = match results r (init_state p s) with
    | [] => None
    | st' :: _ => Some (used st', caps st')
    end.
Proof.
  unfold match_at. rewrite run_results.
  destruct (results r (init_state p s)); reflexivity.
Qed.

(** What a successful attempt reports: the length of a string of the
    pattern's language at the cursor, and for every group that the
    pattern always closes a string that this group can capture. *)
Lemma match_at_captures (r : regex) (p : option ascii) (s : text) (len : nat)
      (gs : list (nat * text)) :
  match_at r p s = Some (len, gs) ->
  exists c b,
    s = c ++ b /\ len = length c /\ lang r c
    /\ forall n, has_group r n = true ->
            exists t, group_lookup n gs = Some t /\ captures r n t.
Proof.
  rewrite match_at_results.
  destruct (results r (init_state p s)) as [|st' l] eqn:E; [discriminate|].
  intros H. inversion H; subst len gs.
  destruct (results_reaches r (init_state p s) st') as (c & new & A).
  { rewrite E. left. reflexivity. }
  destruct A as (A1 & A2 & _ & A4 & A5 & A6 & A7). simpl in *.
  exists c, (rest st'). repeat split; auto.
  intros n Hn. destruct (A7 _ Hn) as (c' & Hc').
  destruct (group_lookup_In n new [] c' Hc') as (t & E1 & E2).
  exists t. rewrite A4. split; [exact E1|].
  rewrite Forall_forall in A6. apply (A6 _ E2).
Qed.

(** ** The search *)

(** Every match of [finditer] is a successful attempt at its offset, made
    with the character that precedes it. *)
Lemma finditer_from_attempt_prev (r : regex) (s : text) :
  forall (p : option ascii) (pos skip : nat) (m : re_match),
    In m (finditer_from r p pos skip s) ->
    exists a b len,
      s = a ++ b /\ skip <= length a
      /\ m_start m = pos + length a /\ m_end m = m_start m + len
      /\ match_at r (prev_after p a) b = Some (len, m_groups m).
Proof.
  induction s as [|x s IH]; intros p pos skip m H.
  - destruct skip; simpl in H; [|contradiction].
    destruct (match_at r p []) as [[len gs]|] eqn:E; [|contradiction].
    destruct H as [H|[]]. subst m. simpl.
    exists [], [], len. simpl. repeat split; auto; lia.
  - assert (Hnext : forall k, In m (finditer_from r (Some x) (S pos) k s) ->
                exists a b len,
                  x :: s = a ++ b /\ S k <= length a
                  /\ m_start m = pos + length a /\ m_end m = m_start m + len
                  /\ match_at r (prev_after p a) b = Some (len, m_groups m)).
    { intros k Hin. apply IH in Hin.
      destruct Hin as (a & b & len & E1 & E2 & E3 & E4 & E5).
      exists (x :: a), b, len. simpl. repeat split; auto; try lia.
      congruence. }
    destruct skip as [|skip']; simpl in H.
    + destruct (match_at r p (x :: s)) as [[len gs]|] eqn:E.
      * destruct H as [H|H].
        -- subst m. simpl.
           exists [], (x :: s), len. simpl. repeat split; auto; lia.
        -- apply Hnext in H.
           destruct H as (a & b & len' & E1 & E2 & E3 & E4 & E5).
           exists a, b, len'. repeat split; auto; lia.
      * apply Hnext in H.
        destruct H as (a & b & len' & E1 & E2 & E3 & E4 & E5).
        exists a, b, len'. repeat split; auto; lia.
    + apply Hnext in H.
      destruct H as (a & b & len' & E1 & E2 & E3 & E4 & E5).
      exists a, b, len'. repeat split; auto; lia.
Qed.

(** Where an attempt would succeed, [finditer] has a match: the attempt
    itself, or an earlier match that extends over that offset. *)
Lemma finditer_from_covers (r : regex) (b : text) :
  (forall c, lang r c -> 0 < length c) ->
  forall (a : text) (p : option ascii) (pos skip : nat),
    skip <= length a ->
    match_at r (prev_after p a) b <> None ->
    exists m a' b' len,
      In m (finditer_from r p pos skip (a ++ b))
      /\ a ++ b = a' ++ b' /\ length a' <= length a
      /\ m_start m = pos + length a' /\ m_end m = m_start m + len
      /\ match_at r (prev_after p a') b' = Some (len, m_groups m)
      /\ pos + length a < m_end m.
Proof.
  intros Hne. induction a as [|x a IH]; intros p pos skip Hskip Hm.
  - simpl in *. assert (skip = 0) by lia. subst skip.
    destruct (match_at r p b) as [[len gs]|] eqn:E; [|congruence].
    exists (ReMatch pos (pos + len) gs), [], b, len.
    pose proof (match_at_sound _ _ _ _ _ E) as (c & b' & _ & -> & Hl).
    apply Hne in Hl. simpl.
    split; [|repeat split; auto; lia].
    destruct b; simpl; rewrite E; left; reflexivity.
  - assert (Hnext : forall k, k <= length a ->
              exists m a' b' len,
                In m (finditer_from r (Some x) (S pos) k (a ++ b))
                /\ (x :: a) ++ b = a' ++ b' /\ length a' <= length (x :: a)
                /\ m_start m = pos + length a' /\ m_end m = m_start m + len
                /\ match_at r (prev_after p a') b' = Some (len, m_groups m)
                /\ pos + length (x :: a) < m_end m).
    { intros k Hk.
      destruct (IH (Some x) (S pos) k Hk Hm)
        as (m & a' & b' & len & E1 & E2 & E3 & E4 & E5 & E6 & E7).
      exists m, (x :: a'), b', len. simpl. repeat split; auto; try lia.
      congruence. }
    simpl app. destruct skip as [|skip']; simpl finditer_from.
    + destruct (match_at r p (x :: a ++ b)) as [[len gs]|] eqn:E.
      * destruct (Nat.le_gt_cases len (S (length a))) as [Hle|Hgt].
        -- destruct (Hnext (pred len)) as (m & H); [lia|].
           destruct H as (a' & b' & len' & E1 & H).
           exists m, a', b', len'. split; [right; exact E1 | exact H].
        -- exists (ReMatch pos (pos + len) gs), [], (x :: a ++ b), len.
           simpl. repeat split; auto; lia.
      * destruct (Hnext 0) as (m & H); [lia|].
        destruct H as (a' & b' & len' & E1 & H).
        exists m, a', b', len'. split; [exact E1 | exact H].
    + destruct (Hnext skip') as (m & H); [simpl in Hskip; lia|].
      destruct H as (a' & b' & len' & E1 & H).
      exists m, a', b', len'. split; [exact E1 | exact H].
Qed.

(** ** The innermost name of a type reference *)

Lemma rep_results_greedy (cls : ascii -> bool) (c l : text) :
  Forall (fun x => cls x = true) c ->
  match l with [] => True | x :: _ => cls x = false end ->
  forall (least : nat) (st : mstate),
    least <= length c ->
    exists tl, rep_results true cls least (c ++ l) st = advance_all c l st :: tl.
Proof.
  intros Hc Hl. induction Hc as [|y c Hy Hc IH]; intros least st Hle.
  - simpl in Hle. assert (least = 0) by lia. subst least.
    exists []. destruct l as [|x l]; simpl; [reflexivity|].
    rewrite Hl. reflexivity.
  - simpl. rewrite Hy.
    destruct (IH (pred least) (advance y (c ++ l) st)) as (tl & E).
    { simpl in Hle. lia. }
    rewrite E. eexists. reflexivity.
Qed.

(** A greedy repetition over a maximal run hands the whole run to its
    continuation first. *)
Lemma rep_greedy_run (A : Type) (cls : ascii -> bool) (k : mstate -> option A)
      (c l : text) (least : nat) (st : mstate) (a : A) :
  Forall (fun x => cls x = true) c ->
  match l with [] => True | x :: _ => cls x = false end ->
  least <= length c ->
  k (advance_all c l st) = Some a ->
  rep true cls k least (c ++ l) st = Some a.
Proof.
  intros Hc Hl Hle Hk. rewrite rep_results_run.
  destruct (rep_results_greedy cls c l Hc Hl least st Hle) as (tl & ->).
  simpl. rewrite Hk. reflexivity.
Qed.

Lemma advance_all_record (c l : text) (st : mstate) :
  rest st = c ++ l ->
  advance_all c l st
  = MState (prev_after (prev st) c) l (used st + length c)
           (map (push c) (opened st)) (caps st).
Proof.
  intros H. destruct (advance_all_fields c l st H) as (E1 & E2 & E3 & E4 & E5).
  destruct (advance_all c l st). simpl in *. congruence.
Qed.

Lemma base_type_match (q : option ascii) (w suf : text) :
  name_text w -> Forall (fun x => is_gt x = true) suf ->
  match_at base_type_pattern q (w ++ suf)
  = Some (length w + length suf, [(1, w)]).
Proof.
  intros [Hne Hw] Hs. unfold match_at, base_type_pattern. cbn [run].
  apply rep_greedy_run; auto.
  - destruct suf as [|x suf]; [exact I|]. inversion Hs; subst.
    unfold is_gt in *. apply Ascii.eqb_eq in H1. subst x. reflexivity.
  - destruct w; [congruence | simpl; lia].
  - rewrite advance_all_record by reflexivity.
    unfold close_group. cbn [opened open_group init_state map push fst snd
                             prev rest used caps].
    rewrite app_nil_r, rev_involutive.
    replace suf with (suf ++ []) at 1 by apply app_nil_r.
    apply rep_greedy_run; [exact Hs | exact I | apply Nat.le_0_l |].
    rewrite advance_all_record by (cbn [rest]; rewrite app_nil_r; reflexivity).
    simpl. reflexivity.
Qed.

Lemma hd_finditer_skip (r : regex) (p : option ascii) (pos : nat) (c : ascii)
      (s : text) :
  match_at r p (c :: s) = None ->
  hd_error (finditer_from r p pos 0 (c :: s))
  = hd_error (finditer_from r (Some c) (S pos) 0 s).
Proof. intros H. simpl. rewrite H. reflexivity. Qed.

Lemma hd_finditer_hit (r : regex) (p : option ascii) (pos len : nat)
      (gs : list (nat * text)) (s : text) :
  match_at r p s = Some (len, gs) ->
  hd_error (finditer_from r p pos 0 s) = Some (ReMatch pos (pos + len) gs).
Proof. intros H. destruct s; simpl; rewrite H; reflexivity. Qed.

Lemma search_hd (r : regex) (s : text) :
  search r s = hd_error (finditer_from r None 0 0 s).
Proof. reflexivity. Qed.

Lemma extract_type_wrapped (w t : text) :
  name_text w -> wrapped w t -> extract_type t = Some w.
Proof.
  intros Hw Ht. pose proof Hw as [Hne Hall].
  destruct w as [|w0 w']; [congruence|].
  assert (H1 : Forall (fun x => is_gt x = true) (T ">")) by token_list.
  assert (H2 : Forall (fun x => is_gt x = true) (T ">>")) by token_list.
  unfold extract_type. rewrite search_hd.
  destruct Ht as [ -> | [ -> | [ -> | -> ] ] ].
  - pose proof (base_type_match None _ [] Hw (Forall_nil _)) as E.
    rewrite app_nil_r in E. rewrite (hd_finditer_hit _ _ _ _ _ _ E).
    reflexivity.
  - cbn [T list_ascii_of_string app].
    do 7 (rewrite hd_finditer_skip by reflexivity).
    change (w0 :: w' ++ [">"%char]) with ((w0 :: w') ++ T ">").
    rewrite (hd_finditer_hit _ _ _ _ _ _ (base_type_match _ _ _ Hw H1)).
    reflexivity.
  - cbn [T list_ascii_of_string app].
    do 4 (rewrite hd_finditer_skip by reflexivity).
    change (w0 :: w' ++ [">"%char]) with ((w0 :: w') ++ T ">").
    rewrite (hd_finditer_hit _ _ _ _ _ _ (base_type_match _ _ _ Hw H1)).
    reflexivity.
  - cbn [T list_ascii_of_string app].
    do 11 (rewrite hd_finditer_skip by reflexivity).
    change (w0 :: w' ++ [">"%char; ">"%char]) with ((w0 :: w') ++ T ">>").
    rewrite (hd_finditer_hit _ _ _ _ _ _ (base_type_match _ _ _ Hw H2)).
    reflexivity.
Qed.

(** [extract_type] gives the name inside the wrappers the usage pattern
    accepts: from [W], [Option<W>], [Vec<W>] and [Option<Vec<W>>] it
    returns [W]. *)
Theorem extract_type_unwraps (w t : text) :
  name_text w -> wrapped w t -> extract_type t = Some w.
Proof. exact (extract_type_wrapped w t). Qed.

Lemma extract_type_unwraps_witness :
  extract_type (T "Option<Vec<Party38Choice>>") = Some (T "Party38Choice").
Proof.
  apply (extract_type_unwraps (T "Party38Choice")).
  - split; [discriminate | token_list].
  - right. right. right. reflexivity.
Defined.

Lemma lang_usage_type_wrapped (t : text) :
  lang usage_type t -> exists w, name_text w /\ wrapped w t.
Proof.
  assert (Hn : forall w, 1 <= length w /\ Forall (fun x => is_word x = true) w ->
                    name_text w).
  { intros w [H1 H2]. split; [|exact H2]. intros ->. simpl in H1. lia. }
  unfold usage_type. cbn [lang].
  intros [H|[H|[H|H]]].
  - exists t. split; [auto | left; reflexivity].
  - destruct H as (c1 & r1 & -> & -> & w & r2 & -> & Hw & ->).
    exists w. split; [auto | right; left; reflexivity].
  - destruct H as (c1 & r1 & -> & -> & w & r2 & -> & Hw & ->).
    exists w. split; [auto | right; right; left; reflexivity].
  - destruct H as (c1 & r1 & -> & -> & w & r2 & -> & Hw & ->).
    exists w. split; [auto | right; right; right; reflexivity].
Qed.

Lemma usage_group (p : option ascii) (s : text) (len : nat)
      (gs : list (nat * text)) :
  match_at type_usage_patterns p s = Some (len, gs) ->
  exists t, group_lookup 1 gs = Some t /\ lang usage_type t.
Proof.
  intros H. apply match_at_captures in H.
  destruct H as (c & b & _ & _ & _ & Hg).
  destruct (Hg 1 eq_refl) as (t & E & Hc).
  exists t. split; [exact E|].
  unfold type_usage_patterns in Hc. cbn [captures] in Hc.
  unfold usage_type in Hc. cbn [captures] in Hc. tauto.
Qed.

Lemma Forall2_flat_map_single (X Y : Type) (f : X -> list Y) (P : X -> Y -> Prop)
      (l : list X) :
  (forall x, In x l -> exists y, f x = [y] /\ P x y) ->
  Forall2 P l (flat_map f l).
Proof.
  induction l as [|x l IH]; intros H; simpl; [constructor|].
  destruct (H x (or_introl eq_refl)) as (y & -> & Hy).
  simpl. constructor; [exact Hy|]. apply IH. intros z Hz. apply H. right. exact Hz.
Qed.

(** The list [type_usages] has one entry for every match of the usage
    pattern, in the order of the matches: the name inside the type the
    match captured.  The test [if base_type] never drops a match. *)
Theorem usages_are_innermost_names (file_text : text) :
  Forall2 (fun m w => name_text w /\ exists t, group 1 m = Some t /\ wrapped w t)
          (finditer type_usage_patterns file_text) (usages_of file_text).
Proof.
  unfold usages_of. apply Forall2_flat_map_single. intros m Hm.
  apply finditer_from_attempt in Hm.
  destruct Hm as (a & b & q & len & _ & _ & _ & _ & Hat).
  apply usage_group in Hat. destruct Hat as (t & Hg & Hl).
  apply lang_usage_type_wrapped in Hl. destruct Hl as (w & Hw & Ht).
  exists w. unfold group. rewrite Hg, (extract_type_wrapped w t Hw Ht).
  split; [reflexivity|]. split; [exact Hw|]. exists t. auto.
Qed.

(** ** The comment lines of the shared module *)

Lemma app_split_le (X : Type) (x1 y1 x2 y2 : list X) :
  x1 ++ y1 = x2 ++ y2 -> length x2 <= length x1 ->
  exists u, x1 = x2 ++ u /\ y2 = u ++ y1.
Proof.
  revert x2. induction x1 as [|c x1 IH]; intros x2 E Hle.
  - destruct x2; [|simpl in Hle; lia]. exists []. simpl in *. auto.
  - destruct x2 as [|d x2].
    + exists (c :: x1). simpl in *. auto.
    + simpl in E. inversion E; subst d.
      destruct (IH x2 H1) as (u & -> & ->); [simpl in Hle; lia|].
      exists u. auto.
Qed.

Lemma existing_results (q : option ascii) (s : text) (st' : mstate) :
  In st' (results existing_pattern (init_state q s)) ->
  exists w r,
    s = marker w ++ r /\ name_text w
    /\ used st' = length (marker w) /\ caps st' = [(1, w)].
Proof.
  unfold existing_pattern. cbn [results]. intros H.
  apply in_flat_map in H. destruct H as (st1 & H1 & H).
  destruct (lit (T "// ") (rest (init_state q s)) (init_state q s)) as [x|] eqn:E1;
    [|contradiction].
  destruct H1 as [<-|[]]. apply lit_advance in E1. destruct E1 as (r1 & E1 & ->).
  cbn [rest init_state] in E1. subst s.
  rewrite advance_all_record in H by reflexivity.
  apply in_flat_map in H. destruct H as (st2 & H2 & H).
  apply in_map_iff in H2. destruct H2 as (st2' & <- & H2).
  apply rep_results_In in H2. destruct H2 as (w & r2 & E2 & Hw & Hle & ->).
  cbn [rest open_group] in E2. subst r1.
  rewrite advance_all_record in H by reflexivity.
  unfold close_group in H.
  cbn [opened open_group init_state map push fst snd prev rest used caps] in H.
  rewrite app_nil_r, rev_involutive in H.
  destruct (lit (T " ..." ++ [nl]) r2 _) as [x|] eqn:E3 in H; [|contradiction].
  destruct H as [<-|[]]. apply lit_advance in E3. destruct E3 as (r3 & -> & ->).
  rewrite advance_all_record by reflexivity.
  cbn [used caps]. exists w, r3. unfold marker.
  split; [rewrite <- !app_assoc; reflexivity|]. split; [|split].
  - split; [|exact Hw]. intros ->. simpl in Hle. lia.
  - rewrite !length_app. simpl. lia.
  - reflexivity.
Qed.

Lemma existing_match (q : option ascii) (n b : text) :
  name_text n ->
  match_at existing_pattern q (marker n ++ b) = Some (length (marker n), [(1, n)]).
Proof.
  intros [Hne Hn]. unfold match_at, existing_pattern, marker. cbn [run].
  cbn [rest init_state]. rewrite <- !app_assoc. rewrite lit_app.
  rewrite advance_all_record by reflexivity.
  cbn [rest open_group].
  apply rep_greedy_run; [exact Hn | reflexivity | |].
  { destruct n; [congruence | simpl; lia]. }
  rewrite advance_all_record by reflexivity.
  unfold close_group.
  cbn [opened open_group init_state map push fst snd prev rest used caps].
  rewrite app_nil_r, rev_involutive.
  rewrite (app_assoc (T " ...") [nl] b).
  rewrite lit_app. rewrite advance_all_record by reflexivity.
  cbn [used caps]. rewrite !length_app. simpl.
  repeat f_equal; lia.
Qed.

Lemma existing_nonempty (c : text) : lang existing_pattern c -> 0 < length c.
Proof.
  unfold existing_pattern. cbn [lang].
  intros (c1 & r1 & -> & -> & _). simpl. lia.
Qed.

Lemma not_slash_in_marker_tail (w : text) :
  Forall (fun x => is_word x = true) w ->
  ~ In "/"%char (" "%char :: w ++ (T " ..." ++ [nl])).
Proof.
  intros Hw [H|H]; [discriminate|].
  apply in_app_or in H. destruct H as [H|H].
  - rewrite Forall_forall in Hw. apply Hw in H. discriminate.
  - simpl in H. repeat (destruct H as [H|H]; [discriminate|]). exact H.
Qed.

(** A match of the comment-line pattern cannot start before another
    comment line and reach into it. *)
Lemma markers_do_not_overlap (u w n r b : text) :
  Forall (fun x => is_word x = true) w ->
  u <> [] -> length u < length (marker w) ->
  marker w ++ r = u ++ marker n ++ b -> False.
Proof.
  intros Hw Hu Hlen E.
  destruct (app_split_le _ _ _ _ _ E) as (v & Ev & Er); [lia|].
  assert (Hv : v <> []).
  { intros ->. rewrite app_nil_r in Ev. rewrite Ev in Hlen. lia. }
  clear E. unfold marker in Ev, Er. simpl in Ev, Er.
  destruct v as [|v0 v]; [congruence|].
  simpl in Er. injection Er as Ev0 Er. subst v0.
  destruct u as [|u0 u]; [congruence|].
  simpl in Ev. injection Ev as Eu0 Ev. subst u0.
  destruct u as [|u1 u]; simpl in Ev.
  - injection Ev as Ev. subst v. simpl in Er. discriminate Er.
  - injection Ev as Eu1 Ev.
    apply (not_slash_in_marker_tail w Hw).
    change (In "/"%char (" "%char :: w ++ [" "%char; "."%char; "."%char; "."%char; nl])).
    rewrite Ev. apply in_elt.
Qed.

(** [re.findall] of the comment-line pattern gives the names that have a
    comment line somewhere in the text. *)
Lemma declared_names_marker (s n : text) :
  In n (declared_names s)
  <-> name_text n /\ exists a b, s = a ++ marker n ++ b.
Proof.
  unfold declared_names. split.
  - intros H. apply in_map_iff in H. destruct H as (m & <- & H).
    apply finditer_from_attempt in H.
    destruct H as (a & b0 & q & len & -> & _ & _ & _ & Hat).
    rewrite match_at_results in Hat.
    destruct (results existing_pattern (init_state q b0)) as [|st' l] eqn:E;
      [discriminate|].
    inversion Hat; subst len. clear Hat.
    destruct (existing_results q b0 st') as (w & r & -> & Hw & _ & Hc).
    { rewrite E. left. reflexivity. }
    unfold group_text, group. rewrite <- H1, Hc. simpl.
    split; [exact Hw|]. exists a, r. reflexivity.
  - intros (Hn & a & b & ->).
    destruct (finditer_from_covers existing_pattern (marker n ++ b)
                existing_nonempty a None 0 0)
      as (m & a' & b' & len & Hin & E & Hle & Hs & He & Hat & Hcov).
    { apply Nat.le_0_l. }
    { rewrite existing_match by exact Hn. discriminate. }
    apply in_map_iff. exists m. split; [|exact Hin].
    assert (Ha : a' = a /\ b' = marker n ++ b).
    { destruct (app_split_le _ _ _ _ _ E Hle) as (u & -> & ->).
      destruct u as [|u0 u].
      - rewrite app_nil_r. auto.
      - exfalso. rewrite match_at_results in Hat.
        destruct (results existing_pattern
                    (init_state (prev_after None a') ((u0 :: u) ++ marker n ++ b)))
          as [|st' l] eqn:Er; [discriminate|].
        inversion Hat; subst len. clear Hat.
        destruct (existing_results (prev_after None a')
                    ((u0 :: u) ++ marker n ++ b) st')
          as (w & r & Eq & [_ Hw] & Hu & _).
        { rewrite Er. left. reflexivity. }
        eapply (markers_do_not_overlap (u0 :: u) w n r b Hw); [discriminate| |symmetry; exact Eq].
        rewrite length_app in Hcov. simpl in *. lia. }
    destruct Ha as [-> ->].
    rewrite existing_match in Hat by exact Hn. inversion Hat.
    unfold group_text, group. rewrite <- H1. reflexivity.
Qed.

(** ** Trailing newlines *)

Lemma rstrip_nl_app_nil (x y : text) :
  rstrip_nl y = [] -> rstrip_nl (x ++ y) = rstrip_nl x.
Proof.
  intros H. induction x as [|c x IH]; simpl; [exact H|].
  rewrite IH. reflexivity.
Qed.

Lemma rstrip_nl_idem (x : text) : rstrip_nl (rstrip_nl x) = rstrip_nl x.
Proof.
  induction x as [|c x IH]; simpl; [reflexivity|].
  destruct (rstrip_nl x) as [|d r] eqn:E.
  - destruct (Ascii.eqb c nl) eqn:Ec; simpl; [reflexivity|].
    rewrite Ec. reflexivity.
  - cbn [rstrip_nl] in *. rewrite IH. reflexivity.
Qed.

Lemma rstrip_nl_cons_nl (b : text) :
  rstrip_nl (nl :: b) = match rstrip_nl b with [] => [] | r => nl :: r end.
Proof. simpl. destruct (rstrip_nl b); reflexivity. Qed.

Lemma rstrip_nl_marker (a n : text) :
  rstrip_nl (a ++ T "// " ++ n ++ T " ...") = a ++ T "// " ++ n ++ T " ...".
Proof.
  rewrite !app_assoc. rewrite rstrip_nl_app; [reflexivity|].
  vm_compute. discriminate.
Qed.

(** Stripping the trailing newlines and adding one keeps every comment
    line. *)
Lemma marker_kept (a n b : text) :
  exists b', rstrip_nl (a ++ marker n ++ b) ++ [nl] = a ++ marker n ++ b'.
Proof.
  unfold marker.
  replace (a ++ (T "// " ++ n ++ T " ..." ++ [nl]) ++ b)
    with ((a ++ T "// " ++ n ++ T " ...") ++ nl :: b)
    by (rewrite <- !app_assoc; reflexivity).
  destruct (rstrip_nl (nl :: b)) as [|y0 y] eqn:E.
  - rewrite rstrip_nl_app_nil by exact E. rewrite rstrip_nl_marker.
    exists []. rewrite <- !app_assoc. reflexivity.
  - rewrite rstrip_nl_app by (rewrite E; discriminate).
    rewrite rstrip_nl_cons_nl in *.
    destruct (rstrip_nl b) as [|z0 z]; [discriminate|].
    exists ((z0 :: z) ++ [nl]). rewrite <- !app_assoc. reflexivity.
Qed.

Lemma flat_map_block_In (b : text) (blocks : list text) (tail : text) :
  In b blocks ->
  exists x y, flat_map (cons nl) blocks ++ nl :: tail = x ++ b ++ nl :: y.
Proof.
  induction blocks as [|b0 blocks IH]; intros H; [contradiction|].
  destruct H as [->|H].
  - exists [nl]. simpl. destruct blocks as [|b1 blocks].
    + exists tail. simpl. rewrite app_nil_r. reflexivity.
    + exists (b1 ++ flat_map (cons nl) blocks ++ nl :: tail). simpl.
      rewrite <- !app_assoc. simpl. rewrite <- !app_assoc. reflexivity.
  - destruct (IH H) as (x & y & E). exists (nl :: b0 ++ x), y.
    simpl. rewrite <- !app_assoc. simpl. rewrite E. reflexivity.
Qed.

Lemma blocks_fixed (blocks : list text) :
  blocks <> [] ->
  (forall b, In b blocks -> rstrip_nl b = b /\ b <> []) ->
  rstrip_nl (flat_map (cons nl) blocks) = flat_map (cons nl) blocks
  /\ flat_map (cons nl) blocks <> [].
Proof.
  induction blocks as [|b blocks IH]; intros Hne H; [congruence|].
  split; [|discriminate].
  destruct (H b (or_introl eq_refl)) as [Hb Hb'].
  destruct blocks as [|b1 blocks].
  - simpl. rewrite app_nil_r, Hb. destruct b; [congruence | reflexivity].
  - destruct IH as [IH1 IH2]; [discriminate | intros z Hz; apply H; right; exact Hz |].
    change (flat_map (cons nl) (b :: b1 :: blocks))
      with ((nl :: b) ++ flat_map (cons nl) (b1 :: blocks)).
    rewrite rstrip_nl_app by (rewrite IH1; exact IH2).
    rewrite IH1. reflexivity.
Qed.

Lemma Forall2_In_l (X Y : Type) (P : X -> Y -> Prop) (l1 : list X) (l2 : list Y)
      (x : X) :
  Forall2 P l1 l2 -> In x l1 -> exists y, In y l2 /\ P x y.
Proof.
  induction 1 as [|x0 y0 l1 l2 H0 H IH]; intros Hin; [contradiction|].
  destruct Hin as [->|Hin].
  - exists y0. split; [left; reflexivity | exact H0].
  - destruct (IH Hin) as (y & E1 & E2). exists y. split; [right|]; assumption.
Qed.

Lemma Forall2_In_r (X Y : Type) (P : X -> Y -> Prop) (l1 : list X) (l2 : list Y)
      (y : Y) :
  Forall2 P l1 l2 -> In y l2 -> exists x, In x l1 /\ P x y.
Proof.
  induction 1 as [|x0 y0 l1 l2 H0 H IH]; intros Hin; [contradiction|].
  destruct Hin as [->|Hin].
  - exists x0. split; [left; reflexivity | exact H0].
  - destruct (IH Hin) as (x & E1 & E2). exists x. split; [right|]; assumption.
Qed.

Lemma dict_set_idem (K V : Type) (keq : K -> K -> bool) (k : K) (v : V)
      (d : list (K * V)) :
  (forall a b, keq a b = true <-> a = b) ->
  dict_set keq k v (dict_set keq k v d) = dict_set keq k v d.
Proof.
  intros Hk. induction d as [|[k' v'] d IH]; simpl.
  - rewrite (proj2 (Hk k k) eq_refl). reflexivity.
  - destruct (keq k k') eqn:E; simpl; rewrite E; [reflexivity|].
    rewrite IH. reflexivity.
Qed.

(** ** Reading and writing the shared module *)

(** [read_existing_common] never raises and leaves the directory as it
    is.  For a file that does not exist it returns no name and the empty
    text; otherwise it returns the text of the file and the names that
    have a comment line [// name ...] somewhere in that text, before a
    declaration or not. *)
Theorem read_existing_common_names (output_file : string) (fs : directory) :
  exists names c,
    read_existing_common output_file fs = (Some (names, c), fs)
    /\ c = match dict_get String.eqb output_file fs with
           | Some s => s
           | None => []
           end
    /\ (dict_get String.eqb output_file fs = None -> names = [])
    /\ forall n, In n names <-> name_text n /\ exists a b, c = a ++ marker n ++ b.
Proof.
  exists (declared_names (content_of output_file fs)), (content_of output_file fs).
  split; [apply read_existing_common_eq|]. split; [reflexivity|]. split.
  - intros H. unfold content_of. rewrite H. reflexivity.
  - intros n. apply declared_names_marker.
Qed.

(** What [generate_common_file] writes when every name of the index is a
    name and its first occurrence holds a declaration with the comment
    line of that name: a text that ends as the writer ends it and has a
    comment line for every name of the index and for every name that had
    one before. *)
Lemma generate_common_file_text (ft : type_index) (output_file : string)
      (fs : directory) :
  (forall n ms, In (n, ms) ft ->
     exists m0 ms' t,
       ms = m0 :: ms' /\ name_text n
       /\ content m0 = [nl; nl] ++ marker n ++ t ++ footer) ->
  exists written,
    generate_common_file ft output_file fs
    = (Some tt, dict_set String.eqb output_file written fs)
    /\ rstrip_nl written ++ [nl; nl] = written
    /\ (forall n, In n (map fst ft) -> In n (declared_names written))
    /\ (forall n, In n (declared_names (content_of output_file fs)) ->
              In n (declared_names written)).
Proof.
  intros H.
  assert (Hne : forall n ms, In (n, ms) ft -> ms <> []).
  { intros n ms Hin. destruct (H n ms Hin) as (m0 & ms' & t & -> & _).
    discriminate. }
  destruct (generate_common_file_eq ft output_file fs Hne) as (blocks & Egen & HF).
  set (prior := content_of output_file fs) in *.
  set (P := rstrip_nl prior ++ flat_map (cons nl) blocks).
  assert (Ew : rstrip_nl prior ++ flat_map (cons nl) blocks ++ [nl; nl]
               = P ++ [nl; nl]).
  { unfold P. rewrite <- app_assoc. reflexivity. }
  rewrite Ew in Egen.
  exists (P ++ [nl; nl]). split; [exact Egen|].
  (* every block is the stored text of a promoted name without its last
     newline *)
  assert (Hblock : forall b, In b blocks ->
            exists n t, b ++ [nl] = [nl; nl] ++ marker n ++ t ++ footer
                   /\ rstrip_nl b = b /\ b <> []).
  { intros b Hb. destruct (Forall2_In_r _ _ _ _ _ _ HF Hb) as (n & _ & Hn).
    destruct Hn as (m0 & ms & Hin & ->).
    destruct (H n _ Hin) as (m0' & ms' & t & E & _ & Ec).
    inversion E; subst m0' ms'. exists n, t. rewrite Ec.
    replace ([nl; nl] ++ marker n ++ t ++ footer)
      with (([nl; nl] ++ marker n ++ t) ++ footer)
      by (rewrite <- !app_assoc; reflexivity).
    split; [apply rstrip_nl_footer|]. split; [apply rstrip_nl_idem|].
    rewrite rstrip_nl_app by (vm_compute; discriminate). discriminate. }
  assert (Htail : exists Z, flat_map (cons nl) blocks ++ [nl; nl] = nl :: Z).
  { destruct blocks as [|b0 blocks']; simpl; eexists; reflexivity. }
  assert (Hkept : forall n, In n (declared_names prior) ->
                       In n (declared_names (P ++ [nl; nl]))).
  { intros n Hn. apply declared_names_marker in Hn.
    destruct Hn as (Hname & a & b & Ea).
    apply declared_names_marker. split; [exact Hname|].
    destruct (marker_kept a n b) as (b' & Ek). rewrite <- Ea in Ek.
    destruct Htail as (Z & EZ). exists a, (b' ++ Z).
    rewrite <- Ew, EZ.
    change (nl :: Z) with ([nl] ++ Z). rewrite app_assoc, Ek.
    rewrite <- !app_assoc. reflexivity. }
  split; [|split; [|exact Hkept]].
  - rewrite rstrip_nl_app_nil by reflexivity. f_equal. unfold P.
    destruct blocks as [|b0 blocks'].
    + simpl. rewrite app_nil_r. apply rstrip_nl_idem.
    + destruct (blocks_fixed (b0 :: blocks')) as [E1 E2]; [discriminate| |].
      * intros b Hb. destruct (Hblock b Hb) as (n & t & _ & E1 & E2). auto.
      * rewrite rstrip_nl_app by (rewrite E1; exact E2). rewrite E1. reflexivity.
  - intros n Hn. apply in_map_iff in Hn. destruct Hn as ([n' ms] & En & Hin).
    simpl in En. subst n'.
    destruct (H n ms Hin) as (m0 & ms' & t & -> & Hname & Ec).
    destruct (mem_text n (declared_names prior)) eqn:Em.
    + apply mem_text_In in Em. apply Hkept. exact Em.
    + apply declared_names_marker. split; [exact Hname|].
      assert (Hnew : In n (new_names (declared_names prior) (sorted_items ft))).
      { unfold new_names. apply filter_In. split.
        - apply in_map_iff. exists (n, m0 :: ms'). split; [reflexivity|].
          apply (Permutation_in _ (Permutation_sym (sorted_items_perm ft))).
          exact Hin.
        - rewrite Em. reflexivity. }
      destruct (Forall2_In_l _ _ _ _ _ _ HF Hnew) as (b & Hb & Hnb).
      destruct Hnb as (m1 & ms1 & Hin1 & ->).
      destruct (H n _ Hin1) as (m1' & ms1' & t1 & E1 & _ & Ec1).
      inversion E1; subst m1' ms1'.
      destruct (flat_map_block_In _ _ [nl] Hb) as (x & y & Exy).
      exists (rstrip_nl prior ++ x ++ [nl; nl]), (t1 ++ footer ++ y).
      rewrite <- Ew.
      change [nl; nl] with ([nl] ++ [nl]) at 1.
      change (flat_map (cons nl) blocks ++ [nl] ++ [nl])
        with (flat_map (cons nl) blocks ++ nl :: [nl]).
      rewrite Exy.
      replace (rstrip_nl (content m1) ++ nl :: y)
        with ((rstrip_nl (content m1) ++ [nl]) ++ y)
        by (rewrite <- app_assoc; reflexivity).
      rewrite Ec1.
      replace ([nl; nl] ++ marker n ++ t1 ++ footer)
        with (([nl; nl] ++ marker n ++ t1) ++ footer)
        by (rewrite <- !app_assoc; reflexivity).
      rewrite rstrip_nl_footer. rewrite <- !app_assoc. reflexivity.
Qed.

(** Writing the shared module a second time with the same promoted types
    changes nothing, when each promoted name is a name and its first
    occurrence holds a declaration with the comment line of that name. *)
Theorem writer_is_idempotent (ft : type_index) (output_file : string)
        (fs : directory) :
  (forall n ms, In (n, ms) ft ->
     exists m0 ms' t,
       ms = m0 :: ms' /\ name_text n
       /\ content m0 = [nl; nl] ++ marker n ++ t ++ footer) ->
  exists fs1,
    generate_common_file ft output_file fs = (Some tt, fs1)
    /\ generate_common_file ft output_file fs1 = (Some tt, fs1).
Proof.
  intros H.
  destruct (generate_common_file_text ft output_file fs H)
    as (written & Egen & Hend & Hall & _).
  set (fs1 := dict_set String.eqb output_file written fs) in *.
  exists fs1. split; [exact Egen|].
  assert (Hne : forall n ms, In (n, ms) ft -> ms <> []).
  { intros n ms Hin. destruct (H n ms Hin) as (m0 & ms' & t & -> & _).
    discriminate. }
  destruct (generate_common_file_eq ft output_file fs1 Hne) as (blocks2 & Egen2 & HF2).
  assert (Eprior : content_of output_file fs1 = written).
  { unfold content_of, fs1.
    rewrite (dict_get_set _ _ String.eqb String.eqb_eq), String.eqb_refl.
    reflexivity. }
  rewrite Eprior in Egen2, HF2.
  assert (Hnone : new_names (declared_names written) (sorted_items ft) = []).
  { unfold new_names. apply filter_none. intros n Hn.
    assert (Hin : In n (map fst ft)).
    { eapply Permutation_in; [|exact Hn].
      apply Permutation_map. apply sorted_items_perm. }
    apply Hall in Hin. apply mem_text_In in Hin. rewrite Hin. reflexivity. }
  rewrite Hnone in HF2. inversion HF2; subst blocks2.
  rewrite Egen2. simpl flat_map. rewrite app_nil_l, Hend.
  unfold fs1. rewrite (dict_set_idem _ _ String.eqb _ _ _ String.eqb_eq).
  reflexivity.
Qed.

Lemma writer_is_idempotent_witness :
  exists fs1,
    generate_common_file (type_locations (scan_rust_files widget_dir)) common_rs
      widget_dir = (Some tt, fs1)
    /\ generate_common_file (type_locations (scan_rust_files widget_dir)) common_rs
         fs1 = (Some tt, fs1).
Proof.
  apply (writer_is_idempotent (type_locations (scan_rust_files widget_dir))
           common_rs widget_dir).
  intros n ms Hin. vm_compute in Hin. destruct Hin as [Hin|[]].
  injection Hin as <- <-.
  eexists _, _,
    (firstn 406 (skipn 14 (block "pub struct" "Widget" (fld "pub id: String,")))).
  split; [reflexivity|]. split.
  - split; [discriminate | token_list].
  - vm_compute. reflexivity.
Defined.

(** ** The declaration pattern *)

Lemma flat_map_compose (X Y Z : Type) (f : X -> list Y) (g : Y -> list Z)
      (l : list X) :
  flat_map g (flat_map f l) = flat_map (fun x => flat_map g (f x)) l.
Proof.
  induction l as [|x l IH]; simpl; [reflexivity|].
  rewrite flat_map_app, IH. reflexivity.
Qed.

Lemma hd_flat_map (X Y : Type) (f : X -> list Y) (l : list X) (y : Y) :
  hd_error (flat_map f l) = Some y ->
  exists l1 x l2,
    l = l1 ++ x :: l2 /\ Forall (fun z => f z = []) l1 /\ hd_error (f x) = Some y.
Proof.
  induction l as [|x l IH]; simpl; [discriminate|].
  destruct (f x) as [|y0 ys] eqn:E; simpl.
  - intros H. destruct (IH H) as (l1 & x' & l2 & -> & H1 & H2).
    exists (x :: l1), x', l2. auto.
  - intros H. exists [], x, l. rewrite E. auto.
Qed.

Lemma hd_map (X Y : Type) (f : X -> Y) (l : list X) (y : Y) :
  hd_error (map f l) = Some y -> exists x, hd_error l = Some x /\ y = f x.
Proof.
  destruct l as [|x l]; simpl; [discriminate|].
  intros H. inversion H. exists x. auto.
Qed.

Lemma rest_close_group (st : mstate) : rest (close_group st) = rest st.
Proof. unfold close_group. destruct (opened st) as [|[n acc] os]; reflexivity. Qed.

Lemma used_close_group (st : mstate) : used (close_group st) = used st.
Proof. unfold close_group. destruct (opened st) as [|[n acc] os]; reflexivity. Qed.

(** Without anchors, every string of the pattern's language that the
    text continues with is consumed by one of the results. *)
Lemma results_complete (r : regex) :
  no_anchor r = true ->
  forall (c l : text) (st : mstate),
    lang r c -> rest st = c ++ l ->
    exists st', In st' (results r st) /\ rest st' = l /\ used st' = used st + length c.
Proof.
  induction r as [|s|g least cls|r1 IH1 r2 IH2|r1 IH1 r2 IH2|n r IH| |];
    intros Ha c l st Hl Hr; simpl in Ha, Hl; try discriminate.
  - subst c. exists st. simpl. repeat split; auto.
  - subst c. exists (advance_all s l st). simpl. rewrite Hr, lit_app.
    destruct (advance_all_fields s l st Hr) as (E1 & E2 & _).
    split; [left; reflexivity | auto].
  - destruct Hl as [Hle Hc]. exists (advance_all c l st).
    destruct (advance_all_fields c l st Hr) as (E1 & E2 & _).
    split; [|auto]. simpl. apply rep_results_In. exists c, l. auto.
  - apply andb_true_iff in Ha. destruct Ha as [Ha1 Ha2].
    destruct Hl as (c1 & c2 & -> & H1 & H2).
    rewrite <- app_assoc in Hr.
    destruct (IH1 Ha1 c1 (c2 ++ l) st H1 Hr) as (st1 & A1 & A2 & A3).
    destruct (IH2 Ha2 c2 l st1 H2 A2) as (st2 & B1 & B2 & B3).
    exists st2. split; [|split; [exact B2 | rewrite B3, A3, length_app; lia]].
    simpl. apply in_flat_map. exists st1. auto.
  - apply andb_true_iff in Ha. destruct Ha as [Ha1 Ha2].
    destruct Hl as [Hl|Hl].
    + destruct (IH1 Ha1 c l st Hl Hr) as (st1 & A1 & A2).
      exists st1. split; [simpl; apply in_or_app; auto | exact A2].
    + destruct (IH2 Ha2 c l st Hl Hr) as (st1 & A1 & A2).
      exists st1. split; [simpl; apply in_or_app; auto | exact A2].
  - destruct (IH Ha c l (open_group n st) Hl Hr) as (st1 & A1 & A2 & A3).
    exists (close_group st1). rewrite rest_close_group, used_close_group.
    split; [|auto]. simpl. apply in_map. exact A1.
Qed.

(** The results of a lazy repetition over any character, in order: the
    cursor after [0], [1], ... characters. *)
Lemma rep_results_lazy (l : text) :
  forall (st : mstate) (l1 l2 : list mstate) (x : mstate),
    rep_results false any_char 0 l st = l1 ++ x :: l2 ->
    exists body r,
      l = body ++ r /\ x = advance_all body r st
      /\ forall i, i < length body ->
              In (advance_all (firstn i l) (skipn i l) st) l1.
Proof.
  induction l as [|c l IH]; intros st l1 l2 x H.
  - simpl in H. destruct l1 as [|y l1].
    + inversion H; subst. exists [], []. simpl. repeat split; auto. intros i Hi; lia.
    + inversion H. destruct l1; discriminate.
  - simpl in H. destruct l1 as [|y l1].
    + inversion H; subst. exists [], (c :: l). simpl. repeat split; auto.
      intros i Hi; lia.
    + simpl in H. inversion H; subst y.
      destruct (IH _ _ _ _ H2) as (body & r & -> & -> & Hlt).
      exists (c :: body), r. simpl. repeat split; auto.
      intros [|i] Hi; [left; reflexivity|]. right.
      simpl. rewrite firstn_skipn. apply Hlt. lia.
Qed.

Lemma type_pattern_split (st : mstate) :
  results type_pattern st
  = map close_group
      (flat_map (results (Rep false 0 any_char @@ Lit footer))
         (results type_head (open_group 1 st))).
Proof.
  unfold type_pattern, type_head.
  change (results (Grp 1 ?r) st) with (map close_group (results r (open_group 1 st))).
  f_equal. generalize (open_group 1 st). intros st1.
  cbn [results].
  repeat (rewrite flat_map_compose; apply flat_map_ext; intros ?).
  reflexivity.
Qed.

Lemma lang_type_head (c : text) :
  lang type_head c ->
  exists name kw blank word,
    c = [nl; nl] ++ marker name ++ header ++ kw ++ blank ++ word
    /\ name_text name
    /\ (kw = T "pub struct" \/ kw = T "pub enum")
    /\ blank <> [] /\ Forall (fun x => is_space x = true) blank
    /\ name_text word.
Proof.
  unfold type_head. cbn [lang].
  intros (c1 & r1 & -> & -> & name & r2 & -> & [Hn1 Hn2] & c3 & r3 & -> & ->
          & c4 & r4 & -> & -> & kw & r5 & -> & Hkw & blank & word & -> & [Hb1 Hb2]
          & [Hw1 Hw2]).
  exists name, kw, blank, word. unfold marker.
  split; [rewrite <- !app_assoc; reflexivity|].
  repeat split; auto.
  - intros ->. simpl in Hn1. lia.
  - intros ->. simpl in Hb1. lia.
  - intros ->. simpl in Hw1. lia.
Qed.

(** The first result of the declaration pattern: the text up to the
    first name after the keyword, then the shortest text after which the
    closing idiom follows. *)
Lemma type_first_result (q : option ascii) (s : text) (len : nat)
      (gs : list (nat * text)) :
  match_at type_pattern q s = Some (len, gs) ->
  exists h body r,
    s = h ++ body ++ footer ++ r
    /\ len = length (h ++ body ++ footer)
    /\ lang type_head h
    /\ forall i, i < length body -> ~ occurs_at footer (body ++ footer ++ r) i.
Proof.
  rewrite match_at_results, type_pattern_split.
  destruct (map close_group _) as [|st' tl] eqn:E; [discriminate|].
  intros H. inversion H; subst len gs. clear H.
  assert (Hhd : hd_error (map close_group
                  (flat_map (results (Rep false 0 any_char @@ Lit footer))
                     (results type_head (open_group 1 (init_state q s)))))
                = Some st') by (rewrite E; reflexivity).
  clear E. apply hd_map in Hhd. destruct Hhd as (x1 & Hhd & ->).
  apply hd_flat_map in Hhd. destruct Hhd as (l1 & st7 & l2 & E7 & _ & Hhd).
  assert (H7 : In st7 (results type_head (open_group 1 (init_state q s))))
    by (rewrite E7; apply in_elt).
  apply results_reaches in H7.
  destruct H7 as (h & new & A1 & A2 & _ & _ & A5 & _).
  cbn [rest used open_group init_state] in A1, A2.
  cbn [results] in Hhd. apply hd_flat_map in Hhd.
  destruct Hhd as (k1 & x8 & k2 & E8 & Hk1 & Hhd).
  apply rep_results_lazy in E8. destruct E8 as (body & r0 & Eb & -> & Hlt).
  destruct (advance_all_fields body r0 st7 Eb) as (B1 & B2 & _).
  rewrite B1 in Hhd.
  destruct (lit footer r0 (advance_all body r0 st7)) as [x|] eqn:Ef; [|discriminate].
  simpl in Hhd. inversion Hhd; subst x. clear Hhd.
  apply lit_advance in Ef. destruct Ef as (r & -> & ->).
  destruct (advance_all_fields footer r (advance_all body (footer ++ r) st7) B1)
    as (_ & C2 & _).
  exists h, body, r. split; [rewrite A1, Eb; reflexivity|]. split; [|split].
  - rewrite used_close_group, C2, B2, A2, !length_app. lia.
  - exact A5.
  - intros i Hi [t Ht]. specialize (Hlt i Hi).
    rewrite Forall_forall in Hk1. specialize (Hk1 _ Hlt).
    assert (Er : rest st7 = firstn i (rest st7) ++ skipn i (rest st7))
      by (rewrite firstn_skipn; reflexivity).
    destruct (advance_all_fields _ _ st7 Er) as (D1 & _).
    rewrite D1, Eb, Ht, lit_app in Hk1. discriminate.
Qed.

Lemma no_captures (r : regex) (new : list (nat * text)) :
  (forall n c, ~ captures r n c) ->
  Forall (fun g => captures r (fst g) (snd g)) new -> new = [].
Proof.
  intros H Hf. destruct new as [|[n c] new]; [reflexivity|].
  inversion Hf; subst. exfalso. eapply H. eassumption.
Qed.

(** What an attempt of the declaration pattern reports: group 2 is the
    name of the comment line the matched text starts with, and group 1 is
    the matched text. *)
Lemma type_match_groups (q : option ascii) (s : text) (len : nat)
      (gs : list (nat * text)) :
  match_at type_pattern q s = Some (len, gs) ->
  exists name c r,
    s = ([nl; nl] ++ T "// " ++ name ++ c) ++ r
    /\ len = length ([nl; nl] ++ T "// " ++ name ++ c)
    /\ name_text name /\ lang type_tail c
    /\ gs = [(1, [nl; nl] ++ T "// " ++ name ++ c); (2, name)].
Proof.
  rewrite match_at_results.
  destruct (results type_pattern (init_state q s)) as [|st' tl] eqn:E;
    [discriminate|].
  intros H. inversion H; subst len gs. clear H.
  assert (Hin : In st' (results type_pattern (init_state q s)))
    by (rewrite E; left; reflexivity).
  clear E. unfold type_pattern in Hin. fold type_tail in Hin.
  cbn [results] in Hin.
  apply in_map_iff in Hin. destruct Hin as (x1 & <- & Hin).
  apply in_flat_map in Hin. destruct Hin as (st1 & H1 & Hin).
  destruct (lit ([nl; nl] ++ T "// ") _ _) as [x|] eqn:E1 in H1; [|contradiction].
  destruct H1 as [<-|[]]. apply lit_advance in E1. destruct E1 as (r1 & E1 & ->).
  cbn [rest open_group init_state] in E1. subst s.
  rewrite advance_all_record in Hin by reflexivity.
  apply in_flat_map in Hin. destruct Hin as (st2 & H2 & Hin).
  apply in_map_iff in H2. destruct H2 as (st2' & <- & H2).
  apply rep_results_In in H2. destruct H2 as (w & r2 & E2 & Hw & Hle & ->).
  cbn [rest open_group] in E2. subst r1.
  rewrite advance_all_record in Hin by reflexivity.
  unfold close_group in Hin at 1.
  cbn [opened open_group init_state map push fst snd prev rest used caps] in Hin.
  rewrite !app_nil_r, rev_involutive in Hin.
  apply results_reaches in Hin.
  destruct Hin as (c & new & A1 & A2 & A3 & A4 & A5 & A6 & _).
  cbn [rest used opened caps map push fst snd] in A1, A2, A3, A4.
  apply no_captures in A6;
    [|intros n t Ht; unfold type_tail in Ht; cbn [captures] in Ht; tauto].
  subst new. simpl in A4.
  exists w, c, (rest x1). unfold close_group. rewrite A3.
  cbn [used caps rest]. rewrite A4, A2.
  split; [rewrite A1, <- !app_assoc; reflexivity|]. split; [|split; [|split]].
  - rewrite !length_app. simpl. lia.
  - split; [|exact Hw]. intros ->. simpl in Hle. lia.
  - exact A5.
  - unfold push. cbn [fst snd caps].
    rewrite !rev_app_distr, !rev_involutive. simpl.
    rewrite <- ?app_assoc. reflexivity.
Qed.

Lemma lang_type_tail (c : text) :
  lang type_tail c ->
  exists t, c = (T " ..." ++ [nl]) ++ header ++ t ++ footer.
Proof.
  unfold type_tail. cbn [lang].
  intros (c1 & r1 & -> & -> & c2 & r2 & -> & -> & kw & r3 & -> & _ & blank & r4
          & -> & _ & word & r5 & -> & _ & body & r6 & -> & _ & ->).
  exists (kw ++ blank ++ word ++ body). rewrite <- !app_assoc. reflexivity.
Qed.

(** ** What the scan finds *)

Lemma occurrence_named (file : string * text) (n : text) (o : StructMatch) :
  In (n, o) (occurrences_of_file file) ->
  name_text n
  /\ exists t, content o = [nl; nl] ++ marker n ++ header ++ t ++ footer.
Proof.
  unfold occurrences_of_file. intros H. apply in_map_iff in H.
  destruct H as (m & E & Hm). apply finditer_from_attempt in Hm.
  destruct Hm as (a & b & q & len & _ & _ & _ & _ & Hat).
  apply type_match_groups in Hat.
  destruct Hat as (name & c & r & _ & _ & Hname & Hc & Hg).
  unfold occurrence, group_text, group in E. rewrite Hg in E. simpl in E.
  inversion E; subst n o. simpl. split; [exact Hname|].
  apply lang_type_tail in Hc. destruct Hc as (t & ->).
  exists t. unfold marker. rewrite <- !app_assoc. reflexivity.
Qed.

(** The name an occurrence is filed under is the name in the comment line
    its stored text starts with: an entry of the promotable index under
    [n] holds declarations commented [// n ...], and every violation
    holds a declaration whose comment names it with a first character
    that is not an upper-case letter. *)
Theorem occurrence_named_by_comment (dir : directory) :
  (forall n ms o,
      In (n, ms) (type_locations (scan_rust_files dir)) -> In o ms ->
      name_text n /\ starts_upper n = true
      /\ exists t, content o = [nl; nl] ++ marker n ++ header ++ t ++ footer)
  /\ (forall o,
         In o (lowercase_matches (scan_rust_files dir)) ->
         exists n t,
           name_text n /\ starts_upper n = false
           /\ content o = [nl; nl] ++ marker n ++ header ++ t ++ footer).
Proof.
  split.
  - intros n ms o Hin Ho.
    destruct (type_locations_In dir n ms o Hin Ho) as [Hocc Hup].
    apply all_occurrences_In in Hocc. destruct Hocc as (file & _ & _ & Hocc).
    apply occurrence_named in Hocc. tauto.
  - intros o Ho. destruct (lowercase_In dir o Ho) as (n & Hocc & Hlow).
    apply all_occurrences_In in Hocc. destruct Hocc as (file & _ & _ & Hocc).
    apply occurrence_named in Hocc. destruct Hocc as (Hn & t & Ht).
    exists n, t. auto.
Qed.

(** A match of the declaration pattern ends at the first closing idiom
    that starts after the first name behind the keyword: the body the
    lazy [.*?] takes contains no earlier start of the closing idiom. *)
Theorem match_ends_at_first_closing_idiom (file_text : text) (m : re_match) :
  In m (finditer type_pattern file_text) ->
  exists a name kw blank word body b,
    file_text
    = a ++ ([nl; nl] ++ marker name ++ header ++ kw ++ blank ++ word)
        ++ body ++ footer ++ b
    /\ m_start m = length a
    /\ m_end m
       = length a
         + length (([nl; nl] ++ marker name ++ header ++ kw ++ blank ++ word)
                   ++ body ++ footer)
    /\ name_text name
    /\ (kw = T "pub struct" \/ kw = T "pub enum")
    /\ blank <> [] /\ Forall (fun x => is_space x = true) blank
    /\ name_text word
    /\ forall i, i < length body -> ~ occurs_at footer (body ++ footer ++ b) i.
Proof.
  intros H. apply finditer_from_attempt in H.
  destruct H as (a & b0 & q & len & -> & _ & Hs & He & Hat).
  apply type_first_result in Hat.
  destruct Hat as (h & body & r & -> & -> & Hh & Hfirst).
  apply lang_type_head in Hh.
  destruct Hh as (name & kw & blank & word & -> & Hn & Hkw & Hb1 & Hb2 & Hw).
  exists a, name, kw, blank, word, body, r. simpl in Hs.
  repeat split; try tauto; try lia.
  - destruct Hn; assumption.
  - destruct Hn; assumption.
  - destruct Hw; assumption.
  - destruct Hw; assumption.
Qed.

Lemma match_ends_at_first_closing_idiom_witness :
  exists a name kw blank word body b,
    chain_rs
    = a ++ ([nl; nl] ++ marker name ++ header ++ kw ++ blank ++ word)
        ++ body ++ footer ++ b
    /\ m_start (hd (ReMatch 0 0 []) (finditer type_pattern chain_rs)) = length a
    /\ m_end (hd (ReMatch 0 0 []) (finditer type_pattern chain_rs))
       = length a
         + length (([nl; nl] ++ marker name ++ header ++ kw ++ blank ++ word)
                   ++ body ++ footer).
Proof.
  assert (H : In (hd (ReMatch 0 0 []) (finditer type_pattern chain_rs))
                 (finditer type_pattern chain_rs)).
  { vm_compute. left. reflexivity. }
  destruct (match_ends_at_first_closing_idiom chain_rs _ H)
    as (a & name & kw & blank & word & body & b & E1 & E2 & E3 & _).
  exists a, name, kw, blank, word, body, b.
  split; [exact E1|]. split; [exact E2 | exact E3].
Defined.

Lemma lang_type_pattern (name kw blank word body : text) :
  name_text name -> kw = T "pub struct" \/ kw = T "pub enum" ->
  blank <> [] -> Forall (fun x => is_space x = true) blank -> name_text word ->
  lang type_pattern
    ([nl; nl] ++ marker name ++ header ++ kw ++ blank ++ word ++ body ++ footer).
Proof.
  intros [Hn1 Hn2] Hkw Hb1 Hb2 [Hw1 Hw2].
  assert (Hlen : forall l : text, l <> [] -> 1 <= length l).
  { intros [|x l] H; [congruence | simpl; lia]. }
  unfold type_pattern, marker. cbn [lang].
  exists ([nl; nl] ++ T "// "), (name ++ (T " ..." ++ [nl]) ++ header ++ kw ++ blank
                                 ++ word ++ body ++ footer).
  split; [rewrite <- !app_assoc; reflexivity|]. split; [reflexivity|].
  exists name, ((T " ..." ++ [nl]) ++ header ++ kw ++ blank ++ word ++ body ++ footer).
  split; [reflexivity|]. split; [auto|].
  exists (T " ..." ++ [nl]), (header ++ kw ++ blank ++ word ++ body ++ footer).
  split; [reflexivity|]. split; [reflexivity|].
  exists header, (kw ++ blank ++ word ++ body ++ footer).
  split; [reflexivity|]. split; [reflexivity|].
  exists kw, (blank ++ word ++ body ++ footer).
  split; [reflexivity|]. split; [exact Hkw|].
  exists blank, (word ++ body ++ footer).
  split; [reflexivity|]. split; [auto|].
  exists word, (body ++ footer).
  split; [reflexivity|]. split; [auto|].
  exists body, footer.
  split; [reflexivity|]. split; [|reflexivity].
  split; [apply Nat.le_0_l|]. apply Forall_forall. reflexivity.
Qed.

(** ** What a run leaves alone *)

Lemma dict_set_keys (K V : Type) (keq : K -> K -> bool) (k : K) (v : V)
      (d : list (K * V)) :
  map fst (dict_set keq k v d)
  = if existsb (keq k) (map fst d) then map fst d else map fst d ++ [k].
Proof.
  induction d as [|[k' v'] d IH]; simpl; [reflexivity|].
  destruct (keq k k') eqn:E; simpl; [reflexivity|].
  rewrite IH. destruct (existsb (keq k) (map fst d)); reflexivity.
Qed.

Lemma dict_set_keys_In (k : string) (v : text) (d : directory) :
  In k (map fst d) -> map fst (dict_set String.eqb k v d) = map fst d.
Proof.
  intros H. rewrite dict_set_keys.
  assert (E : existsb (String.eqb k) (map fst d) = true).
  { apply existsb_exists. exists k. split; [exact H | apply String.eqb_refl]. }
  rewrite E. reflexivity.
Qed.

Lemma for_each_rewrite_keys (contents : contents_index)
      (entries : list (string * list span)) :
  forall fs,
    (forall f ps, In (f, ps) entries ->
             In f (map fst fs)
             /\ exists old, dict_get String.eqb f contents = Some old) ->
    exists fs',
      for_each entries (rewrite_file contents) fs = (Some tt, fs')
      /\ map fst fs' = map fst fs
      /\ (forall g, ~ In g (map fst entries) ->
               dict_get String.eqb g fs' = dict_get String.eqb g fs).
Proof.
  induction entries as [|[f ps] entries IH]; intros fs H.
  - exists fs. simpl. auto.
  - destruct (H f ps (or_introl eq_refl)) as (Hf & old & Hold).
    pose proof (rewrite_file_result contents f ps old fs Hold) as E.
    set (fs1 := if nonempty ps && negb (text_eqb (delete_spans old ps) old)
                then dict_set String.eqb f (delete_spans old ps) fs else fs) in *.
    assert (Hk : map fst fs1 = map fst fs).
    { unfold fs1. destruct (nonempty ps && _); [|reflexivity].
      apply dict_set_keys_In. exact Hf. }
    destruct (IH fs1) as (fs' & E' & Hk' & Hframe).
    { intros f' ps' Hin. rewrite Hk. apply (H f' ps'). right. exact Hin. }
    exists fs'. split; [|split].
    + cbn [for_each]. unfold bind. rewrite E. exact E'.
    + congruence.
    + intros g Hg. simpl in Hg. rewrite Hframe by tauto.
      unfold fs1. destruct (nonempty ps && _); [|reflexivity].
      rewrite (dict_get_set _ _ String.eqb String.eqb_eq).
      destruct (String.eqb g f) eqn:Eg; [|reflexivity].
      apply String.eqb_eq in Eg. subst g. tauto.
Qed.

Lemma occurrence_has_span (file : string * text) (n : text) (o : StructMatch) :
  In (n, o) (occurrences_of_file file) -> type_spans (snd file) <> [].
Proof.
  intros H. apply occurrences_of_file_In in H.
  destruct H as (_ & Hs & _). intros E. rewrite E in Hs. contradiction.
Qed.

(** A file of the plan is a Rust file of the directory in which a
    declaration was matched. *)
Lemma plan_file_matched (fs : directory) (typecount : Z) (ft : type_index)
      (g : string) :
  print_summary (type_locations (scan_rust_files fs)) typecount = Some ft ->
  In g (map fst (file_positions ft (lowercase_matches (scan_rust_files fs)))) ->
  exists t, In (g, t) fs /\ is_rust_file g = true /\ type_spans t <> [].
Proof.
  intros Hps Hgp. apply in_map_iff in Hgp. destruct Hgp as ([g' ps] & Eg & Hgp).
  simpl in Eg. subst g'.
  pose proof (file_positions_nonempty _ _ _ _ Hgp) as Hps'.
  destruct ps as [|p ps]; [congruence|].
  destruct (file_positions_In _ _ _ _ p Hgp (or_introl eq_refl))
    as (o & Ho & Hf & _).
  destruct (planned_occurrence fs typecount ft o Hps Ho)
    as (n & file_text & Hfile & Hrs & Hocc).
  rewrite Hf in Hfile, Hrs, Hocc.
  apply occurrence_has_span in Hocc. exists file_text. auto.
Qed.

(** A promoting run: the shared module is written, then the files of the
    plan are rewritten; no file appears or disappears in the rewrite, a
    file of the plan ends as its scan-time text without its planned
    spans, and a file outside the plan keeps what it held after the
    shared module was written. *)
Lemma promoting_run_steps (typecount : Z) (fs : directory) (ft : type_index)
      (written : text) :
  NoDup (map fst fs) ->
  print_summary (type_locations (scan_rust_files fs)) typecount = Some ft ->
  generate_common_file ft common_rs fs
  = (Some tt, dict_set String.eqb common_rs written fs) ->
  exists fs',
    main typecount fs = (0%Z, fs')
    /\ map fst fs' = map fst (dict_set String.eqb common_rs written fs)
    /\ (forall g ps,
           In (g, ps) (file_positions ft (lowercase_matches (scan_rust_files fs))) ->
           exists old,
             In (g, old) fs
             /\ dict_get String.eqb g fs' = Some (delete_spans old ps))
    /\ forall g,
         ~ In g (map fst (file_positions ft (lowercase_matches (scan_rust_files fs)))) ->
         dict_get String.eqb g fs'
         = if String.eqb g common_rs then Some written
           else dict_get String.eqb g fs.
Proof.
  intros Hn Hps Egen.
  set (fs1 := dict_set String.eqb common_rs written fs) in *.
  set (sc := scan_rust_files fs) in *.
  set (plan := file_positions ft (lowercase_matches sc)).
  assert (Hin1 : forall f, In f (map fst fs) -> In f (map fst fs1)).
  { intros f Hf. unfold fs1. rewrite dict_set_keys.
    destruct (existsb _ _); [|apply in_or_app]; auto. }
  destruct (for_each_rewrite_keys (file_contents sc) plan fs1)
    as (fs' & Hrun & Hkeys & Hframe).
  { intros f ps H.
    destruct (planned_files_read fs typecount ft f ps Hn Hps H) as (old & Hold & Hget).
    split; [|exists old; exact Hget].
    apply Hin1. apply in_map_iff. exists (f, old). auto. }
  destruct (for_each_rewrite (file_contents sc) plan fs1)
    as (fs2 & Hrun2 & _ & Hwrite).
  { intros f ps H.
    destruct (planned_files_read fs typecount ft f ps Hn Hps H) as (o & _ & Ho).
    exists o. exact Ho. }
  assert (E2 : fs2 = fs') by congruence. subst fs2.
  exists fs'. split; [|split; [exact Hkeys|split]].
  - unfold main. rewrite (main_promoting typecount fs ft Hps).
    unfold bind at 1. rewrite Egen. fold fs1. fold sc. fold plan. rewrite Hrun.
    reflexivity.
  - intros g ps Hin.
    destruct (planned_files_read fs typecount ft g ps Hn Hps Hin)
      as (old & Hold & Hread).
    pose proof (file_positions_NoDup ft (lowercase_matches sc)) as Hk.
    pose proof (dict_get_In _ _ String.eqb String.eqb_eq g ps plan Hk Hin) as Hget.
    unfold plan in Hget. rewrite file_positions_get in Hget.
    destruct (planned_spans fs typecount ft g old Hn Hold Hps) as [Hnd Hincl].
    fold sc in Hnd, Hincl.
    assert (Eps : map span_of
                    (filter (fun m => String.eqb g (filename m))
                       (flat_map snd ft ++ lowercase_matches sc)) = ps).
    { destruct (map span_of
                  (filter (fun m => String.eqb g (filename m))
                     (flat_map snd ft ++ lowercase_matches sc)));
        [discriminate | congruence]. }
    rewrite Eps in Hnd, Hincl.
    pose proof (delete_spans_length old ps Hnd Hincl) as Hlen.
    pose proof (file_positions_nonempty _ _ _ _ Hin) as Hnonempty.
    assert (Hpos : 0 < total_len ps).
    { eapply total_len_positive; [apply type_spans_ascending | exact Hincl |].
      exact Hnonempty. }
    exists old. split; [exact Hold|].
    apply (Hwrite Hk g ps old Hin Hnonempty Hread).
    apply text_eqb_length. lia.
  - intros g Hg. rewrite (Hframe g Hg). unfold fs1.
    apply (dict_get_set _ _ String.eqb String.eqb_eq).
Qed.

(** A run creates no file other than the shared module and removes none;
    and whatever the outcome, a file other than the shared module in
    which no declaration is matched (so also every file that is not a
    Rust file) is left as it was. *)
Theorem run_frame (typecount : Z) (fs : directory) :
  NoDup (map fst fs) ->
  (map fst (snd (main typecount fs)) = map fst fs
   \/ map fst (snd (main typecount fs)) = map fst fs ++ [common_rs])
  /\ forall g,
       g <> common_rs ->
       (forall t, In (g, t) fs -> is_rust_file g = true -> type_spans t = []) ->
       dict_get String.eqb g (snd (main typecount fs)) = dict_get String.eqb g fs.
Proof.
  intros Hn.
  destruct (print_summary (type_locations (scan_rust_files fs)) typecount)
    as [ft|] eqn:Hps.
  - assert (Hne : forall n' ms', In (n', ms') ft -> ms' <> []).
    { intros n' ms' H. pose proof (print_summary_Some _ _ _ Hps) as [E _].
      rewrite E in H. apply filter_In in H. destruct H as [H _].
      eapply type_locations_nonempty. exact H. }
    destruct (generate_common_file_eq ft common_rs fs Hne) as (blocks & Egen & _).
    destruct (promoting_run_steps typecount fs ft _ Hn Hps Egen)
      as (fs' & Emain & Hkeys & _ & Hframe).
    rewrite Emain. cbn [snd]. split.
    { rewrite Hkeys, dict_set_keys.
      destruct (existsb _ _); [left | right]; reflexivity. }
    intros g Hg Hnone. rewrite Hframe.
    + destruct (String.eqb g common_rs) eqn:E; [|reflexivity].
      apply String.eqb_eq in E. congruence.
    + intros Hgp.
      destruct (plan_file_matched fs typecount ft g Hps Hgp) as (t & Hin & Hrs & Hsp).
      apply Hsp. apply Hnone; assumption.
  - assert (Emain : main typecount fs
                    = ((if nonempty (lowercase_matches (scan_rust_files fs))
                        then 1 else 0)%Z, fs)).
    { destruct (nonempty (lowercase_matches (scan_rust_files fs))) eqn:E.
      - apply main_raises; assumption.
      - unfold main, main_body. rewrite Hps, E. reflexivity. }
    rewrite Emain. cbn [snd]. auto.
Qed.

Lemma run_frame_witness :
  (map fst (snd (main 1 (("notes.txt"%string, chain_rs) :: chain_dir)))
   = map fst (("notes.txt"%string, chain_rs) :: chain_dir)
   \/ map fst (snd (main 1 (("notes.txt"%string, chain_rs) :: chain_dir)))
      = map fst (("notes.txt"%string, chain_rs) :: chain_dir) ++ [common_rs])
  /\ dict_get String.eqb "notes.txt"%string
       (snd (main 1 (("notes.txt"%string, chain_rs) :: chain_dir)))
     = Some chain_rs.
Proof.
  assert (Hn : NoDup (map fst (("notes.txt"%string, chain_rs) :: chain_dir))).
  { simpl. repeat constructor; simpl; intuition discriminate. }
  destruct (run_frame 1 _ Hn) as [H1 H2].
  split; [exact H1|].
  rewrite (H2 "notes.txt"%string).
  - reflexivity.
  - discriminate.
  - intros t _ Hrs. vm_compute in Hrs. discriminate.
Defined.

(** ** The promotable index *)

(** Looking a name up in the promotable index gives the occurrences
    filed under that name that start with an upper-case letter, in the
    order of the scan (files as listed, then by offset); there is no
    entry when there is none.  Each of them carries as usage count the
    number of references to the name in its own file. *)
Theorem index_entry (dir : directory) (n : text) :
  dict_get text_eqb n (type_locations (scan_rust_files dir))
  = match map snd (filter (fun o => text_eqb n (fst o))
                     (filter named_upper (all_occurrences dir))) with
    | [] => None
    | ms => Some ms
    end
  /\ forall ms o,
       dict_get text_eqb n (type_locations (scan_rust_files dir)) = Some ms ->
       In o ms ->
       exists file_text,
         In (filename o, file_text) dir
         /\ usage_count o = count_name n (usages_of file_text).
Proof.
  split.
  - rewrite scan_type_locations.
    exact (fold_add_get _ _ text_eqb text_eqb_eq
             (filter named_upper (all_occurrences dir)) n []).
  - intros ms o Hget Ho.
    apply dict_get_Some_In in Hget; [|exact text_eqb_eq].
    destruct (type_locations_In dir n ms o Hget Ho) as [Hocc Hup].
    apply all_occurrences_In in Hocc.
    destruct Hocc as ([f file_text] & Hin & _ & Hocc).
    apply occurrences_of_file_In in Hocc.
    destruct Hocc as (Hf & _ & Hu & _). simpl in Hf, Hu.
    exists file_text. rewrite Hf, Hu, Hup. auto.
Qed.

(** ** Where a type reference can be *)

Lemma prev_after_snoc (p : option ascii) (a : text) (c : ascii) :
  prev_after p (a ++ [c]) = Some c.
Proof. unfold prev_after. rewrite fold_left_app. reflexivity. Qed.

Lemma prev_after_line (a : text) :
  prev_after None a = None \/ prev_after None a = Some nl -> ends_line a.
Proof.
  intros H. destruct (rev a) as [|c r] eqn:E.
  - left. apply (f_equal (@rev ascii)) in E. rewrite rev_involutive in E. exact E.
  - apply (f_equal (@rev ascii)) in E. rewrite rev_involutive in E. simpl in E.
    subst a. rewrite prev_after_snoc in H. right. exists (rev r).
    destruct H as [H|H]; [discriminate | congruence].
Qed.

Lemma token_not_slash (l : text) :
  Forall (fun x => token x = true) l -> Forall (fun x => not_slash x = true) l.
Proof.
  apply Forall_impl. intros x Hx. unfold not_slash.
  destruct (Ascii.eqb x "/") eqn:E; [|reflexivity].
  apply Ascii.eqb_eq in E. subst x. discriminate.
Qed.

Lemma lang_usage_no_slash (c : text) :
  lang type_usage_patterns c -> Forall (fun x => not_slash x = true) c.
Proof.
  rewrite type_usage_patterns_eq. cbn [lang].
  intros (c0 & r0 & -> & -> & pre & tl & -> & [_ Hpre] & Htl).
  apply lang_usage_tail in Htl. destruct Htl as (mid & -> & Hmid).
  simpl. apply Forall_app. split; [exact Hpre|].
  constructor; [reflexivity|]. apply Forall_app. split.
  - apply token_not_slash. exact Hmid.
  - constructor; [reflexivity | constructor].
Qed.

Lemma usage_attempt_line (p : option ascii) (s : text) (len : nat)
      (gs : list (nat * text)) :
  match_at type_usage_patterns p s = Some (len, gs) -> p = None \/ p = Some nl.
Proof.
  rewrite match_at_usage. destruct p as [c|]; [|auto].
  destruct (Ascii.eqb c nl) eqn:E; [|discriminate].
  apply Ascii.eqb_eq in E. subst c. auto.
Qed.

Lemma usage_match_span (file_text : text) (m : re_match) :
  In m (finditer type_usage_patterns file_text) ->
  exists a c b,
    file_text = a ++ c ++ b
    /\ m_start m = length a /\ m_end m = length a + length c
    /\ ends_line a
    /\ Forall (fun x => not_slash x = true) c.
Proof.
  intros H. apply finditer_from_attempt_prev in H.
  destruct H as (a & b0 & len & -> & _ & Hs & He & Hat).
  pose proof (usage_attempt_line _ _ _ _ Hat) as Hline.
  apply match_at_sound in Hat. destruct Hat as (c & b & -> & -> & Hc).
  exists a, c, b. simpl in Hs. repeat split; auto; try lia.
  - apply prev_after_line. exact Hline.
  - apply lang_usage_no_slash. exact Hc.
Qed.

(** Every match of the usage pattern starts at the beginning of a line
    and contains no slash.  So no match reaches into the text from a
    slash to the end of its line: what follows [//] on a line is never
    counted as a reference. *)
Theorem usage_match_avoids_slash (file_text : text) (m : re_match) :
  In m (finditer type_usage_patterns file_text) ->
  (exists a c b,
      file_text = a ++ c ++ b
      /\ m_start m = length a /\ m_end m = length a + length c
      /\ ends_line a
      /\ Forall (fun x => not_slash x = true) c)
  /\ forall pre t post,
       file_text = pre ++ "/"%char :: t ++ post -> ~ In nl t ->
       m_end m <= length pre \/ length pre + 1 + length t <= m_start m.
Proof.
  intros H. pose proof (usage_match_span file_text m H) as Hspan.
  split; [exact Hspan|].
  destruct Hspan as (a & c & b & E & Hs & He & Hline & Hc).
  intros pre t post E' Hnl. rewrite Hs, He.
  destruct (Nat.le_gt_cases (length a + length c) (length pre)) as [H1|H1];
    [left; exact H1|].
  destruct (Nat.le_gt_cases (length pre + 1 + length t) (length a)) as [H2|H2];
    [right; exact H2|].
  exfalso. rewrite E in E'.
  destruct (Nat.le_gt_cases (length a) (length pre)) as [H3|H3].
  - (* the match would contain the slash *)
    symmetry in E'.
    destruct (app_split_le _ _ _ _ _ E' H3) as (u & Eu & Ecb).
    assert (Hu : length u < length c).
    { rewrite Eu, length_app in H1. lia. }
    assert (Hin : In "/"%char c).
    { assert (E2 : c ++ b = u ++ "/"%char :: t ++ post) by exact Ecb.
      destruct (app_split_le _ _ _ _ _ E2) as (v & Ev & _); [lia|].
      destruct v as [|v0 v].
      - rewrite app_nil_r in Ev. rewrite Ev in Hu. lia.
      - rewrite Ev in E2. rewrite <- app_assoc in E2.
        apply app_inv_head in E2. simpl in E2. injection E2 as E0 _.
        subst v0. rewrite Ev. apply in_elt. }
    rewrite Forall_forall in Hc. apply Hc in Hin. discriminate.
  - (* the match would start inside the line, after the slash *)
    assert (Hle : length pre <= length a) by lia.
    destruct (app_split_le _ _ _ _ _ E' Hle) as (u & Eu & Ecb).
    destruct u as [|u0 u]; [rewrite app_nil_r in Eu; rewrite Eu in H3; lia|].
    simpl in Ecb. injection Ecb as E0 Ecb. subst u0.
    assert (Hut : length u <= length t).
    { rewrite Eu, length_app in H2. simpl in H2. lia. }
    destruct (app_split_le _ _ _ _ _ Ecb Hut) as (w & Ew & _).
    destruct Hline as [Ha|(a' & Ha)].
    + rewrite Ha in Eu. destruct pre; discriminate.
    + rewrite Ha in Eu.
      assert (Hlast : In nl ("/"%char :: u)).
      { destruct (exists_last (l := "/"%char :: u)) as (x & y & Exy); [discriminate|].
        rewrite Exy in Eu. rewrite app_assoc in Eu.
        apply app_inj_tail in Eu. destruct Eu as [_ Ey]. subst y.
        rewrite Exy. apply in_elt. }
      destruct Hlast as [Hlast|Hlast]; [discriminate|].
      apply Hnl. rewrite Ew. apply in_or_app. left. exact Hlast.
Qed.

Lemma usage_match_avoids_slash_witness :
  exists a c b,
    field_rs = a ++ c ++ b
    /\ m_start (hd (ReMatch 0 0 []) (finditer type_usage_patterns field_rs))
       = length a
    /\ Forall (fun x => not_slash x = true) c.
Proof.
  assert (H : In (hd (ReMatch 0 0 []) (finditer type_usage_patterns field_rs))
                 (finditer type_usage_patterns field_rs)).
  { vm_compute. left. reflexivity. }
  destruct (usage_match_avoids_slash field_rs _ H)
    as [(a & c & b & E1 & E2 & _ & _ & E3) _].
  exists a, c, b. split; [exact E1|]. split; [exact E2 | exact E3].
Defined.

(** ** What a promoting run achieves *)

Lemma promoted_holds_declarations (dir : directory) (typecount : Z)
      (ft : type_index) :
  print_summary (type_locations (scan_rust_files dir)) typecount = Some ft ->
  forall n ms, In (n, ms) ft ->
    exists m0 ms' t,
      ms = m0 :: ms' /\ name_text n
      /\ content m0 = [nl; nl] ++ marker n ++ t ++ footer.
Proof.
  intros Hps n ms Hin.
  pose proof (print_summary_Some _ _ _ Hps) as [E _].
  rewrite E in Hin. apply filter_In in Hin. destruct Hin as [Hin _].
  pose proof (type_locations_nonempty dir n ms Hin) as Hne.
  destruct ms as [|m0 ms']; [congruence|].
  destruct (type_locations_In dir n _ m0 Hin (or_introl eq_refl)) as [Hocc _].
  apply all_occurrences_In in Hocc. destruct Hocc as (file & _ & _ & Hocc).
  apply occurrence_named in Hocc. destruct Hocc as (Hn & t & Ht).
  exists m0, ms', (header ++ t). rewrite Ht, <- !app_assoc. auto.
Qed.

(** After a promoting run over a directory whose shared module holds no
    matched declaration (or that has no shared module yet), the shared
    module has a comment line for every promoted name, and for every
    name it had one for before the run. *)
Theorem promoted_names_reach_shared_module (typecount : Z) (fs : directory)
        (ft : type_index) :
  NoDup (map fst fs) ->
  print_summary (type_locations (scan_rust_files fs)) typecount = Some ft ->
  (forall t, In (common_rs, t) fs -> type_spans t = []) ->
  fst (main typecount fs) = 0%Z
  /\ (forall n, In n (map fst ft) ->
           In n (declared_names (content_of common_rs (snd (main typecount fs)))))
  /\ (forall n, In n (declared_names (content_of common_rs fs)) ->
           In n (declared_names (content_of common_rs (snd (main typecount fs))))).
Proof.
  intros Hn Hps Hnone.
  destruct (generate_common_file_text ft common_rs fs
              (promoted_holds_declarations fs typecount ft Hps))
    as (written & Egen & _ & Hall & Hkept).
  destruct (promoting_run_steps typecount fs ft written Hn Hps Egen)
    as (fs' & Emain & _ & _ & Hframe).
  assert (Ec : content_of common_rs fs' = written).
  { unfold content_of. rewrite Hframe.
    - rewrite String.eqb_refl. reflexivity.
    - intros Hp.
      destruct (plan_file_matched fs typecount ft common_rs Hps Hp)
        as (t & Hin & _ & Hsp).
      apply Hsp. apply Hnone. exact Hin. }
  rewrite Emain. cbn [fst snd]. rewrite Ec. auto.
Qed.

Lemma promoted_names_reach_shared_module_witness :
  fst (main 1 chain_dir) = 0%Z
  /\ (forall n,
         In n (map fst (filter (fun e => qualifies 1 (snd e))
                          (type_locations (scan_rust_files chain_dir)))) ->
         In n (declared_names (content_of common_rs (snd (main 1 chain_dir))))).
Proof.
  assert (Hn : NoDup (map fst chain_dir)).
  { repeat constructor. intros []. }
  assert (Hps : print_summary (type_locations (scan_rust_files chain_dir)) 1
                = Some (filter (fun e => qualifies 1 (snd e))
                          (type_locations (scan_rust_files chain_dir)))).
  { vm_compute. reflexivity. }
  assert (Hnone : forall t, In (common_rs, t) chain_dir -> type_spans t = []).
  { intros t [H|[]]. vm_compute in H. discriminate. }
  destruct (promoted_names_reach_shared_module 1 chain_dir _ Hn Hps Hnone)
    as (E1 & E2 & _).
  split; [exact E1 | exact E2].
Defined.

(** ** The order of the appended blocks *)

Lemma text_leb_total (a b : text) : text_leb a b = false -> text_leb b a = true.
Proof.
  revert b. induction a as [|x a IH]; intros [|y b] H; cbn [text_leb] in *;
    try reflexivity; try discriminate.
  destruct (Nat.ltb_spec (nat_of_ascii x) (nat_of_ascii y)); [discriminate|].
  destruct (Nat.ltb_spec (nat_of_ascii y) (nat_of_ascii x)); [reflexivity|].
  apply IH. exact H.
Qed.

Lemma text_leb_trans (a b c : text) :
  text_leb a b = true -> text_leb b c = true -> text_leb a c = true.
Proof.
  revert b c. induction a as [|x a IH]; intros [|y b] [|z c] H1 H2;
    cbn [text_leb] in *; try reflexivity; try discriminate.
  destruct (Nat.ltb_spec (nat_of_ascii x) (nat_of_ascii y));
    destruct (Nat.ltb_spec (nat_of_ascii y) (nat_of_ascii x));
    destruct (Nat.ltb_spec (nat_of_ascii y) (nat_of_ascii z));
    destruct (Nat.ltb_spec (nat_of_ascii z) (nat_of_ascii y));
    destruct (Nat.ltb_spec (nat_of_ascii x) (nat_of_ascii z));
    destruct (Nat.ltb_spec (nat_of_ascii z) (nat_of_ascii x));
    try reflexivity; try discriminate; try lia.
  eapply IH; eassumption.
Qed.

Lemma sorted_map (X Y : Type) (leb : Y -> Y -> bool) (f : X -> Y) (l : list X) :
  sorted (fun a b => leb (f a) (f b)) l -> sorted leb (map f l).
Proof.
  induction 1 as [|a l Ha Hl IH]; simpl; constructor; [|exact IH].
  apply Forall_map. exact Ha.
Qed.

Lemma sorted_filter (X : Type) (leb : X -> X -> bool) (p : X -> bool) (l : list X) :
  sorted leb l -> sorted leb (filter p l).
Proof.
  induction 1 as [|a l Ha Hl IH]; simpl; [constructor|].
  destruct (p a); [|exact IH]. constructor; [|exact IH].
  rewrite Forall_forall in *. intros b Hb. apply filter_In in Hb. apply Ha. tauto.
Qed.

Lemma new_names_sorted (existing : list text) (ft : type_index) :
  sorted text_leb (new_names existing (sorted_items ft)).
Proof.
  unfold new_names. apply sorted_filter. apply sorted_map.
  unfold sorted_items. apply sort_by_sorted.
  - intros a b. apply text_leb_total.
  - intros a b c. apply text_leb_trans.
Qed.

(** The blocks [generate_common_file] appends are in ascending order of
    their names, by code point, whatever the order of the index: in the
    list of appended names every name is at most each name after it. *)
Theorem writer_appends_in_name_order (ft : type_index) (output_file : string)
        (fs : directory) :
  (forall n ms, In (n, ms) ft -> ms <> []) ->
  exists names blocks,
    generate_common_file ft output_file fs
    = (Some tt,
       dict_set String.eqb output_file
         (rstrip_nl (content_of output_file fs)
          ++ flat_map (cons nl) blocks ++ [nl; nl]) fs)
    /\ Forall2 (fun n b => exists m0 ms,
                    In (n, m0 :: ms) ft /\ b = rstrip_nl (content m0))
               names blocks
    /\ sorted text_leb names.
Proof.
  intros Hne.
  destruct (generate_common_file_eq ft output_file fs Hne) as (blocks & Egen & HF).
  exists (new_names (declared_names (content_of output_file fs)) (sorted_items ft)),
    blocks.
  split; [exact Egen|]. split; [exact HF|]. apply new_names_sorted.
Qed.

Lemma writer_appends_in_name_order_witness :
  exists names blocks,
    generate_common_file (type_locations (scan_rust_files chain_dir)) common_rs
      chain_dir
    = (Some tt,
       dict_set String.eqb common_rs
         (rstrip_nl (content_of common_rs chain_dir)
          ++ flat_map (cons nl) blocks ++ [nl; nl]) chain_dir)
    /\ length names = length blocks
    /\ sorted text_leb names.
Proof.
  destruct (writer_appends_in_name_order (type_locations (scan_rust_files chain_dir))
              common_rs chain_dir)
    as (names & blocks & E1 & E2 & E3).
  - intros n ms H E. subst ms. vm_compute in H.
    repeat (destruct H as [H|H]; [discriminate H|]). exact H.
  - exists names, blocks. split; [exact E1|]. split; [|exact E3].
    eapply Forall2_length. exact E2.
Defined.

(** ** The summary of the violations *)

Lemma summary_match (q : option ascii) (n b : text) :
  name_text n ->
  match_at summary_pattern q (marker n ++ b)
  = Some (length (T "// " ++ n ++ T " ..."), [(1, n)]).
Proof.
  intros [Hne Hn]. unfold match_at, summary_pattern, marker. cbn [run].
  cbn [rest init_state]. rewrite <- !app_assoc. rewrite lit_app.
  rewrite advance_all_record by reflexivity.
  cbn [rest open_group].
  apply rep_greedy_run; [exact Hn | reflexivity | |].
  { destruct n; [congruence | simpl; lia]. }
  rewrite advance_all_record by reflexivity.
  unfold close_group.
  cbn [opened open_group init_state map push fst snd prev rest used caps].
  rewrite app_nil_r, rev_involutive.
  rewrite lit_app. rewrite advance_all_record by reflexivity.
  cbn [used caps]. rewrite !length_app. simpl.
  repeat f_equal; lia.
Qed.

Lemma printed_name_found (n t : text) (o : StructMatch) :
  name_text n -> content o = [nl; nl] ++ marker n ++ t ->
  printed_name o = Some n.
Proof.
  intros Hn Hc. unfold printed_name. rewrite search_hd, Hc.
  cbn [app].
  do 2 (rewrite hd_finditer_skip by reflexivity).
  rewrite (hd_finditer_hit _ _ _ _ _ _ (summary_match _ n t Hn)).
  reflexivity.
Qed.

Lemma by_file_pairs (pairs : list (text * StructMatch)) :
  (forall n o, In (n, o) pairs -> printed_name o = Some n) ->
  forall acc,
    by_file (map snd pairs) acc
    = Some (fold_left (pair_add String.eqb)
              (map (fun no => (filename (snd no), fst no)) pairs) acc).
Proof.
  induction pairs as [|[n o] pairs IH]; intros H acc; [reflexivity|].
  simpl. rewrite (H n o (or_introl eq_refl)).
  apply IH. intros n' o' Hin. apply H. right. exact Hin.
Qed.

Lemma fold_add_member (K E : Type) (keq : K -> K -> bool) (os : list (K * E))
      (j : K) (v : E) :
  (forall a b, keq a b = true <-> a = b) ->
  In (j, v) os ->
  exists vs, In (j, vs) (fold_left (pair_add keq) os []) /\ In v vs.
Proof.
  intros Hk Hin.
  pose proof (fold_add_get _ _ keq Hk os j []) as Hget. simpl in Hget.
  assert (Hv : In v (map snd (filter (fun o => keq j (fst o)) os))).
  { apply in_map_iff. exists (j, v). split; [reflexivity|].
    apply filter_In. split; [exact Hin|]. simpl. apply Hk. reflexivity. }
  destruct (map snd (filter (fun o => keq j (fst o)) os)) as [|v0 vs] eqn:Evs;
    [contradiction|].
  exists (v0 :: vs). split; [|exact Hv].
  apply (dict_get_Some_In _ _ keq Hk). exact Hget.
Qed.

(** The first part of [print_summary] never raises on what the scan
    found: the search for the name in the stored text of a violation
    always succeeds and gives the name the violation was scanned with.
    The dictionary [by_file] then lists, under each file, the names of
    the violations of that file and nothing else. *)
Theorem summary_names_violations (dir : directory) :
  exists bf,
    by_file (lowercase_matches (scan_rust_files dir)) [] = Some bf
    /\ lowercase_report (lowercase_matches (scan_rust_files dir))
       = Some (if nonempty (lowercase_matches (scan_rust_files dir))
               then [[]; T "Lowercase types to be removed:"; rule]
                    ++ violation_lines bf ++ [[]]
               else [])
    /\ (forall o, In o (lowercase_matches (scan_rust_files dir)) ->
             exists n, printed_name o = Some n /\ starts_upper n = false
                  /\ In (n, o) (all_occurrences dir))
    /\ (forall f n,
           (exists ns, In (f, ns) bf /\ In n ns)
           <-> exists o, In o (lowercase_matches (scan_rust_files dir))
                    /\ filename o = f /\ printed_name o = Some n).
Proof.
  set (pairs := filter named_lower (all_occurrences dir)).
  assert (Hlows : lowercase_matches (scan_rust_files dir) = map snd pairs)
    by apply scan_lowercase.
  assert (Hname : forall n o, In (n, o) pairs -> printed_name o = Some n).
  { intros n o H. apply filter_In in H. destruct H as [H _].
    apply all_occurrences_In in H. destruct H as (file & _ & _ & H).
    apply occurrence_named in H. destruct H as (Hn & t & Ht).
    eapply printed_name_found; eassumption. }
  pose proof (by_file_pairs pairs Hname []) as Hbf.
  set (bf := fold_left (pair_add String.eqb)
               (map (fun no => (filename (snd no), fst no)) pairs) []) in *.
  rewrite <- Hlows in Hbf.
  exists bf.
  split; [exact Hbf|]. split; [|split].
  - unfold lowercase_report.
    destruct (lowercase_matches (scan_rust_files dir)) eqn:E; [reflexivity|].
    rewrite Hbf. reflexivity.
  - intros o Ho. rewrite Hlows in Ho. apply in_map_iff in Ho.
    destruct Ho as ([n o'] & Eo & Hin). simpl in Eo. subst o'.
    exists n. split; [apply (Hname n o Hin)|].
    apply filter_In in Hin. destruct Hin as [Hin Hl].
    unfold named_lower in Hl. simpl in Hl. apply negb_true_iff in Hl. auto.
  - intros f n. split.
    + intros (ns & Hin & Hn).
      destruct (fold_add_In _ _ String.eqb String.eqb_eq _ _ _ _ _ Hin Hn)
        as [H|(ws & [] & _)].
      apply in_map_iff in H. destruct H as ([n' o] & E & H). simpl in E.
      inversion E; subst f n'. exists o. split; [|split; [reflexivity|]].
      * rewrite Hlows. apply in_map_iff. exists (n, o). auto.
      * apply (Hname n o H).
    + intros (o & Ho & Hf & Hp). rewrite Hlows in Ho. apply in_map_iff in Ho.
      destruct Ho as ([n' o'] & Eo & Hin). simpl in Eo. subst o'.
      rewrite (Hname n' o Hin) in Hp. inversion Hp; subst n'.
      apply (fold_add_member _ _ String.eqb _ f n String.eqb_eq).
      apply in_map_iff. exists (n, o). simpl. rewrite Hf. auto.
Qed.

(** ** An index entry without occurrences *)

Lemma new_blocks_None (existing : list text) (items : type_index) :
  new_blocks existing items = None
  <-> exists n, In (n, []) items /\ mem_text n existing = false.
Proof.
  induction items as [|[n ms] items IH]; simpl.
  - split; [discriminate | intros (n & [] & _)].
  - destruct (mem_text n existing) eqn:Em.
    + rewrite IH. split.
      * intros (n' & H & E). exists n'. auto.
      * intros (n' & [H|H] & E); [|exists n'; auto].
        inversion H; subst. congruence.
    + destruct ms as [|m0 ms].
      * split; [|reflexivity]. intros _. exists n. auto.
      * destruct (new_blocks existing items) as [bs|] eqn:Eb.
        -- split; [discriminate|].
           intros (n' & [H|H] & E); [discriminate H|].
           assert (Hn : Some bs = None) by (apply (proj2 IH); exists n'; auto).
           discriminate Hn.
        -- split; [|reflexivity]. intros _.
           destruct (proj1 IH eq_refl) as (n' & H & E). exists n'. auto.
Qed.

(** [generate_common_file] prepares everything before it opens the file:
    either it raises, and then nothing is written, or it writes the
    file once.  It raises exactly when a name that has no comment line in
    the shared module yet comes with an empty list of occurrences, the
    [IndexError] of [matches[0]]. *)
Theorem writer_index_error (ft : type_index) (output_file : string)
        (fs : directory) :
  (generate_common_file ft output_file fs = (None, fs)
   /\ exists n, In (n, []) ft
           /\ ~ In n (declared_names (content_of output_file fs)))
  \/ ((exists written,
          generate_common_file ft output_file fs
          = (Some tt, dict_set String.eqb output_file written fs))
      /\ forall n, In (n, []) ft ->
              In n (declared_names (content_of output_file fs))).
Proof.
  unfold generate_common_file, bind.
  rewrite read_existing_common_eq.
  destruct (new_blocks (declared_names (content_of output_file fs))
              (sorted_items ft)) as [blocks|] eqn:E.
  - right. split; [eexists; reflexivity|].
    intros n Hin.
    destruct (mem_text n (declared_names (content_of output_file fs))) eqn:Em.
    + apply mem_text_In. exact Em.
    + assert (H : new_blocks (declared_names (content_of output_file fs))
                    (sorted_items ft) = None).
      { apply new_blocks_None. exists n. split; [|exact Em].
        apply (Permutation_in _ (Permutation_sym (sorted_items_perm ft))).
        exact Hin. }
      congruence.
  - left. split; [reflexivity|].
    apply new_blocks_None in E. destruct E as (n & Hin & Em).
    exists n. split.
    + apply (Permutation_in _ (sorted_items_perm ft)). exact Hin.
    + intros H. apply mem_text_In in H. congruence.
Qed.

(** ** Only the first occurrence is copied *)

Lemma insert_sorted_map (X Y : Type) (f : X -> Y) (leb : X -> X -> bool)
      (leb' : Y -> Y -> bool) (x : X) (l : list X) :
  (forall a b, leb a b = leb' (f a) (f b)) ->
  map f (insert_sorted leb x l) = insert_sorted leb' (f x) (map f l).
Proof.
  intros H. induction l as [|y l IH]; simpl; [reflexivity|].
  rewrite <- H. destruct (leb x y); simpl; [reflexivity|].
  rewrite IH. reflexivity.
Qed.

Lemma sort_by_map (X Y : Type) (f : X -> Y) (leb : X -> X -> bool)
      (leb' : Y -> Y -> bool) (l : list X) :
  (forall a b, leb a b = leb' (f a) (f b)) ->
  map f (sort_by leb l) = sort_by leb' (map f l).
Proof.
  intros H. induction l as [|x l IH]; simpl; [reflexivity|].
  rewrite (insert_sorted_map _ _ f leb leb' x _ H), IH. reflexivity.
Qed.

Lemma new_blocks_first_content (existing : list text) (items : type_index) :
  forall items',
    map first_content items = map first_content items' ->
    new_blocks existing items = new_blocks existing items'.
Proof.
  induction items as [|[n ms] items IH]; intros [|[n' ms'] items'] H;
    try discriminate; [reflexivity|].
  simpl in H. injection H as En Ec H. subst n'.
  simpl. rewrite (IH items' H).
  destruct (mem_text n existing); [reflexivity|].
  destruct ms as [|m0 ms]; destruct ms' as [|m0' ms']; try discriminate;
    [reflexivity|].
  simpl in Ec. injection Ec as Ec. rewrite Ec. reflexivity.
Qed.

(** [generate_common_file] looks at the first occurrence of each name
    only: two indexes with the same names in the same order and the same
    stored text in the first occurrence of each name make it write the
    same file, whatever their other occurrences hold.  Declarations of
    one name are never compared or merged. *)
Theorem writer_copies_first_occurrence_only (ft ft' : type_index)
        (output_file : string) (fs : directory) :
  map first_content ft = map first_content ft' ->
  generate_common_file ft output_file fs = generate_common_file ft' output_file fs.
Proof.
  intros H.
  assert (Hs : map first_content (sorted_items ft)
               = map first_content (sorted_items ft')).
  { unfold sorted_items.
    rewrite (sort_by_map _ _ first_content
               (fun a b => text_leb (fst a) (fst b))
               (fun a b => text_leb (fst a) (fst b)) ft (fun a b => eq_refl)).
    rewrite (sort_by_map _ _ first_content
               (fun a b => text_leb (fst a) (fst b))
               (fun a b => text_leb (fst a) (fst b)) ft' (fun a b => eq_refl)).
    rewrite H. reflexivity. }
  unfold generate_common_file, bind.
  destruct (read_existing_common output_file fs) as [[[names c]|] fs0];
    [|reflexivity].
  rewrite (new_blocks_first_content names _ _ Hs). reflexivity.
Qed.

Lemma writer_copies_first_occurrence_only_witness :
  generate_common_file
    [(T "A", [{| filename := "a.rs"; content := T "x"; start_pos := 0;
                 end_pos := 1; usage_count := 1 |};
              {| filename := "b.rs"; content := T "y"; start_pos := 0;
                 end_pos := 1; usage_count := 0 |}])]
    common_rs []
  = generate_common_file
      [(T "A", [{| filename := "a.rs"; content := T "x"; start_pos := 0;
                   end_pos := 1; usage_count := 1 |}])]
      common_rs [].
Proof.
  apply writer_copies_first_occurrence_only. reflexivity.
Defined.

(** ** The order in which the files are listed *)

Lemma dict_get_perm (K V : Type) (keq : K -> K -> bool) (k : K)
      (d d' : list (K * V)) :
  (forall a b, keq a b = true <-> a = b) ->
  NoDup (map fst d) -> Permutation d d' ->
  dict_get keq k d = dict_get keq k d'.
Proof.
  intros Hk Hn Hp.
  assert (Hn' : NoDup (map fst d')).
  { eapply Permutation_NoDup; [|exact Hn]. apply Permutation_map. exact Hp. }
  destruct (dict_get keq k d) as [v|] eqn:E.
  - apply (dict_get_Some_In _ _ keq Hk) in E.
    symmetry. apply (dict_get_In _ _ keq Hk); [exact Hn'|].
    eapply Permutation_in; eassumption.
  - destruct (dict_get keq k d') as [v'|] eqn:E'; [|reflexivity].
    apply (dict_get_Some_In _ _ keq Hk) in E'.
    apply (Permutation_in _ (Permutation_sym Hp)) in E'.
    rewrite (dict_get_In _ _ keq Hk k v' d Hn E') in E. discriminate.
Qed.

Lemma total_usage_perm (ms ms' : list StructMatch) :
  Permutation ms ms' -> total_usage ms = total_usage ms'.
Proof. induction 1; simpl; lia. Qed.

Section FilterValues.
Variables (K E : Type) (keq : K -> K -> bool) (P : K -> bool).
Hypothesis keq_eq : forall a b, keq a b = true <-> a = b.

Lemma dict_append_filter_values (k : K) (v : E) (d : list (K * list E)) :
  Permutation
    (flat_map snd (filter (fun e => P (fst e)) (dict_append keq k v d)))
    (flat_map snd (filter (fun e => P (fst e)) d) ++ (if P k then [v] else [])).
Proof.
  induction d as [|[k' vs] d IH]; simpl.
  - destruct (P k); simpl; apply Permutation_refl.
  - destruct (keq k k') eqn:Ek; simpl.
    + apply keq_eq in Ek. subst k'. destruct (P k); simpl.
      * rewrite <- !app_assoc. apply Permutation_app_head.
        apply Permutation_app_comm.
      * rewrite app_nil_r. apply Permutation_refl.
    + destruct (P k'); simpl; [|exact IH].
      rewrite <- app_assoc. apply Permutation_app_head. exact IH.
Qed.

Lemma fold_add_filter_values (os : list (K * E)) :
  forall d,
    Permutation
      (flat_map snd (filter (fun e => P (fst e)) (fold_left (pair_add keq) os d)))
      (flat_map snd (filter (fun e => P (fst e)) d)
       ++ map snd (filter (fun o => P (fst o)) os)).
Proof.
  induction os as [|[k v] os IH]; intros d; simpl.
  - rewrite app_nil_r. apply Permutation_refl.
  - eapply Permutation_trans; [apply IH|]. unfold pair_add at 1. simpl.
    eapply Permutation_trans;
      [apply Permutation_app_tail; apply dict_append_filter_values|].
    rewrite <- app_assoc. apply Permutation_app_head.
    destruct (P k); simpl; apply Permutation_refl.
Qed.
End FilterValues.

Lemma all_occurrences_perm (dir dir' : directory) :
  Permutation dir dir' ->
  Permutation (all_occurrences dir) (all_occurrences dir').
Proof.
  intros H. unfold all_occurrences, rust_files.
  apply Permutation_flat_map.
  rewrite <- (map_id (filter _ dir)), <- (map_id (filter _ dir')).
  apply Permutation_filter_map. exact H.
Qed.

Lemma type_locations_keys (dir : directory) :
  NoDup (map fst (type_locations (scan_rust_files dir))).
Proof.
  rewrite scan_type_locations.
  apply (fold_add_NoDup _ _ text_eqb text_eqb_eq). constructor.
Qed.

(** An entry of the promotable index holds the occurrences of its name. *)
Lemma type_locations_entry (dir : directory) (n : text) (ms : list StructMatch) :
  In (n, ms) (type_locations (scan_rust_files dir)) ->
  ms = map snd (filter (fun o => text_eqb n (fst o))
                  (filter named_upper (all_occurrences dir))).
Proof.
  intros H.
  apply (dict_get_In _ _ text_eqb text_eqb_eq n ms _ (type_locations_keys dir)) in H.
  rewrite scan_type_locations in H.
  pose proof (fold_add_get _ _ text_eqb text_eqb_eq
                (filter named_upper (all_occurrences dir)) n []) as G.
  simpl in G. unfold index_add in H.
  change (fold_left (fun d o => pair_add text_eqb d o))
    with (fold_left (pair_add (E:=StructMatch) text_eqb)) in H.
  rewrite G in H.
  destruct (map snd (filter (fun o => text_eqb n (fst o))
                       (filter named_upper (all_occurrences dir))));
    [discriminate | congruence].
Qed.

(** The occurrences of the promoted names do not depend on the order of
    the listing. *)
Lemma promoted_perm (typecount : Z) (dir dir' : directory) :
  Permutation dir dir' ->
  Permutation
    (flat_map snd (filter (fun e => qualifies typecount (snd e))
                     (type_locations (scan_rust_files dir))))
    (flat_map snd (filter (fun e => qualifies typecount (snd e))
                     (type_locations (scan_rust_files dir')))).
Proof.
  intros Hp.
  set (named := fun (d : directory) (n : text) =>
                  map snd (filter (fun o => text_eqb n (fst o))
                             (filter named_upper (all_occurrences d)))).
  set (Q := fun (d : directory) (n : text) => qualifies typecount (named d n)).
  assert (Hup : Permutation (filter named_upper (all_occurrences dir))
                            (filter named_upper (all_occurrences dir'))).
  { rewrite <- (map_id (filter _ (all_occurrences dir))),
            <- (map_id (filter _ (all_occurrences dir'))).
    apply Permutation_filter_map. apply all_occurrences_perm. exact Hp. }
  assert (HQ : forall n, Q dir n = Q dir' n).
  { intros n. unfold Q, qualifies, named.
    rewrite (total_usage_perm _ _ (Permutation_filter_map _ _ snd _ _ _ Hup)).
    reflexivity. }
  assert (Hside : forall d,
             Permutation
               (flat_map snd (filter (fun e => qualifies typecount (snd e))
                                (type_locations (scan_rust_files d))))
               (map snd (filter (fun o => Q d (fst o))
                           (filter named_upper (all_occurrences d))))).
  { intros d.
    assert (Ef : filter (fun e => qualifies typecount (snd e))
                   (type_locations (scan_rust_files d))
                 = filter (fun e => Q d (fst e))
                     (type_locations (scan_rust_files d))).
    { apply filter_ext_in. intros [n ms] Hin. simpl. unfold Q, named.
      rewrite <- (type_locations_entry d n ms Hin). reflexivity. }
    rewrite Ef, scan_type_locations.
    exact (fold_add_filter_values _ _ text_eqb (Q d) text_eqb_eq
             (filter named_upper (all_occurrences d)) []). }
  eapply Permutation_trans; [apply Hside|].
  eapply Permutation_trans; [|apply Permutation_sym; apply Hside].
  rewrite (filter_ext _ _ (fun o => HQ (fst o))).
  apply Permutation_filter_map. exact Hup.
Qed.

Lemma perm_nil_iff (X : Type) (l l' : list X) :
  Permutation l l' -> (l = [] <-> l' = []).
Proof.
  intros H. split; intros ->.
  - apply Permutation_nil. exact H.
  - apply Permutation_nil. apply Permutation_sym. exact H.
Qed.

Lemma frequent_empty_iff (typecount : Z) (dir dir' : directory) :
  Permutation dir dir' ->
  print_summary (type_locations (scan_rust_files dir)) typecount = None ->
  print_summary (type_locations (scan_rust_files dir')) typecount = None.
Proof.
  intros Hp H. unfold print_summary in *.
  pose proof (promoted_perm typecount dir dir' Hp) as Hperm.
  destruct (filter _ (type_locations (scan_rust_files dir))) as [|e l];
    [|discriminate].
  simpl in Hperm. apply Permutation_nil in Hperm.
  destruct (filter (fun e => qualifies typecount (snd e))
              (type_locations (scan_rust_files dir'))) as [|[n ms] l'] eqn:E;
    [reflexivity|].
  exfalso.
  assert (Hin : In (n, ms) (type_locations (scan_rust_files dir'))).
  { assert (H0 : In (n, ms) ((n, ms) :: l')) by (left; reflexivity).
    rewrite <- E in H0. apply filter_In in H0. tauto. }
  apply type_locations_nonempty in Hin.
  simpl in Hperm. destruct ms; [congruence | discriminate].
Qed.

(** The positions planned for a file, as a function of the catalogs. *)
Lemma plan_positions (ft : type_index) (lows : list StructMatch) (g : string)
      (ps : list span) :
  In (g, ps) (file_positions ft lows)
  <-> ps <> []
      /\ ps = map span_of (filter (fun m => String.eqb g (filename m))
                             (flat_map snd ft ++ lows)).
Proof.
  pose proof (file_positions_get ft lows g) as G. split.
  - intros H. split; [eapply file_positions_nonempty; exact H|].
    apply (dict_get_In _ _ String.eqb String.eqb_eq g ps _
             (file_positions_NoDup ft lows)) in H.
    rewrite H in G.
    destruct (map span_of _); [discriminate | congruence].
  - intros [Hne ->].
    apply (dict_get_Some_In _ _ String.eqb String.eqb_eq).
    rewrite G. destruct (map span_of _); [congruence | reflexivity].
Qed.

(** [os.listdir] lists the files in arbitrary order.  The outcome of a
    run does not depend on that order, the shared module aside: for two
    listings of the same files (with distinct names) the run ends with
    the same status and leaves every file other than [common.rs] with
    the same content. *)
Theorem run_independent_of_listing_order (typecount : Z) (dir dir' : directory) :
  NoDup (map fst dir) -> Permutation dir dir' ->
  fst (main typecount dir) = fst (main typecount dir')
  /\ forall g,
       g <> common_rs ->
       dict_get String.eqb g (snd (main typecount dir))
       = dict_get String.eqb g (snd (main typecount dir')).
Proof.
  intros Hn Hp.
  assert (Hn' : NoDup (map fst dir')).
  { eapply Permutation_NoDup; [|exact Hn]. apply Permutation_map. exact Hp. }
  assert (Hlows : Permutation (lowercase_matches (scan_rust_files dir))
                              (lowercase_matches (scan_rust_files dir'))).
  { rewrite !scan_lowercase. apply Permutation_filter_map.
    apply all_occurrences_perm. exact Hp. }
  destruct (print_summary (type_locations (scan_rust_files dir)) typecount)
    as [ft|] eqn:Hps.
  - destruct (print_summary (type_locations (scan_rust_files dir')) typecount)
      as [ft'|] eqn:Hps'.
    2:{ apply (frequent_empty_iff typecount dir' dir (Permutation_sym Hp)) in Hps'.
        congruence. }
    pose proof (promoted_perm typecount dir dir' Hp) as Hprom.
    rewrite <- (proj1 (print_summary_Some _ _ _ Hps)) in Hprom.
    rewrite <- (proj1 (print_summary_Some _ _ _ Hps')) in Hprom.
    assert (Hpos : forall g,
               Permutation
                 (map span_of (filter (fun m => String.eqb g (filename m))
                    (flat_map snd ft ++ lowercase_matches (scan_rust_files dir))))
                 (map span_of (filter (fun m => String.eqb g (filename m))
                    (flat_map snd ft' ++ lowercase_matches (scan_rust_files dir'))))).
    { intros g. apply Permutation_filter_map. apply Permutation_app; assumption. }
    assert (Hne : forall d t f, print_summary (type_locations (scan_rust_files d)) t
                           = Some f ->
                           forall n' ms', In (n', ms') f -> ms' <> []).
    { intros d t f Hf n' ms' H. pose proof (print_summary_Some _ _ _ Hf) as [E _].
      rewrite E in H. apply filter_In in H. destruct H as [H _].
      eapply type_locations_nonempty. exact H. }
    destruct (generate_common_file_eq ft common_rs dir (Hne _ _ _ Hps))
      as (blocks & Egen & _).
    destruct (generate_common_file_eq ft' common_rs dir' (Hne _ _ _ Hps'))
      as (blocks' & Egen' & _).
    destruct (promoting_run_steps typecount dir ft _ Hn Hps Egen)
      as (fs1 & Emain & _ & Hplan & Hframe).
    destruct (promoting_run_steps typecount dir' ft' _ Hn' Hps' Egen')
      as (fs1' & Emain' & _ & Hplan' & Hframe').
    rewrite Emain, Emain'. cbn [fst snd]. split; [reflexivity|].
    intros g Hg.
    assert (Eg : String.eqb g common_rs = false).
    { apply String.eqb_neq. exact Hg. }
    set (pos := map span_of (filter (fun m => String.eqb g (filename m))
                  (flat_map snd ft ++ lowercase_matches (scan_rust_files dir)))).
    set (pos' := map span_of (filter (fun m => String.eqb g (filename m))
                   (flat_map snd ft' ++ lowercase_matches (scan_rust_files dir')))).
    assert (Hpp : Permutation pos pos') by apply Hpos.
    destruct pos as [|p0 ps0] eqn:Epos.
    + (* not in the plan of either listing *)
      assert (Epos' : pos' = []) by (apply Permutation_nil; exact Hpp).
      rewrite Hframe, Hframe', Eg.
      * apply dict_get_perm; [exact String.eqb_eq | exact Hn | exact Hp].
      * intros Hin. apply in_map_iff in Hin. destruct Hin as ([g' ps] & E & Hin).
        simpl in E. subst g'. apply plan_positions in Hin.
        destruct Hin as [Hne' E]. fold pos' in E. congruence.
      * intros Hin. apply in_map_iff in Hin. destruct Hin as ([g' ps] & E & Hin).
        simpl in E. subst g'. apply plan_positions in Hin.
        destruct Hin as [Hne' E]. fold pos in E. congruence.
    + (* in the plan of both *)
      assert (Hin : In (g, p0 :: ps0)
                       (file_positions ft (lowercase_matches (scan_rust_files dir)))).
      { apply plan_positions. split; [discriminate|]. fold pos. congruence. }
      assert (Hne' : pos' <> []).
      { intros E. rewrite E in Hpp. apply Permutation_sym, Permutation_nil in Hpp.
        discriminate. }
      assert (Hin' : In (g, pos')
                        (file_positions ft' (lowercase_matches (scan_rust_files dir')))).
      { apply plan_positions. split; [exact Hne' | reflexivity]. }
      destruct (Hplan g _ Hin) as (old & Hold & ->).
      destruct (Hplan' g _ Hin') as (old' & Hold' & ->).
      assert (Eold : old = old').
      { apply (Permutation_in _ (Permutation_sym Hp)) in Hold'.
        exact (NoDup_fst_unique _ _ dir g old old' Hn Hold Hold'). }
      subst old'. f_equal. unfold delete_spans.
      rewrite (sort_reverse_canonical _ _ Hpp). reflexivity.
  - pose proof (frequent_empty_iff typecount dir dir' Hp Hps) as Hps'.
    assert (Emain : forall d,
               print_summary (type_locations (scan_rust_files d)) typecount = None ->
               main typecount d
               = ((if nonempty (lowercase_matches (scan_rust_files d))
                   then 1 else 0)%Z, d)).
    { intros d H.
      destruct (nonempty (lowercase_matches (scan_rust_files d))) eqn:E.
      - apply main_raises; assumption.
      - unfold main, main_body. rewrite H, E. reflexivity. }
    rewrite (Emain dir Hps), (Emain dir' Hps'). cbn [fst snd]. split.
    + destruct (perm_nil_iff _ _ _ Hlows) as [H1 H2].
      destruct (lowercase_matches (scan_rust_files dir));
        destruct (lowercase_matches (scan_rust_files dir')); try reflexivity.
      * discriminate (H1 eq_refl).
      * discriminate (H2 eq_refl).
    + intros g _. apply dict_get_perm; [exact String.eqb_eq | exact Hn | exact Hp].
Qed.

Lemma run_independent_of_listing_order_witness :
  fst (main 1 [("a.rs"%string, chain_rs); ("b.rs"%string, widget_rs)])
  = fst (main 1 [("b.rs"%string, widget_rs); ("a.rs"%string, chain_rs)])
  /\ dict_get String.eqb "a.rs"%string
       (snd (main 1 [("a.rs"%string, chain_rs); ("b.rs"%string, widget_rs)]))
     = dict_get String.eqb "a.rs"%string
         (snd (main 1 [("b.rs"%string, widget_rs); ("a.rs"%string, chain_rs)])).
Proof.
  assert (Hn : NoDup (map fst [("a.rs"%string, chain_rs); ("b.rs"%string, widget_rs)])).
  { simpl. constructor; [intros [H|[]]; discriminate H|].
    constructor; [intros [] | constructor]. }
  destruct (run_independent_of_listing_order 1 _ _ Hn (perm_swap _ _ [])) as [H1 H2].
  split; [exact H1|]. apply H2. discriminate.
Defined.

(** ** The name that decides *)


Lemma word_run_unique (n n' x y : text) :
  Forall (fun c => is_word c = true) n ->
  Forall (fun c => is_word c = true) n' ->
  n ++ " "%char :: x = n' ++ " "%char :: y -> n = n'.
Proof.
  intros Hn. revert n'. induction Hn as [|c n Hc Hn IH]; intros n' Hn' E.
  - destruct n' as [|c' n']; [reflexivity|].
    simpl in E. injection E as E _. subst c'.
    inversion Hn'; subst. discriminate.
  - destruct n' as [|c' n'].
    + simpl in E. injection E as E _. subst c. discriminate.
    + simpl in E. injection E as E1 E2. subst c'.
      inversion Hn'; subst. f_equal. eapply IH; eassumption.
Qed.

Lemma marker_unique (n n' t t' : text) :
  name_text n -> name_text n' -> marker n ++ t = marker n' ++ t' -> n = n'.
Proof.
  intros [_ Hn] [_ Hn'] E. unfold marker in E.
  rewrite <- !app_assoc in E. apply app_inv_head in E.
  simpl in E. eapply word_run_unique; eassumption.
Qed.

Lemma catalogued_occurrence (dir : directory) (o : StructMatch) :
  In o (flat_map snd (type_locations (scan_rust_files dir))
        ++ lowercase_matches (scan_rust_files dir)) ->
  exists n file_text,
    In (n, o) (all_occurrences dir)
    /\ In (filename o, file_text) dir
    /\ usage_count o
       = (if starts_upper n then count_name n (usages_of file_text) else 0)
    /\ name_text n
    /\ exists t, content o = [nl; nl] ++ marker n ++ header ++ t ++ footer.
Proof.
  intros H.
  apply (Permutation_in _ (catalog_perm dir)) in H.
  apply in_map_iff in H. destruct H as ([n o'] & E & H). simpl in E. subst o'.
  pose proof H as Hall.
  apply all_occurrences_In in H. destruct H as ([f file_text] & Hin & _ & Hocc).
  pose proof (occurrence_named _ _ _ Hocc) as [Hn Ht].
  apply occurrences_of_file_In in Hocc. destruct Hocc as (Hf & _ & Hu & _).
  simpl in Hf, Hu. exists n, file_text. rewrite Hf. auto.
Qed.



(** C8. In a directory, for every file whose text has a line made of
    plain characters (no slash, colon or comma) followed by
    [foo: Bar,], every occurrence of that file in the catalogs whose
    stored text starts with the comment line [// Bar ...] records a usage
    count of at least 1.  The occurrence is the one the comment line
    names [Bar], whatever name follows the keyword. *)
Theorem usage_attribution (dir : directory) (fname : string)
        (pre ind post t : text) (o : StructMatch) :
  NoDup (map fst dir) ->
  In (fname, pre ++ ind ++ field_line ++ post) dir ->
  ends_line pre ->
  Forall (fun c => plain c = true) ind ->
  In o (flat_map snd (type_locations (scan_rust_files dir))
        ++ lowercase_matches (scan_rust_files dir)) ->
  filename o = fname ->
  content o = [nl; nl] ++ marker (T "Bar") ++ t ->
  1 <= usage_count o
  /\ exists ms, In (T "Bar", ms) (type_locations (scan_rust_files dir)) /\ In o ms.
Proof.
  intros Hn Hfile Hpre Hind Ho Hf Hc.
  destruct (catalogued_occurrence dir o Ho)
    as (n & file_text & Hocc & Hin & Hu & Hname & t' & Ht).
  assert (En : n = T "Bar").
  { rewrite Hc in Ht. apply app_inv_head in Ht.
    symmetry. eapply marker_unique; [| exact Hname | exact Ht].
    split; [discriminate | token_list]. }
  subst n. rewrite Hf in Hin.
  assert (file_text = pre ++ ind ++ field_line ++ post)
    by (eapply NoDup_fst_unique; eassumption).
  subst file_text. split.
  - rewrite Hu. replace (starts_upper (T "Bar")) with true by reflexivity.
    apply count_name_In. apply usages_of_field; assumption.
  - rewrite scan_type_locations.
    apply (fold_add_member _ _ text_eqb _ (T "Bar") o text_eqb_eq).
    apply filter_In. split; [exact Hocc | reflexivity].
Qed.

Lemma usage_attribution_witness :
  1 <= usage_count
         (first_match (matches_of "Bar" (type_locations (scan_rust_files field_dir)))).
Proof.
  apply (usage_attribution field_dir "a.rs"%string (field_pre ++ [nl]) [tab]
           field_post
           (skipn 13 (decl "pub enum" "Bar" (fld "CodeA,")))
           (first_match (matches_of "Bar"
                           (type_locations (scan_rust_files field_dir))))).
  - repeat constructor. simpl. tauto.
  - left. reflexivity.
  - right. exists field_pre. reflexivity.
  - repeat constructor.
  - vm_compute. left. reflexivity.
  - vm_compute. reflexivity.
  - vm_compute. reflexivity.
Defined.

(** The field line [foo: Bar,] next to the declaration [pub enum Bar]
    under the comment [// Qux ...]: the occurrence is filed under [Qux]
    and records no use, although [Bar] is among the references of the
    file. *)
Lemma keyword_name_not_counted :
  map fst (type_locations (scan_rust_files qux_dir)) = [T "Qux"]
  /\ map usage_count (flat_map snd (type_locations (scan_rust_files qux_dir))) = [0]
  /\ lowercase_matches (scan_rust_files qux_dir) = []
  /\ usages_of qux_rs = [T "Bar"]
  /\ qux_rs = firstn 335 qux_rs ++ T "pub enum Bar" ++ skipn 347 qux_rs
  /\ firstn 26 qux_rs = T "pub struct S {" ++ [nl; tab] ++ field_line ++ [nl].
Proof. vm_compute. repeat split; reflexivity. Qed.

(** ** Where a declaration of the template is matched *)

(** An attempt of the declaration pattern that succeeds before the
    offset of a text starting with two newlines, and reaches it, starts
    at two newlines and a slash before that offset. *)
Lemma earlier_attempt_starts_before (q : option ascii) (u d : text) (len : nat)
      (gs : list (nat * text)) :
  u <> [] ->
  match_at type_pattern q (u ++ [nl; nl] ++ d) = Some (len, gs) ->
  exists y, u = [nl; nl; "/"%char] ++ y.
Proof.
  intros Hu H. apply type_match_groups in H.
  destruct H as (name & c & r & E & _).
  simpl in E. destruct u as [|u0 u]; [congruence|].
  simpl in E. injection E as E0 E. subst u0.
  destruct u as [|u1 u]; simpl in E; injection E as E1 E.
  - discriminate E.
  - subst u1. destruct u as [|u2 u]; simpl in E; injection E as E2 E.
    + discriminate E2.
    + subst u2. exists u. reflexivity.
Qed.

(** A template declaration at an offset of a text: [finditer] has a match
    that extends over the offset; if it starts there, its second group
    is the name of the comment line, and it starts there when no
    [\n\n/] occurs before the offset. *)
Lemma declaration_attempt (a name kw blank word body b : text) :
  name_text name -> kw = T "pub struct" \/ kw = T "pub enum" ->
  blank <> [] -> Forall (fun x => is_space x = true) blank -> name_text word ->
  exists m,
    In m (finditer type_pattern
            (a ++ ([nl; nl] ++ marker name ++ header ++ kw ++ blank ++ word
                   ++ body ++ footer) ++ b))
    /\ m_start m <= length a /\ length a < m_end m
    /\ (m_start m = length a -> group_text 2 m = name)
    /\ ((forall x y, a <> x ++ [nl; nl; "/"%char] ++ y) -> m_start m = length a).
Proof.
  intros Hn Hkw Hb1 Hb2 Hw.
  pose proof (lang_type_pattern name kw blank word body Hn Hkw Hb1 Hb2 Hw) as Hd.
  set (d := [nl; nl] ++ marker name ++ header ++ kw ++ blank ++ word ++ body
            ++ footer) in *.
  destruct (finditer_from_covers type_pattern (d ++ b) type_pattern_nonempty
              a None 0 0)
    as (m & a' & b' & len & Hin & E & Hle & Hs & He & Hat & Hcov).
  { apply Nat.le_0_l. }
  { rewrite match_at_results.
    destruct (results_complete type_pattern eq_refl d b
                (init_state (prev_after None a) (d ++ b)) Hd eq_refl)
      as (st' & Hst & _).
    destruct (results type_pattern _); [contradiction | discriminate]. }
  exists m. split; [exact Hin|]. simpl in Hs, Hcov.
  split; [lia|]. split; [lia|].
  destruct (app_split_le _ _ _ _ _ E Hle) as (u & Ea & Eb).
  split.
  - intros Hstart.
    assert (Hu : u = []).
    { rewrite Ea, length_app in Hstart. destruct u; [reflexivity | simpl in Hstart; lia]. }
    subst u. rewrite app_nil_l in Eb. subst b'.
    apply type_match_groups in Hat.
    destruct Hat as (name' & c & r & Et & _ & Hn' & Hc & Hg).
    unfold group_text, group. rewrite Hg. simpl.
    apply lang_type_tail in Hc. destruct Hc as (t & ->).
    unfold d, marker in Et. rewrite <- !app_assoc in Et.
    do 2 apply app_inv_head in Et.
    destruct Hn as [_ Hn], Hn' as [_ Hn']. symmetry.
    exact (word_run_unique name name' _ _ Hn Hn' Et).
  - intros Hfree. destruct u as [|u0 u].
    + rewrite app_nil_r in Ea. subst a'. exact Hs.
    + exfalso. subst b'. unfold d in Hat. rewrite <- (app_assoc [nl; nl]) in Hat.
      assert (Hu : u0 :: u <> []) by discriminate.
      destruct (earlier_attempt_starts_before _ (u0 :: u) _ _ _ Hu Hat)
        as (y & Ey).
      apply (Hfree a' y). rewrite Ea, Ey. reflexivity.
Qed.

(** A declaration of the template in a Rust file (two newlines, the
    comment line, the annotation header, a keyword, blanks, a name, any
    text and the closing idiom): the offset at which it starts lies in
    the span of an occurrence of that file in the catalogs.  If that
    occurrence starts at the offset, it is the declaration's own: its
    stored text starts with the comment line of the declaration and it is
    filed under the name of that comment line, in the promotable index
    or among the violations.  It does start at the offset when the text
    before it has no two newlines followed by a slash, as for the first
    declaration of a file.  Otherwise an earlier match may extend over
    the offset, and the declaration may be left out of the catalogs. *)
Theorem declaration_matched_unless_overlapped (dir : directory) (fname : string)
        (a name kw blank word body b : text) :
  In (fname,
      a ++ ([nl; nl] ++ marker name ++ header ++ kw ++ blank ++ word ++ body
            ++ footer) ++ b) dir ->
  is_rust_file fname = true ->
  name_text name -> kw = T "pub struct" \/ kw = T "pub enum" ->
  blank <> [] -> Forall (fun x => is_space x = true) blank -> name_text word ->
  exists o,
    In o (flat_map snd (type_locations (scan_rust_files dir))
          ++ lowercase_matches (scan_rust_files dir))
    /\ filename o = fname
    /\ start_pos o <= length a /\ length a < end_pos o
    /\ (start_pos o = length a ->
        (exists t, content o = [nl; nl] ++ marker name ++ t)
        /\ ((exists ms, In (name, ms) (type_locations (scan_rust_files dir))
                        /\ In o ms)
            \/ In o (lowercase_matches (scan_rust_files dir))))
    /\ ((forall x y, a <> x ++ [nl; nl; "/"%char] ++ y) ->
        start_pos o = length a).
Proof.
  intros Hin Hrs Hn Hkw Hb1 Hb2 Hw.
  destruct (declaration_attempt a name kw blank word body b Hn Hkw Hb1 Hb2 Hw)
    as (m & Hm & Hs & He & Hname & Hfree).
  set (file_text := a ++ ([nl; nl] ++ marker name ++ header ++ kw ++ blank ++ word
                           ++ body ++ footer) ++ b) in *.
  set (no := occurrence fname (usages_of file_text) m).
  assert (Hocc : In no (occurrences_of_file (fname, file_text))).
  { unfold occurrences_of_file. simpl. apply in_map. exact Hm. }
  assert (Hall : In no (all_occurrences dir)).
  { unfold all_occurrences. apply in_flat_map.
    exists (fname, file_text). split; [|exact Hocc].
    unfold rust_files. apply filter_In. auto. }
  exists (snd no).
  split.
  { apply (Permutation_in _ (Permutation_sym (catalog_perm dir))).
    apply in_map. exact Hall. }
  split; [reflexivity|]. split; [exact Hs|]. split; [exact He|].
  split; [|exact Hfree].
  intros Hstart. simpl in Hstart.
  assert (En : fst no = name) by (apply Hname; exact Hstart).
  assert (Epair : no = (name, snd no)).
  { rewrite <- En. destruct no; reflexivity. }
  split.
  - rewrite Epair in Hocc. apply occurrence_named in Hocc.
    destruct Hocc as (_ & t & Ht). exists (header ++ t ++ footer). exact Ht.
  - destruct (starts_upper name) eqn:Eu.
    + left. rewrite scan_type_locations.
      apply (fold_add_member _ _ text_eqb _ name (snd no) text_eqb_eq).
      apply filter_In. rewrite <- Epair. split; [exact Hall|].
      unfold named_upper. rewrite En. exact Eu.
    + right. rewrite scan_lowercase. apply in_map.
      apply filter_In. split; [exact Hall|].
      unfold named_lower. rewrite En, Eu. reflexivity.
Qed.

Lemma declaration_matched_unless_overlapped_witness :
  exists o,
    In o (flat_map snd
            (type_locations
               (scan_rust_files
                  [("a.rs"%string,
                    T "use x;"
                    ++ ([nl; nl] ++ marker (T "Bar") ++ header ++ T "pub struct"
                        ++ T " " ++ T "Bar" ++ T " {}" ++ footer) ++ [])]))
          ++ lowercase_matches
               (scan_rust_files
                  [("a.rs"%string,
                    T "use x;"
                    ++ ([nl; nl] ++ marker (T "Bar") ++ header ++ T "pub struct"
                        ++ T " " ++ T "Bar" ++ T " {}" ++ footer) ++ [])]))
    /\ filename o = "a.rs"%string
    /\ start_pos o <= length (T "use x;") /\ length (T "use x;") < end_pos o.
Proof.
  destruct (declaration_matched_unless_overlapped
              [("a.rs"%string,
                T "use x;"
                ++ ([nl; nl] ++ marker (T "Bar") ++ header ++ T "pub struct"
                    ++ T " " ++ T "Bar" ++ T " {}" ++ footer) ++ [])]
              "a.rs"%string (T "use x;") (T "Bar")
              (T "pub struct") (T " ") (T "Bar") (T " {}") [])
    as (o & H1 & H2 & H3 & H4 & _).
  - left. reflexivity.
  - reflexivity.
  - split; [discriminate | token_list].
  - left. reflexivity.
  - discriminate.
  - token_list.
  - split; [discriminate | token_list].
  - exists o. split; [exact H1|]. split; [exact H2|]. split; [exact H3 | exact H4].
Defined.

(** A declaration that starts on the last newline of the closing idiom
    before it is not matched: the only match of the text is the first
    declaration, and [Bar] is in neither catalog. *)
Remark adjacent_declaration_missed :
  adjacent_rs = firstn 409 adjacent_rs ++ decl "pub struct" "Bar" ""
  /\ type_spans adjacent_rs = [(0, 410)]
  /\ map fst (type_locations (scan_rust_files [("a.rs"%string, adjacent_rs)]))
     = [T "Foo"]
  /\ lowercase_matches (scan_rust_files [("a.rs"%string, adjacent_rs)]) = [].
Proof. vm_compute. repeat split; reflexivity. Qed.
